(** * cue: dispatch, registry and worker core

    A shallow embedding of the dispatch and worker subsystem of the cue
    logging library (logger.go, the config and worker sources) and of its
    contexts (context.go), together with the properties of the registry, the
    dispatcher, the logging methods, the workers, the retry helper, the
    degradation controller, the backoff function and the contexts. *)

From Stdlib Require Import ZArith NArith Lia List String.
From stdpp Require Import base option list gmap.

Local Open Scope string_scope.
Local Open Scope list_scope.
Local Open Scope Z_scope.

(** ** Levels *)

(** Modelled from the spec: the Level type and its six constants.  The file
    declaring them is not among the sources; the spec fixes the order (a
    lower value is more severe, OFF excludes every event) and the tests
    (a collector registered at OFF receives nothing, one at FATAL receives
    the two FATAL events, ..., one at DEBUG receives everything) agree with
    an unsigned enumeration starting at OFF. *)
Definition Level := N.

Definition OFF : Level := 0%N.
Definition FATAL : Level := 1%N.
Definition ERROR : Level := 2%N.
Definition WARN : Level := 3%N.
Definition INFO : Level := 4%N.
Definition DEBUG : Level := 5%N.

(** ** Machine integers *)

Definition wrap_int32 (z : Z) : Z := (z + 2 ^ 31) mod 2 ^ 32 - 2 ^ 31.
Definition wrap_int64 (z : Z) : Z := (z + 2 ^ 63) mod 2 ^ 64 - 2 ^ 63.
Definition wrap_uint64 (z : Z) : Z := z mod 2 ^ 64.

(** ** Events *)

(** A Go [error] value: [None] is nil, [Some m] a non-nil error. *)
Definition error := option string.

(** A Collector interface value that is not nil, by identity (the registry
    is a Go map keyed by the interface value). *)
Definition Collector := positive.

(** The values that the core itself attaches to a context or formats into
    a message: integers, strings, collectors and time stamps. *)
Inductive value :=
| V_int (z : Z)
| V_string (s : string)
| V_collector (c : Collector)
| V_time (t : Z).

(** A logging context: its name and its ordered key/value pairs. *)
Definition Context := (string * list (string * value))%type.

(** The Event struct.  The wall-clock timestamp and the captured stack
    frames are left out: no function of the dispatch core reads them. *)
Record Event := mkEvent {
  ev_Level : Level;
  ev_Context : Context;
  ev_Error : error;
  ev_Message : string
}.

Definition NewContext (name : string) : Context := (name, []).

Definition WithFields (ctx : Context) (fields : list (string * value)) : Context :=
  (fst ctx, (snd ctx ++ fields)%list).

Definition newEvent (context : Context) (level : Level) (cause : error)
    (message : string) : Event :=
  {| ev_Level := level; ev_Context := context; ev_Error := cause;
     ev_Message := message |}.

(** ** Config snapshots *)

(** The worker interface value held by a registry entry: the dynamic type
    and the identity of the worker object. *)
Inductive worker :=
| syncWorkerRef (ref : positive)
| asyncWorkerRef (ref : positive).

Record entry := mkEntry {
  threshold : Level;
  degraded : bool;
  entry_worker : worker
}.

Record config := mkConfig {
  cfg_threshold : Level;
  frames : Z;
  errorFrames : Z;
  registry : gmap Collector entry
}.

Definition entry_clone (e : entry) : entry :=
  {| threshold := threshold e; degraded := degraded e;
     entry_worker := entry_worker e |}.

Definition newConfig : config :=
  {| cfg_threshold := OFF; frames := 1; errorFrames := 1; registry := ∅ |}.

Definition clone (c : config) : config :=
  {| cfg_threshold := cfg_threshold c; frames := frames c;
     errorFrames := errorFrames c;
     registry := entry_clone <$> registry c |}.

(** One iteration of the loop of updateThreshold. *)
Definition updateThreshold_body (max : Level) (e : entry) : Level :=
  if (max <? threshold e)%N && negb (degraded e) then threshold e else max.

(** The loop of updateThreshold over the entries in the order [es] in which
    the map iteration happens to yield them. *)
Definition updateThreshold_over (es : list entry) : Level :=
  fold_left updateThreshold_body es OFF.

Definition updateThreshold (c : config) : config :=
  {| cfg_threshold := updateThreshold_over (snd <$> map_to_list (registry c));
     frames := frames c; errorFrames := errorFrames c;
     registry := registry c |}.

(** What the spec asks of the global threshold: it is the greatest threshold
    of a non-degraded entry, and OFF when no entry is non-degraded. *)
Definition threshold_is_max (reg : gmap Collector entry) (t : Level) : Prop :=
  (∀ c e, reg !! c = Some e → degraded e = false → (threshold e <= t)%N) ∧
  ((∃ c e, reg !! c = Some e ∧ degraded e = false ∧ threshold e = t) ∨
   ((∀ c e, reg !! c = Some e → degraded e = true) ∧ t = OFF)).

Definition threshold_invariant (c : config) : Prop :=
  threshold_is_max (registry c) (cfg_threshold c).

(** ** The global state and the calls the core makes *)

(** What a call of a collector's Collect does: it returns an error value
    (nil or not), or it panics with a cause.  The cause is a value other
    than nil: it is what recover() returns, and recoverCollector tests it
    against nil.  (A panic(nil), for which recover() returns nil before
    Go 1.21, is outside the model.) *)
Inductive outcome :=
| Returns (err : error)
| Panics (cause : string).

(** The calls that leave the dispatch core, in the order they are made:
    the publication of a snapshot, the two methods of the worker interface
    (tagged with the registry key of the entry that holds the worker), the
    creation of a worker, a direct call of a collector, and a sleep. *)
Inductive call :=
| cfg_set (new : config)
| newWorker_call (w : worker) (c : Collector) (bufsize : Z)
| worker_Send (c : Collector) (w : worker) (e : Event)
| worker_Terminate (c : Collector) (w : worker) (flush : bool)
| Collect_call (c : Collector) (e : Event) (r : outcome)
| time_Sleep (d : Z).

(** The package-level variables: the published snapshot behind [cfg], the
    in-process send counter (an int32), the number of worker objects made so
    far (their identities), and the state of the collectors. *)
Record world (S : Type) := mkWorld {
  published : config;
  sending : Z;
  workersMade : positive;
  collectors : S
}.
Arguments mkWorld {S}.
Arguments published {S}.
Arguments sending {S}.
Arguments workersMade {S}.
Arguments collectors {S}.

(** Computations over the global state that log their calls. *)
Definition M (S A : Type) : Type := world S → A * world S * list call.

Definition ret {S A} (a : A) : M S A := λ w, (a, w, []).

Definition bind {S A B} (m : M S A) (k : A → M S B) : M S B :=
  λ w, let '(a, w1, t1) := m w in
       let '(b, w2, t2) := k a w1 in
       (b, w2, t1 ++ t2)%list.

Notation "'let*' x ':=' m 'in' k" := (bind m (λ x, k))
  (at level 10, x name, m at level 200, k at level 200, only parsing).
Notation "'exec' m 'in' k" := (bind m (λ _, k))
  (at level 10, m at level 200, k at level 200, only parsing).

Definition emit {S} (t : list call) : M S unit := λ w, (tt, w, t).

Definition result_of {S A} (r : A * world S * list call) : A := fst (fst r).
Definition world_of {S A} (r : A * world S * list call) : world S := snd (fst r).
Definition calls_of {S A} (r : A * world S * list call) : list call := snd r.

(** atomicConfig.get and atomicConfig.set. *)
Definition cfg_get {S} : M S config := λ w, (published w, w, []).

Definition cfg_store {S} (new : config) : M S unit :=
  λ w, (tt, mkWorld new (sending w) (workersMade w) (collectors w), [cfg_set new]).

(** atomic.AddInt32(&sending, delta). *)
Definition atomic_AddInt32_sending {S} (delta : Z) : M S unit :=
  λ w, (tt, mkWorld (published w) (wrap_int32 (sending w + delta))
                    (workersMade w) (collectors w), []).

(** newWorker: a synchronous worker for a buffer size of 0, an asynchronous
    one otherwise; the worker is a new object.  For a buffer size that
    make(chan *Event, bufsize) refuses (see [chan_size_ok] below) the source
    panics in newAsyncWorker; the model has no such path, and what is stated
    of a registration assumes a size that make accepts. *)
Definition newWorker {S} (c : Collector) (bufsize : Z) : M S worker :=
  λ w, let ref := workersMade w in
       let wk := if bufsize =? 0 then syncWorkerRef ref else asyncWorkerRef ref in
       (wk, mkWorld (published w) (sending w) (Pos.succ ref) (collectors w),
        [newWorker_call wk c bufsize]).

(** The buffer sizes with which newWorker returns: 0 (no channel is made),
    or a size that make(chan *Event, bufsize) accepts, which is not negative
    and within what makechan allows (on the 64-bit platforms, 2^48 bytes for
    the 8-byte elements and the header; the sizes below 2^44 are within it).
    Memory that runs out is outside the model. *)
Definition chan_size_ok (bufsize : Z) : Prop := 0 <= bufsize < 2 ^ 44.

(** A call of c.Collect(event) on the collectors' state. *)
Definition call_Collect {S} (Collect : Collector → Event → S → outcome * S)
    (c : Collector) (event : Event) : M S outcome :=
  λ w, let '(r, s) := Collect c event (collectors w) in
       (r, mkWorld (published w) (sending w) (workersMade w) s,
        [Collect_call c event r]).

(** ** Registry mutations (logger.go) *)

Definition with_registry (c : config) (reg : gmap Collector entry) : config :=
  {| cfg_threshold := cfg_threshold c; frames := frames c;
     errorFrames := errorFrames c; registry := reg |}.

(** collect; [None] is the nil Collector. *)
Definition collect {S} (thr : Level) (bufsize : Z) (c : option Collector) : M S unit :=
  match c with
  | None => ret tt
  | Some c =>
      let* cur := cfg_get in
      let new := clone cur in
      match registry new !! c with
      | Some _ => ret tt
      | None =>
          let* wk := newWorker c bufsize in
          let new := with_registry new
            (<[c := {| threshold := thr; degraded := false; entry_worker := wk |}]>
               (registry new)) in
          cfg_store (updateThreshold new)
      end
  end.

Definition Collect_register {S} (thr : Level) (c : option Collector) : M S unit :=
  collect thr 0 c.

Definition CollectAsync {S} (thr : Level) (bufsize : Z) (c : option Collector) : M S unit :=
  collect thr bufsize c.

Definition SetLevel {S} (thr : Level) (c : Collector) : M S unit :=
  let* cur := cfg_get in
  let new := clone cur in
  match registry new !! c with
  | None => ret tt
  | Some e =>
      let e := {| threshold := thr; degraded := degraded e;
                  entry_worker := entry_worker e |} in
      cfg_store (updateThreshold (with_registry new (<[c := e]> (registry new))))
  end.

Definition SetFrames {S} (fr : Z) (efr : Z) : M S unit :=
  let* cur := cfg_get in
  let new := clone cur in
  let new := {| cfg_threshold := cfg_threshold new; frames := fr;
                errorFrames := efr; registry := registry new |} in
  cfg_store new.

Definition setDegraded {S} (c : Collector) (d : bool) : M S unit :=
  let* cur := cfg_get in
  let new := clone cur in
  match registry new !! c with
  | None => ret tt
  | Some e =>
      let e := {| threshold := threshold e; degraded := d;
                  entry_worker := entry_worker e |} in
      cfg_store (updateThreshold (with_registry new (<[c := e]> (registry new))))
  end.

Definition dispose {S} (c : Collector) : M S unit :=
  let* cur := cfg_get in
  let new := clone cur in
  match registry new !! c with
  | None => ret tt
  | Some e =>
      exec cfg_store (updateThreshold (with_registry new (delete c (registry new)))) in
      emit [worker_Terminate c (entry_worker e) false]
  end.

(** terminateWorkers once the send counter has been seen at zero: every
    worker of the registry is terminated with flush = true. *)
Definition terminateWorkers_calls (reg : gmap Collector entry) : list call :=
  (λ ce, worker_Terminate (fst ce) (entry_worker (snd ce)) true) <$> map_to_list reg.

(** terminateAsync, the body that Close runs in its own goroutine.  The loop
    of terminateWorkers spins while the send counter is not zero; in a run
    where nothing else changes the counter it is left only when the counter
    is zero already.  The result tells whether [result <- nil] is reached. *)
Definition terminateAsync {S} : M S bool :=
  let* current := cfg_get in
  exec cfg_store newConfig in
  λ w, if sending w =? 0
       then (true, w, terminateWorkers_calls (registry current))
       else (false, w, []).



(** ** Backoff (worker source) *)

(** The float64 values that [math.Pow(2, float64(attempt))] can take for an
    integer [attempt]: an exact power of two (normal or subnormal), zero on
    underflow, +Inf on overflow.  NaN and -Inf are the other values the
    source tests for. *)
Inductive float64 :=
| F_NaN
| F_PosInf
| F_NegInf
| F_zero
| F_pow2 (k : Z).

(** math.Pow(2, float64(attempt)).  Powers of two are exact in binary
    floating point: 2^k for -1074 <= k <= 1023, +Inf above and 0 below;
    where float64(attempt) rounds (beyond 2^53) the result is +Inf or 0
    all the same. *)
Definition math_Pow2 (attempt : Z) : float64 :=
  if 1024 <=? attempt then F_PosInf
  else if attempt <? -1074 then F_zero
  else F_pow2 attempt.

Definition math_IsNaN (f : float64) : bool :=
  match f with F_NaN => true | _ => false end.

Definition math_IsInf (f : float64) (sign : Z) : bool :=
  match f with
  | F_PosInf => 0 <=? sign
  | F_NegInf => sign <=? 0
  | _ => false
  end.

(** time.Duration(exp), a conversion of a float64 to an int64: the value is
    truncated towards zero; for a value outside int64 the language leaves
    the result to the implementation, and [oor] is that result. *)
Definition Duration_of_float64 (oor : Z) (f : float64) : Z :=
  match f with
  | F_pow2 k => if k <? 0 then 0 else if k <=? 62 then 2 ^ k else oor
  | F_zero => 0
  | _ => oor
  end.

(** Durations are int64 counts of nanoseconds. *)
Definition Millisecond : Z := 1000000.
Definition Minute : Z := 60 * 1000000000.
Definition maxDelay : Z := 5 * Minute.
Definition sendRetries : Z := 2.

Definition backoff (oor : Z) (attempt : Z) : Z :=
  let exp := math_Pow2 attempt in
  if math_IsNaN exp || math_IsInf exp 1 || math_IsInf exp (-1) then maxDelay
  else
    let delay := wrap_int64 (Millisecond * Duration_of_float64 oor exp) in
    if delay >? maxDelay then maxDelay else delay.

(** What the spec asks of the delay. *)
Definition backoff_spec (attempt : Z) : Z :=
  Z.min (2 ^ attempt * Millisecond) maxDelay.

(** ** Logger and dispatcher (logger.go) *)

Record logger := mkLogger {
  context : Context;
  skipFrames : Z
}.

Definition NewLogger (name : string) : logger :=
  {| context := NewContext name; skipFrames := 3 |}.

Definition logger_clone (l : logger) : logger :=
  {| context := context l; skipFrames := skipFrames l |}.

Definition logger_WithFields (l : logger) (fields : list (string * value)) : logger :=
  let new := logger_clone l in
  {| context := WithFields (context new) fields; skipFrames := skipFrames new |}.

Definition internalContext : Context := NewContext "github.com/remerge/cue".
Definition internalLogger : logger := NewLogger "github.com/remerge/cue".

(** The condition of the loop body of dispatchEvent:
    [entry.threshold >= event.Level && !entry.degraded]. *)
Definition accepts (e : entry) (event : Event) : bool :=
  (ev_Level event <=? threshold e)%N && negb (degraded e).

(** The loop body of dispatchEvent for one key and entry of the registry. *)
Definition dispatchEvent_body (event : Event) (ce : Collector * entry) : list call :=
  if accepts (snd ce) event
  then [worker_Send (fst ce) (entry_worker (snd ce)) event]
  else [].

(** The Send calls of the loop of dispatchEvent over a registry. *)
Definition dispatchEvent_sends (reg : gmap Collector entry) (event : Event) : list call :=
  flat_map (dispatchEvent_body event) (map_to_list reg).

(** dispatchEvent.  A worker.Send is recorded as a call and not run here:
    what the worker of an entry does with the event (for a synchronous
    worker within the Send itself) is the matter of syncWorker_Send and
    asyncWorker_Send below.  The state that dispatchEvent returns is
    therefore the one in which the workers have not run yet. *)
Definition dispatchEvent {S} (event : Event) : M S unit :=
  exec atomic_AddInt32_sending 1 in
  let* config := cfg_get in
  exec emit (dispatchEvent_sends (registry config) event) in
  atomic_AddInt32_sending (-1).

Definition send {S} (l : logger) (level : Level) (err : error) (message : string) : M S unit :=
  let* config := cfg_get in
  if (cfg_threshold config <? level)%N then ret tt
  else dispatchEvent (newEvent (context l) level err message).

Section Formatting.
(** fmt.Sprintf, which belongs to the rendering side. *)
Variable Sprintf : string → list value → string.

Definition newEventf (ctx : Context) (level : Level) (cause : error)
    (format : string) (values : list value) : Event :=
  {| ev_Level := level; ev_Context := ctx; ev_Error := cause;
     ev_Message := Sprintf format values |}.

Definition sendf {S} (l : logger) (level : Level) (err : error)
    (format : string) (values : list value) : M S unit :=
  let* config := cfg_get in
  if (cfg_threshold config <? level)%N then ret tt
  else dispatchEvent (newEventf (context l) level err format values).

(** sendRecovery.  The event's error is the cause itself when the cause is
    an error value, and an error made of the printed cause otherwise; a
    cause is modelled by what it prints. *)
Definition sendRecovery {S} (l : logger) (cause : string) (message : string) : M S unit :=
  let* config := cfg_get in
  if (cfg_threshold config <? FATAL)%N then ret tt
  else
    let event := newEvent (context l) FATAL None message in
    let event := {| ev_Level := ev_Level event; ev_Context := ev_Context event;
                    ev_Error := Some cause; ev_Message := ev_Message event |} in
    dispatchEvent event.

Definition logger_Warnf {S} (l : logger) (format : string) (values : list value) : M S unit :=
  sendf l WARN None format values.

Definition logger_Error {S} (l : logger) (err : error) (message : string) : M S error :=
  match err with
  | None => ret None
  | Some _ => exec send l ERROR err message in ret err
  end.

Definition logger_Errorf {S} (l : logger) (err : error) (format : string)
    (values : list value) : M S error :=
  match err with
  | None => ret None
  | Some _ => exec sendf l ERROR err format values in ret err
  end.

(** ReportRecovery; [ourPanic] is what the stack inspection of ourPanic()
    answers at the call site. *)
Definition logger_ReportRecovery {S} (l : logger) (ourPanic : bool)
    (cause : option string) (message : string) : M S unit :=
  match cause with
  | None => ret tt
  | Some cause => if ourPanic then ret tt else sendRecovery l cause message
  end.

(** ** Retry, degradation and panic recovery (worker source) *)

(** recoverCollector, deferred by sendWithRetries and handleDegradation;
    [cause] is what recover() returns.  The goroutine it starts is run at
    the point where it is started, where no frame of doPanic is on its
    stack.  That is one of the schedules the source allows: the goroutine
    may as well run later, with the dispatcher and the worker loop going on
    in between; what is stated of its body is therefore stated for every
    state in which it may find itself. *)
Definition recoverCollector {S} (c : Collector) (cause : option string) : M S unit :=
  match cause with
  | None => ret tt
  | Some cause =>
      exec dispose c in
      let message :=
        Sprintf "Recovered from collector panic. Collector has been disposed: %s"
                [V_collector c] in
      logger_ReportRecovery internalLogger false (Some cause) message
  end.

Section Collectors.
Context {S : Type}.
(** c.Collect(event) on the state of the collectors. *)
Variable Collect : Collector → Event → S → outcome * S.
(** The Close method of the collectors that have one. *)
Variable Closer : Collector → option (S → error * S).
(** The result of an out-of-range float64 to int64 conversion. *)
Variable oor : Z.

(** The loop of sendWithRetries with [n] iterations left. *)
Fixpoint sendWithRetries_loop (n : nat) (c : Collector) (event : Event)
    (collectorErr : error) : M S outcome :=
  match n with
  | O => ret (Returns collectorErr)
  | Datatypes.S n' =>
      let* r := call_Collect Collect c event in
      match r with
      | Panics cause => ret (Panics cause)
      | Returns None => ret (Returns None)
      | Returns (Some e) =>
          sendWithRetries_loop n' c event
            (match collectorErr with None => Some e | Some _ => collectorErr end)
      end
  end.

(** sendWithRetries: [attempt] runs from 0 to [retries], which makes
    retries+1 iterations (none for a negative [retries]; the counter stays
    within int for the retry counts in use); a panic of Collect is recovered
    by the deferred recoverCollector, and the function then returns the
    zero value nil. *)
Definition sendWithRetries (c : Collector) (event : Event) (retries : Z) : M S error :=
  let* r := sendWithRetries_loop (Z.to_nat (retries + 1)) c event None in
  match r with
  | Returns err => ret err
  | Panics cause => exec recoverCollector c (Some cause) in ret None
  end.

(** How a call of ensureErrorSent ends: it returns, the collector
    panics, or (out of fuel) it is still looping. *)
Inductive ensured :=
| ensured_sent (attempts : Z)
| ensured_panic (cause : string)
| ensured_looping.

Fixpoint ensureErrorSent (fuel : nat) (c : Collector) (err : error) (drops : Z)
    (startTime : Z) (attempt : Z) : M S ensured :=
  match fuel with
  | O => ret ensured_looping
  | Datatypes.S fuel' =>
      let attempt := wrap_int64 (attempt + 1) in
      exec emit [time_Sleep (backoff oor attempt)] in
      let ctx := WithFields internalContext
                   [("attempts", V_int attempt); ("drops", V_int drops)] in
      let event := newEventf ctx ERROR err
        "The current collector, %s, has been in a degraded state since %s.  Delivery of this message has been attempted %d times"
        [V_collector c; V_time startTime; V_int attempt] in
      let* r := call_Collect Collect c event in
      match r with
      | Returns None => ret (ensured_sent attempt)
      | Returns (Some _) => ensureErrorSent fuel' c err drops startTime attempt
      | Panics cause => ret (ensured_panic cause)
      end
  end.

(** handleDegradation; the two goroutines it starts are run at the
    points where they are started.  [startTime] is the clock reading of
    ensureErrorSent.  The result tells how the recovery loop ended.  The
    goroutine of the WARN notice is started after setDegraded(c, false) has
    returned; the one of the ERROR notice is started before the recovery
    loop and is not ordered with what follows ([handleDegradation_sched]
    below runs it late). *)
Definition handleDegradation (fuel : nat) (c : Collector) (err : error) (drops : Z)
    (startTime : Z) : M S ensured :=
  exec setDegraded c true in
  exec logger_Errorf (logger_WithFields internalLogger [("drops", V_int drops)]) err
         "Collector has entered a degraded state: %s" [V_collector c] in
  let* r := ensureErrorSent fuel c err drops startTime 0 in
  match r with
  | ensured_sent n =>
      exec setDegraded c false in
      exec logger_Warnf internalLogger
             "Collector has recovered from a degraded stated: %s" [V_collector c] in
      ret r
  | ensured_panic cause => exec recoverCollector c (Some cause) in ret r
  | ensured_looping => ret r
  end.

(** closeCollector; [Closer c] is the Close method of a collector that
    implements io.Closer. *)
Definition closeCollector (c : Collector) : M S unit :=
  match Closer c with
  | None => ret tt
  | Some close =>
      let* err := (λ w, let '(err, s) := close (collectors w) in
                        (err, mkWorld (published w) (sending w) (workersMade w) s, [])) in
      exec logger_Errorf internalLogger err "Failed to close collector %s"
             [V_collector c] in
      ret tt
  end.

(** *** The synchronous worker *)

Record syncWorker := mkSyncWorker {
  sw_collector : Collector;
  sw_terminated : bool;
  sw_drops : Z
}.

Definition newSyncWorker (c : Collector) : syncWorker :=
  {| sw_collector := c; sw_terminated := false; sw_drops := 0 |}.

(** syncWorker.sendEvent.  When the recovery loop inside handleDegradation
    is out of fuel the Go call has not returned; the worker given back is
    then the one the call is holding while it goes on looping. *)
Definition syncWorker_sendEvent (fuel : nat) (startTime : Z) (w : syncWorker)
    (event : Event) : M S syncWorker :=
  let* err := sendWithRetries (sw_collector w) event sendRetries in
  match err with
  | None => ret w
  | Some _ =>
      let w := {| sw_collector := sw_collector w; sw_terminated := sw_terminated w;
                  sw_drops := wrap_uint64 (sw_drops w + 1) |} in
      exec handleDegradation fuel (sw_collector w) err (sw_drops w) startTime in
      ret w
  end.

Definition syncWorker_Send (fuel : nat) (startTime : Z) (w : syncWorker)
    (e : Event) : M S syncWorker :=
  if sw_terminated w then ret w else syncWorker_sendEvent fuel startTime w e.

Definition syncWorker_Terminate (w : syncWorker) (flush : bool) : M S syncWorker :=
  exec closeCollector (sw_collector w) in
  ret {| sw_collector := sw_collector w; sw_terminated := true;
         sw_drops := sw_drops w |}.

(** *** The asynchronous worker *)

(** A buffered channel of events: what it holds, its capacity, and whether
    it has been closed. *)
Record chan := mkChan {
  ch_buf : list Event;
  ch_cap : Z;
  ch_closed : bool
}.

(** The asyncWorker struct; [None] for the queue is the nil channel that
    cleanup leaves behind.  The two channels of the termination handshake
    are left out. *)
Record asyncWorker := mkAsyncWorker {
  aw_drops : Z;
  aw_collector : Collector;
  aw_queue : option chan;
  aw_lastdrops : Z
}.

Definition newAsyncWorker (c : Collector) (bufsize : Z) : asyncWorker :=
  {| aw_drops := 0; aw_collector := c;
     aw_queue := Some {| ch_buf := []; ch_cap := bufsize; ch_closed := false |};
     aw_lastdrops := 0 |}.

(** How a Send ends: it returns, with the worker as it leaves it, or the
    goroutine panics (a send on a closed channel). *)
Inductive sent :=
| send_returns (w : asyncWorker)
| send_panics.

(** asyncWorker.Send: a select with one send case and a default. *)
Definition asyncWorker_Send (w : asyncWorker) (e : Event) : sent :=
  let dropped :=
    {| aw_drops := wrap_uint64 (aw_drops w + 1); aw_collector := aw_collector w;
       aw_queue := aw_queue w; aw_lastdrops := aw_lastdrops w |} in
  match aw_queue w with
  | None => send_returns dropped
  | Some q =>
      if ch_closed q then send_panics
      else if Z.of_nat (length (ch_buf q)) <? ch_cap q
      then send_returns
             {| aw_drops := aw_drops w; aw_collector := aw_collector w;
                aw_queue := Some {| ch_buf := ch_buf q ++ [e]; ch_cap := ch_cap q;
                                    ch_closed := ch_closed q |};
                aw_lastdrops := aw_lastdrops w |}
      else send_returns dropped
  end.

(** asyncWorker.sendEvent; as for the synchronous worker, out of fuel the
    Go call has not returned. *)
Definition asyncWorker_sendEvent (fuel : nat) (startTime : Z) (w : asyncWorker)
    (event : Event) : M S asyncWorker :=
  let* err := sendWithRetries (aw_collector w) event sendRetries in
  match err with
  | None => ret w
  | Some _ =>
      let drops := wrap_uint64 (aw_drops w + 1) in
      exec handleDegradation fuel (aw_collector w) err drops startTime in
      ret {| aw_drops := drops; aw_collector := aw_collector w;
             aw_queue := aw_queue w; aw_lastdrops := drops |}
  end.

Definition errDrops : error := Some "events dropped due to full buffer".

Definition asyncWorker_handleDrops (fuel : nat) (startTime : Z) (w : asyncWorker)
    : M S asyncWorker :=
  let drops := aw_drops w in
  if drops >? aw_lastdrops w
  then exec handleDegradation fuel (aw_collector w) errDrops drops startTime in
       ret {| aw_drops := aw_drops w; aw_collector := aw_collector w;
              aw_queue := aw_queue w; aw_lastdrops := drops |}
  else ret w.
End Collectors.
End Formatting.

Arguments sendWithRetries_loop {S} Collect n c event collectorErr.
Arguments sendWithRetries Sprintf {S} Collect c event retries.
Arguments ensureErrorSent Sprintf {S} Collect oor fuel c err drops startTime attempt.
Arguments handleDegradation Sprintf {S} Collect oor fuel c err drops startTime.
Arguments recoverCollector Sprintf {S} c cause : simpl never.
Arguments closeCollector Sprintf {S} Closer c.
Arguments syncWorker_sendEvent Sprintf {S} Collect oor fuel startTime w event.
Arguments syncWorker_Send Sprintf {S} Collect oor fuel startTime w e.
Arguments syncWorker_Terminate Sprintf {S} Closer w flush.
Arguments asyncWorker_sendEvent Sprintf {S} Collect oor fuel startTime w event.
Arguments asyncWorker_handleDrops Sprintf {S} Collect oor fuel startTime w.

(** ** The collectors of the test suite *)

(** capturingCollector.Collect on the slice of captured events. *)
Definition capturingCollector_Collect (event : Event) (captured : list Event)
    : outcome * list Event :=
  (Returns None, captured ++ [event]).

(** A failingCollector in front of a capturingCollector. *)
Record failingCollector := mkFailing {
  succeedAfter : Z;
  failCount : Z;
  captured : list Event
}.

Definition newFailingCollector (succeedAfter : Z) : failingCollector :=
  {| succeedAfter := succeedAfter; failCount := 0; captured := [] |}.

Definition failingCollector_Collect (Sprintf : string → list value → string)
    (event : Event) (c : failingCollector) : outcome * failingCollector :=
  if failCount c <? succeedAfter c
  then
    let n := wrap_int64 (failCount c + 1) in
    (Returns (Some (Sprintf "%d more failures before I pass the event to my collector"
                            [V_int (wrap_int64 (succeedAfter c - n))])),
     {| succeedAfter := succeedAfter c; failCount := n; captured := captured c |})
  else
    let '(r, cap) := capturingCollector_Collect event (captured c) in
    (r, {| succeedAfter := succeedAfter c; failCount := failCount c; captured := cap |}).

(** ** Runs of registry mutations *)

(** The operations that publish snapshots. *)
Inductive mutation :=
| m_collect (thr : Level) (bufsize : Z) (c : option Collector)
| m_SetLevel (thr : Level) (c : Collector)
| m_SetFrames (fr efr : Z)
| m_setDegraded (c : Collector) (d : bool)
| m_dispose (c : Collector)
| m_Close.

(** The four mutations of the registry proper. *)
Definition registry_mutation (m : mutation) : bool :=
  match m with
  | m_collect _ _ _ | m_SetLevel _ _ | m_setDegraded _ _ | m_dispose _ => true
  | m_SetFrames _ _ | m_Close => false
  end.

Definition mutate {S} (m : mutation) : M S unit :=
  match m with
  | m_collect thr bufsize c => collect thr bufsize c
  | m_SetLevel thr c => SetLevel thr c
  | m_SetFrames fr efr => SetFrames fr efr
  | m_setDegraded c d => setDegraded c d
  | m_dispose c => dispose c
  | m_Close => exec terminateAsync in ret tt
  end.

(** The state after the package's init(): [cfg.set(newConfig())]. *)
Definition initial {S} (s : S) : world S :=
  {| published := newConfig; sending := 0; workersMade := 1%positive;
     collectors := s |}.

Fixpoint mutations {S} (ms : list mutation) : M S unit :=
  match ms with
  | [] => ret tt
  | m :: ms => exec mutate m in mutations ms
  end.

(** The Send calls among [t] that are made on the worker of the entry
    registered under [c]. *)
Definition is_Send_to (c : Collector) (x : call) : bool :=
  match x with
  | worker_Send c' _ _ => bool_decide (c' = c)
  | _ => false
  end.

Definition Sends_to (c : Collector) (t : list call) : list call :=
  List.filter (is_Send_to c) t.

(** The levels of the events that the logging methods make. *)
Definition severity (l : Level) : Prop :=
  l = FATAL ∨ l = ERROR ∨ l = WARN ∨ l = INFO ∨ l = DEBUG.

(** ** Shapes of a run of attempts *)

(** The outcomes of attempts that all return an error. *)
Definition failures (errs : list string) : list outcome :=
  (λ e, Returns (Some e)) <$> errs.

(** The error a loop of attempts returns when every attempt fails: the one
    it held already, or else the first of the attempts. *)
Definition first_error (held : error) (errs : list string) : error :=
  match held with
  | Some _ => held
  | None => head errs
  end.

(** How a loop of at most [n] attempts can go, and what it gives: all [n]
    attempts fail; or fewer than [n] fail and the next one succeeds, or
    panics, and is the last. *)
Inductive attempts (n : nat) (held : error) : list outcome → outcome → Prop :=
| attempts_all_fail (errs : list string) :
    length errs = n →
    attempts n held (failures errs) (Returns (first_error held errs))
| attempts_succeed (errs : list string) :
    (length errs < n)%nat →
    attempts n held (failures errs ++ [Returns None]) (Returns None)
| attempts_panic (errs : list string) (cause : string) :
    (length errs < n)%nat →
    attempts n held (failures errs ++ [Panics cause]) (Panics cause).

(** ** The notifications of the degradation controller *)

(** The FATAL event that recoverCollector reports for a panic of [c]. *)
Definition panic_event (Sprintf : string → list value → string) (c : Collector)
    (cause : string) : Event :=
  {| ev_Level := FATAL; ev_Context := context internalLogger; ev_Error := Some cause;
     ev_Message :=
       Sprintf "Recovered from collector panic. Collector has been disposed: %s"
               [V_collector c] |}.

(** The ERROR event that handleDegradation logs on entry. *)
Definition degraded_event (Sprintf : string → list value → string) (c : Collector)
    (err : error) (drops : Z) : Event :=
  newEventf Sprintf
    (context (logger_WithFields internalLogger [("drops", V_int drops)]))
    ERROR err "Collector has entered a degraded state: %s" [V_collector c].

(** The WARN event that handleDegradation logs after the recovery. *)
Definition recovered_event (Sprintf : string → list value → string) (c : Collector)
    : Event :=
  newEventf Sprintf (context internalLogger) WARN None
    "Collector has recovered from a degraded stated: %s" [V_collector c].

Definition is_Sleep (x : call) : bool :=
  match x with time_Sleep _ => true | _ => false end.

Definition is_Collect (x : call) : bool :=
  match x with Collect_call _ _ _ => true | _ => false end.

(** ** Worker identities *)

(** The identity of the worker object behind a worker interface value. *)
Definition worker_ref (wk : worker) : positive :=
  match wk with syncWorkerRef r | asyncWorkerRef r => r end.

(** Every worker held by the registry was made before now, and no two
    entries hold the same worker object. *)
Definition workers_fresh {S} (w : world S) : Prop :=
  (∀ c e, registry (published w) !! c = Some e →
          (worker_ref (entry_worker e) < workersMade w)%positive) ∧
  (∀ c1 c2 e1 e2, registry (published w) !! c1 = Some e1 →
                  registry (published w) !! c2 = Some e2 →
                  worker_ref (entry_worker e1) = worker_ref (entry_worker e2) → c1 = c2).

(** ** The logging methods (logger.go) *)

Definition logger_EnabledFor {S} (l : logger) (level : Level) : M S bool :=
  let* config := cfg_get in
  ret (level <=? cfg_threshold config)%N.

Definition logger_Debug {S} (l : logger) (message : string) : M S unit :=
  send l DEBUG None message.

Definition logger_Info {S} (l : logger) (message : string) : M S unit :=
  send l INFO None message.

Definition logger_Warn {S} (l : logger) (message : string) : M S unit :=
  send l WARN None message.

Definition logger_Debugf {S} (Sprintf : string → list value → string) (l : logger)
    (format : string) (values : list value) : M S unit :=
  sendf Sprintf l DEBUG None format values.

Definition logger_Infof {S} (Sprintf : string → list value → string) (l : logger)
    (format : string) (values : list value) : M S unit :=
  sendf Sprintf l INFO None format values.

(** sendPanic: the event is dispatched when FATAL is within the threshold,
    and doPanic(cause) is called either way; the result is the value the
    call panics with.  As in sendRecovery a cause is modelled by what it
    prints. *)
Definition sendPanic {S} (l : logger) (cause : string) (message : string) : M S string :=
  let* config := cfg_get in
  if (cfg_threshold config <? FATAL)%N then ret cause
  else
    let event := newEvent (context l) FATAL None message in
    let event := {| ev_Level := ev_Level event; ev_Context := ev_Context event;
                    ev_Error := Some cause; ev_Message := ev_Message event |} in
    exec dispatchEvent event in
    ret cause.

Definition sendPanicf {S} (Sprintf : string → list value → string) (l : logger)
    (cause : string) (format : string) (values : list value) : M S string :=
  let* config := cfg_get in
  if (cfg_threshold config <? FATAL)%N then ret cause
  else
    let event := newEventf Sprintf (context l) FATAL None format values in
    let event := {| ev_Level := ev_Level event; ev_Context := ev_Context event;
                    ev_Error := Some cause; ev_Message := ev_Message event |} in
    exec dispatchEvent event in
    ret cause.

(** Panic and Panicf: nothing for a nil cause; otherwise the call does not
    return, and the result is the value it panics with. *)
Definition logger_Panic {S} (l : logger) (cause : option string) (message : string)
    : M S (option string) :=
  match cause with
  | None => ret None
  | Some cause => let* p := sendPanic l cause message in ret (Some p)
  end.

Definition logger_Panicf {S} (Sprintf : string → list value → string) (l : logger)
    (cause : option string) (format : string) (values : list value)
    : M S (option string) :=
  match cause with
  | None => ret None
  | Some cause => let* p := sendPanicf Sprintf l cause format values in ret (Some p)
  end.

(** Recover, called by a defer: [recovered] is what recover() returns and
    [ourPanic] what ourPanic() answers. *)
Definition logger_Recover {S} (l : logger) (ourPanic : bool) (recovered : option string)
    (message : string) : M S unit :=
  match recovered with
  | None => ret tt
  | Some cause => if ourPanic then ret tt else sendRecovery l cause message
  end.

(** A call of one of the logging methods of a logger. *)
Inductive logcall :=
| call_Debug (message : string)
| call_Debugf (format : string) (values : list value)
| call_Info (message : string)
| call_Infof (format : string) (values : list value)
| call_Warn (message : string)
| call_Warnf (format : string) (values : list value)
| call_Error (err : error) (message : string)
| call_Errorf (err : error) (format : string) (values : list value)
| call_Panic (cause : option string) (message : string)
| call_Panicf (cause : option string) (format : string) (values : list value)
| call_Recover (ourPanic : bool) (recovered : option string) (message : string)
| call_ReportRecovery (ourPanic : bool) (cause : option string) (message : string).

(** The call; the result is the value it panics with, if it does. *)
Definition logger_call {S} (Sprintf : string → list value → string) (l : logger)
    (lc : logcall) : M S (option string) :=
  match lc with
  | call_Debug message => exec logger_Debug l message in ret None
  | call_Debugf format values => exec logger_Debugf Sprintf l format values in ret None
  | call_Info message => exec logger_Info l message in ret None
  | call_Infof format values => exec logger_Infof Sprintf l format values in ret None
  | call_Warn message => exec logger_Warn l message in ret None
  | call_Warnf format values => exec logger_Warnf Sprintf l format values in ret None
  | call_Error err message => exec logger_Error l err message in ret None
  | call_Errorf err format values =>
      exec logger_Errorf Sprintf l err format values in ret None
  | call_Panic cause message => logger_Panic l cause message
  | call_Panicf cause format values => logger_Panicf Sprintf l cause format values
  | call_Recover ourPanic recovered message =>
      exec logger_Recover l ourPanic recovered message in ret None
  | call_ReportRecovery ourPanic cause message =>
      exec logger_ReportRecovery l ourPanic cause message in ret None
  end.

(** How a logging call has gone: the state is as before (the send counter
    provided it is not at its greatest value), and what was called is
    nothing, or the Send calls of the dispatch of one event of a level from
    FATAL to DEBUG that carries the logger's context. *)
Definition logged {S A} (l : logger) (w : world S) (r : A * world S * list call) : Prop :=
  published (world_of r) = published w ∧
  workersMade (world_of r) = workersMade w ∧
  collectors (world_of r) = collectors w ∧
  (-2 ^ 31 <= sending w < 2 ^ 31 - 1 → world_of r = w) ∧
  (calls_of r = [] ∨
   ∃ ev, severity (ev_Level ev) ∧ ev_Context ev = context l ∧
         (ev_Level ev <= cfg_threshold (published w))%N ∧
         calls_of r = dispatchEvent_sends (registry (published w)) ev).

(** ** The workers in use (worker source) *)

(** Sends made one after the other on an asynchronous worker. *)
Fixpoint asyncWorker_Sends (w : asyncWorker) (es : list Event) : sent :=
  match es with
  | [] => send_returns w
  | e :: es =>
      match asyncWorker_Send w e with
      | send_returns w' => asyncWorker_Sends w' es
      | send_panics => send_panics
      end
  end.

Definition with_queue (w : asyncWorker) (q : option chan) : asyncWorker :=
  {| aw_drops := aw_drops w; aw_collector := aw_collector w; aw_queue := q;
     aw_lastdrops := aw_lastdrops w |}.

(** close(w.queue): a panic ([None]) for the nil channel and for a channel
    that is closed already. *)
Definition close_queue (w : asyncWorker) : option asyncWorker :=
  match aw_queue w with
  | None => None
  | Some q =>
      if ch_closed q then None
      else Some (with_queue w (Some {| ch_buf := ch_buf q; ch_cap := ch_cap q;
                                       ch_closed := true |}))
  end.

Section WorkerLoops.
Variable Sprintf : string → list value → string.
Context {S : Type}.
Variable Collect : Collector → Event → S → outcome * S.
Variable Closer : Collector → option (S → error * S).
Variable oor : Z.
Variable fuel : nat.
Variable startTime : Z.

(** Sends made one after the other on a synchronous worker. *)
Fixpoint syncWorker_Sends (w : syncWorker) (es : list Event) : M S syncWorker :=
  match es with
  | [] => ret w
  | e :: es =>
      let* w := syncWorker_Send Sprintf Collect oor fuel startTime w e in
      syncWorker_Sends w es
  end.

(** One iteration of asyncWorker.run in which the select takes the queue
    case: the receive yields the oldest queued event, or nil from a closed
    and empty queue; from an open and empty queue (or the nil channel)
    nothing is received and the case is not ready ([None]). *)
Definition asyncWorker_run_queue (w : asyncWorker) : M S (option asyncWorker) :=
  match aw_queue w with
  | None => ret None
  | Some q =>
      match ch_buf q with
      | event :: rest =>
          let w := with_queue w (Some {| ch_buf := rest; ch_cap := ch_cap q;
                                         ch_closed := ch_closed q |}) in
          let* w := asyncWorker_handleDrops Sprintf Collect oor fuel startTime w in
          let* w := asyncWorker_sendEvent Sprintf Collect oor fuel startTime w event in
          ret (Some w)
      | [] =>
          if ch_closed q
          then let* w := asyncWorker_handleDrops Sprintf Collect oor fuel startTime w in
               ret (Some w)
          else ret None
      end
  end.

(** The range loop of cleanup over the events [es] that the closed queue
    still holds. *)
Fixpoint asyncWorker_drain (w : asyncWorker) (q : chan) (es : list Event)
    : M S asyncWorker :=
  match es with
  | [] => ret w
  | event :: rest =>
      let w := with_queue w (Some {| ch_buf := rest; ch_cap := ch_cap q;
                                     ch_closed := ch_closed q |}) in
      let* w := asyncWorker_sendEvent Sprintf Collect oor fuel startTime w event in
      asyncWorker_drain w q rest
  end.

(** asyncWorker.cleanup, which run calls once the queue is closed. *)
Definition asyncWorker_cleanup (w : asyncWorker) (flush : bool) : M S asyncWorker :=
  let* w := match aw_queue w with
            | Some q => if flush then asyncWorker_drain w q (ch_buf q) else ret w
            | None => ret w
            end in
  exec closeCollector Sprintf Closer (aw_collector w) in
  ret (with_queue w None).

(** asyncWorker.run from the moment Terminate has closed the queue and sent
    the flush flag: both cases of the select are ready, and [k] is the number
    of times the select takes the queue case before it takes the terminate
    case. *)
Fixpoint asyncWorker_run_closed (k : nat) (w : asyncWorker) (flush : bool)
    : M S asyncWorker :=
  match k with
  | O => asyncWorker_cleanup w flush
  | Datatypes.S k' =>
      let* o := asyncWorker_run_queue w in
      match o with
      | Some w' => asyncWorker_run_closed k' w' flush
      | None => asyncWorker_cleanup w flush
      end
  end.

(** asyncWorker.Terminate together with what the loop does until the
    finished channel is closed; [None] is the panic of close(w.queue).
    Terminate waits for the loop: it returns when every sendEvent and
    handleDrops of the loop has returned, which for a collector that keeps
    refusing its probes is never; [Some] is the worker at the return of a
    Terminate that does return. *)
Definition asyncWorker_Terminate (k : nat) (w : asyncWorker) (flush : bool)
    : M S (option asyncWorker) :=
  match close_queue w with
  | None => ret None
  | Some w =>
      let* w := asyncWorker_run_closed k w flush in
      ret (Some w)
  end.
End WorkerLoops.

Arguments syncWorker_Sends Sprintf {S} Collect oor fuel startTime w es.
Arguments asyncWorker_run_queue Sprintf {S} Collect oor fuel startTime w.
Arguments asyncWorker_drain Sprintf {S} Collect oor fuel startTime w q es.
Arguments asyncWorker_cleanup Sprintf {S} Collect Closer oor fuel startTime w flush.
Arguments asyncWorker_run_closed Sprintf {S} Collect Closer oor fuel startTime k w flush.
Arguments asyncWorker_Terminate Sprintf {S} Collect Closer oor fuel startTime k w flush.

(** A collector whose Collect always returns nil. *)
Definition healthy {S} (Collect : Collector → Event → S → outcome * S) (c : Collector)
    : Prop :=
  ∀ event s, fst (Collect c event s) = Returns None.

(** The Collect calls among the calls made. *)
Definition Collect_calls (t : list call) : list call := List.filter is_Collect t.

(** The delivery of one event by a collector that accepts it. *)
Definition delivered (c : Collector) (event : Event) : call :=
  Collect_call c event (Returns None).

(** ** The turns of the recovery loop *)

(** The event that ensureErrorSent offers to the collector at its
    [attempt]-th turn. *)
Definition probe_event (Sprintf : string → list value → string) (c : Collector)
    (err : error) (drops startTime attempt : Z) : Event :=
  newEventf Sprintf
    (WithFields internalContext [("attempts", V_int attempt); ("drops", V_int drops)])
    ERROR err
    "The current collector, %s, has been in a degraded state since %s.  Delivery of this message has been attempted %d times"
    [V_collector c; V_time startTime; V_int attempt].

(** The calls of the turns from turn [i] on, one turn for each outcome of a
    probe: the sleep, then the probe. *)
Fixpoint probe_rounds (Sprintf : string → list value → string) (oor : Z) (c : Collector)
    (err : error) (drops startTime : Z) (i : Z) (outs : list outcome) : list call :=
  match outs with
  | [] => []
  | o :: outs =>
      time_Sleep (backoff oor i)
      :: Collect_call c (probe_event Sprintf c err drops startTime i) o
      :: probe_rounds Sprintf oor c err drops startTime (i + 1) outs
  end.

(** ** Contexts (context.go) *)

Module context_go.

(** The kinds of reflect that basicValue tells apart. *)
Inductive int_kind := Int | Int8 | Int16 | Int32 | Int64.
Inductive uint_kind := Uint | Uint8 | Uint16 | Uint32 | Uint64 | Uintptr.
Inductive float_kind := Float32 | Float64.
Inductive complex_kind := Complex64 | Complex128.

(** A Go value with its dynamic type, as reflection sees it: a value of a
    basic kind, a pointer (nil or not, of a type that implements
    fmt.Stringer or error or of one that does not), or a value of another
    kind (slice, array, map, struct, ...), held by identity.  Floating-point
    values are held by their bits.  Pointer chains are finite. *)
Inductive tvalue :=
| T_bool (b : bool)
| T_string (s : string)
| T_int (k : int_kind) (z : Z)
| T_uint (k : uint_kind) (z : Z)
| T_float (k : float_kind) (bits : Z)
| T_complex (k : complex_kind) (re im : Z)
| T_nilptr (implements : bool)
| T_ptr (implements : bool) (target : tvalue)
| T_other (id : positive).

(** An interface{} value; [None] is nil. *)
Definition interface := option tvalue.

(** Fields is map[string]interface{}. *)
Definition Fields := gmap string interface.

(** The pairs of a context: a linked list from the newest pair to the
    oldest; [[]] is the nil pointer emptyPairs. *)
Definition pairs := list (string * interface).

Record context := mkContext {
  name : string;
  ctx_pairs : pairs
}.

Definition is_basic (v : interface) : bool :=
  match v with
  | Some (T_bool _ | T_string _ | T_int _ _ | T_uint _ _ | T_float _ _ | T_complex _ _ _) =>
      true
  | _ => false
  end.

Section Sprint.
(** fmt.Sprint of one value. *)
Variable Sprint : interface → string.

(** The loop of basicValue that follows pointers. *)
Fixpoint basicValue_deref (rval : tvalue) : tvalue :=
  match rval with
  | T_ptr false target => basicValue_deref target
  | _ => rval
  end.

Definition basicValue (value : interface) : interface :=
  match value with
  | None => Some (T_string (Sprint value))
  | Some rval =>
      let rval := basicValue_deref rval in
      match rval with
      | T_bool _ | T_string _ => Some rval
      | T_int _ _ => Some rval
      | T_uint _ _ => Some rval
      | T_float _ _ | T_complex _ _ _ => Some rval
      | _ => Some (T_string (Sprint (Some rval)))
      end
  end.

Definition append (p : pairs) (key : string) (value : interface) : pairs :=
  (key, value) :: p.

(** pairs.each; the callback works on the state [A] of the variables it
    has captured. *)
Fixpoint each {A} (p : pairs) (fn : string → interface → A → A) (a : A) : A :=
  match p with
  | [] => a
  | (key, value) :: prev => each prev fn (fn key value a)
  end.

(** The loop of pairs.count from the node [p] on. *)
Fixpoint count_from (p : pairs) (count : Z) : Z :=
  match p with
  | [] => count
  | _ :: prev => count_from prev (count + 1)
  end.

Definition count (p : pairs) : Z := count_from p 0.

Fixpoint toFields (p : pairs) : Fields :=
  match p with
  | [] => ∅
  | (key, value) :: prev => <[key := value]> (toFields prev)
  end.

Definition NewContext (name : string) : context :=
  {| name := name; ctx_pairs := [] |}.

Definition Name (c : context) : string := name c.

Definition NumValues (c : context) : Z := count (ctx_pairs c).

Definition Each {A} (c : context) (fn : string → interface → A → A) (a : A) : A :=
  each (ctx_pairs c) fn a.

Definition context_Fields (c : context) : Fields := toFields (ctx_pairs c).

Definition WithValue (c : context) (key : string) (value : interface) : context :=
  if String.eqb key "" then c
  else {| name := name c; ctx_pairs := append (ctx_pairs c) key (basicValue value) |}.

(** The loop of WithFields over the keys and values in the order [order]
    in which the map iteration happens to yield them. *)
Definition WithFields_over (c : context) (order : list (string * interface)) : context :=
  fold_left (λ new kv, WithValue new (fst kv) (snd kv)) order c.

Definition WithFields (c : context) (fields : Fields) : context :=
  WithFields_over c (map_to_list fields).

(** JoinContext over contexts of the package's own type; [None] is a nil
    Context. *)
Definition JoinContext (name : string) (contexts : list (option context)) : context :=
  fold_left
    (λ joined context,
       match context with
       | None => joined
       | Some c => Each c (λ key value joined, WithValue joined key value) joined
       end)
    contexts (NewContext name).
End Sprint.

(** What the API keeps of every context: no pair has the empty key, and
    every value is of a basic kind. *)
Definition valid (c : context) : Prop :=
  Forall (λ kv, fst kv ≠ "" ∧ is_basic (snd kv) = true) (ctx_pairs c).

(** The pairs of the contexts given to JoinContext, in the order given,
    each context from its newest pair to its oldest. *)
Definition joined_pairs (contexts : list (option context)) : pairs :=
  flat_map (λ oc, match oc with Some c => ctx_pairs c | None => [] end) contexts.

End context_go.

(** ** The goroutine of the degradation notice *)

(** The body of the goroutine that handleDegradation starts for the ERROR
    notice. *)
Definition degradation_notice {S} (Sprintf : string → list value → string)
    (c : Collector) (err : error) (drops : Z) : M S error :=
  logger_Errorf Sprintf (logger_WithFields internalLogger [("drops", V_int drops)]) err
    "Collector has entered a degraded state: %s" [V_collector c].

(** What handleDegradation does after its recovery loop has ended with
    [r]: the flag is cleared and the WARN notice started, or the deferred
    recoverCollector handles the panic of the probe. *)
Definition handleDegradation_end {S} (Sprintf : string → list value → string)
    (c : Collector) (r : ensured) : M S ensured :=
  match r with
  | ensured_sent n =>
      exec setDegraded c false in
      exec logger_Warnf Sprintf internalLogger
             "Collector has recovered from a degraded stated: %s" [V_collector c] in
      ret r
  | ensured_panic cause => exec recoverCollector Sprintf c (Some cause) in ret r
  | ensured_looping => ret r
  end.

(** handleDegradation with a choice of when that goroutine runs: where it
    is started ([late = false], as in handleDegradation), or only when the
    rest of the function has run ([late = true]); nothing in the source
    orders it with the calls that follow the go statement. *)
Definition handleDegradation_sched {S} (Sprintf : string → list value → string)
    (Collect : Collector → Event → S → outcome * S) (oor : Z) (late : bool)
    (fuel : nat) (c : Collector) (err : error) (drops : Z) (startTime : Z) : M S ensured :=
  exec setDegraded c true in
  exec (if late then ret None else degradation_notice Sprintf c err drops) in
  let* r := ensureErrorSent Sprintf Collect oor fuel c err drops startTime 0 in
  let* r := handleDegradation_end Sprintf c r in
  exec (if late then degradation_notice Sprintf c err drops else ret None) in
  ret r.

(** * Properties *)

(** ** Cloning *)

Lemma entry_clone_id (e : entry) : entry_clone e = e.
Proof. by destruct e. Qed.

Lemma clone_id (c : config) : clone c = c.
Proof.
  destruct c as [t f ef reg]. unfold clone; simpl. f_equal.
  rewrite <- (map_fmap_id reg) at 2.
  apply map_fmap_ext. intros i x _. apply entry_clone_id.
Qed.

(** ** The threshold loop *)

Lemma updateThreshold_body_spec (a : Level) (e : entry) :
  let r := updateThreshold_body a e in
  (a <= r)%N ∧ (degraded e = false → (threshold e <= r)%N) ∧
  (r = a ∨ (degraded e = false ∧ threshold e = r)).
Proof.
  unfold updateThreshold_body.
  destruct (N.ltb_spec a (threshold e)), (degraded e); simpl;
    repeat split; auto; try lia; try discriminate.
Qed.

Lemma fold_updateThreshold_spec (es : list entry) (a : Level) :
  let r := fold_left updateThreshold_body es a in
  (a <= r)%N ∧
  (∀ e, e ∈ es → degraded e = false → (threshold e <= r)%N) ∧
  (r = a ∨ ∃ e, e ∈ es ∧ degraded e = false ∧ threshold e = r).
Proof.
  revert a. induction es as [|e es IH]; intros a; simpl.
  - split; [lia|]. split; [|by left]. intros e He. by apply elem_of_nil in He.
  - destruct (IH (updateThreshold_body a e)) as (Hge & Hub & Hatt).
    destruct (updateThreshold_body_spec a e) as (Hge1 & Hub1 & Hatt1).
    split; [lia|]. split.
    + intros e' He' Hd. apply elem_of_cons in He' as [->|He'].
      * specialize (Hub1 Hd). lia.
      * by apply Hub.
    + destruct Hatt as [Heq | (e' & He' & Hd & Ht)].
      * destruct Hatt1 as [Heq1 | [Hd Ht]].
        -- left. congruence.
        -- right. exists e. split; [by left|]. split; [done|]. congruence.
      * right. exists e'. split; [by right|]. done.
Qed.

(** The loop computes the maximum whatever the order of the iteration. *)
Lemma updateThreshold_over_is_max (reg : gmap Collector entry) (es : list entry) :
  es ≡ₚ snd <$> map_to_list reg →
  threshold_is_max reg (updateThreshold_over es).
Proof.
  intros Hp. unfold updateThreshold_over.
  destruct (fold_updateThreshold_spec es OFF) as (_ & Hub & Hatt).
  assert (Hin : ∀ e, e ∈ es ↔ ∃ c, reg !! c = Some e).
  { intros e. rewrite Hp, list_elem_of_fmap. split.
    - intros ([c e'] & -> & Hce). exists c. by apply elem_of_map_to_list in Hce.
    - intros (c & Hc). exists (c, e). split; [done|]. by apply elem_of_map_to_list. }
  split.
  - intros c e Hc Hd. apply Hub; [|done]. apply Hin. eauto.
  - destruct Hatt as [Heq | (e & He & Hd & Ht)].
    + destruct (decide (Exists (λ e, degraded e = false) es)) as [Hex | Hnex].
      * apply Exists_exists in Hex as (e & He & Hd). left.
        apply Hin in He as Hc. destruct Hc as (c & Hc). exists c, e.
        split; [done|]. split; [done|].
        specialize (Hub e He Hd). rewrite Heq in *. unfold OFF in *. lia.
      * right. split; [|done]. intros c e Hc.
        destruct (degraded e) eqn:Hd; [done|]. exfalso. apply Hnex.
        apply Exists_exists. exists e. split; [|done]. apply Hin. eauto.
    + left. apply Hin in He as (c & Hc). exists c, e. done.
Qed.

Lemma updateThreshold_invariant (c : config) :
  threshold_invariant (updateThreshold c).
Proof. unfold threshold_invariant; simpl. by apply updateThreshold_over_is_max. Qed.

Lemma newConfig_invariant : threshold_invariant newConfig.
Proof.
  split; simpl.
  - intros c e Hc. by rewrite lookup_empty in Hc.
  - right. split; [|done]. intros c e Hc. by rewrite lookup_empty in Hc.
Qed.

(** ** Published snapshots *)

Ltac run_M :=
  unfold mutate, collect, SetLevel, SetFrames, setDegraded, dispose, terminateAsync,
    bind, ret, emit, cfg_get, cfg_store, newWorker, calls_of, world_of, result_of;
  cbv beta iota zeta; rewrite ?clone_id; simpl.

Ltac single_call H :=
  repeat (apply elem_of_cons in H as [H|H]; [try discriminate H|]);
  try (by apply elem_of_nil in H).

(** What one mutation publishes: nothing, and the snapshot stays; or one
    snapshot, which is the one in force afterwards and which has the
    threshold recomputed (or, for SetFrames, carried over). *)
Lemma mutate_publishes {S} (m : mutation) (w : world S) :
  let r := mutate m w in
  (published (world_of r) = published w ∧ ∀ new, cfg_set new ∉ calls_of r) ∨
  (∃ new, published (world_of r) = new ∧
          (∀ x, cfg_set x ∈ calls_of r → x = new) ∧
          cfg_set new ∈ calls_of r ∧
          (registry_mutation m = true ∨ threshold_invariant (published w) →
           threshold_invariant new)).
Proof.
  destruct m as [thr bufsize [c|] | thr c | fr efr | c d | c | ]; run_M.
  - destruct (registry (published w) !! c) eqn:Hc; simpl.
    + left. split; [done|]. intros new H. by apply elem_of_nil in H.
    + right. eexists. split; [reflexivity|]. split; [|split].
      * intros x H. single_call H. by injection H.
      * right. left.
      * intros _. apply updateThreshold_invariant.
  - left. split; [done|]. intros new H. by apply elem_of_nil in H.
  - destruct (registry (published w) !! c) eqn:Hc; simpl.
    + right. eexists. split; [reflexivity|]. split; [|split].
      * intros x H. single_call H. by injection H.
      * left.
      * intros _. apply updateThreshold_invariant.
    + left. split; [done|]. intros new H. by apply elem_of_nil in H.
  - right. eexists. split; [reflexivity|]. split; [|split].
    + intros x H. single_call H. by injection H.
    + left.
    + intros [H|H]; [discriminate|]. exact H.
  - destruct (registry (published w) !! c) eqn:Hc; simpl.
    + right. eexists. split; [reflexivity|]. split; [|split].
      * intros x H. single_call H. by injection H.
      * left.
      * intros _. apply updateThreshold_invariant.
    + left. split; [done|]. intros new H. by apply elem_of_nil in H.
  - destruct (registry (published w) !! c) eqn:Hc; simpl.
    + right. eexists. split; [reflexivity|]. split; [|split].
      * intros x H. single_call H. by injection H.
      * left.
      * intros _. apply updateThreshold_invariant.
    + left. split; [done|]. intros new H. by apply elem_of_nil in H.
  - right. exists newConfig. destruct (sending w =? 0); simpl.
    + split; [done|]. split; [|split].
      * intros x H. apply elem_of_cons in H as [H|H]; [by injection H|].
        rewrite app_nil_r in H. unfold terminateWorkers_calls in H.
        apply list_elem_of_fmap in H as (ce & Hce & _). discriminate.
      * left.
      * intros _. apply newConfig_invariant.
    + split; [done|]. split; [|split].
      * intros x H. single_call H. by injection H.
      * left.
      * intros _. apply newConfig_invariant.
Qed.

Lemma mutations_invariant {S} (ms : list mutation) (w : world S) :
  threshold_invariant (published w) →
  threshold_invariant (published (world_of (mutations ms w))) ∧
  ∀ new, cfg_set new ∈ calls_of (mutations ms w) → threshold_invariant new.
Proof.
  revert w. induction ms as [|m ms IH]; intros w Hw.
  - split; [done|]. intros new H. by apply elem_of_nil in H.
  - simpl. unfold bind.
    pose proof (mutate_publishes m w) as Hm. simpl in Hm.
    destruct (mutate m w) as [[u w1] t1] eqn:Em.
    unfold world_of, calls_of in Hm; simpl in Hm.
    assert (Hw1 : threshold_invariant (published w1)).
    { destruct Hm as [[-> _] | (new & <- & _ & _ & Hinv)]; [done|]. apply Hinv. by right. }
    specialize (IH w1 Hw1).
    destruct (mutations ms w1) as [[u2 w2] t2] eqn:Ems.
    unfold world_of, calls_of in *; simpl in *.
    destruct IH as [IH1 IH2]. split; [done|].
    intros new H. apply elem_of_app in H as [H|H]; [|by apply IH2].
    destruct Hm as [[_ Hno] | (new' & <- & Hall & _ & _)].
    + by apply Hno in H.
    + by rewrite (Hall _ H).
Qed.

(** C2. Global threshold invariant: every snapshot published along a run of
    mutations from the initial state (and so the snapshot in force at its
    end) has as threshold the maximum of the thresholds of its non-degraded
    entries, OFF when there is none; and whatever the state, a snapshot
    that collect, SetLevel, setDegraded or dispose publishes has the
    threshold recomputed that way and is the snapshot in force after the
    call. *)
Theorem published_threshold_invariant {S} :
  (∀ (s : S) (ms : list mutation),
     threshold_invariant (published (world_of (mutations ms (initial s)))) ∧
     ∀ new, cfg_set new ∈ calls_of (mutations ms (initial s)) →
            threshold_invariant new) ∧
  (∀ (w : world S) (m : mutation) (new : config),
     registry_mutation m = true →
     cfg_set new ∈ calls_of (mutate m w) →
     threshold_invariant new ∧ published (world_of (mutate m w)) = new).
Proof.
  split.
  - intros s ms. apply mutations_invariant. apply newConfig_invariant.
  - intros w m new Hm Hnew.
    destruct (mutate_publishes m w) as [[_ Hno] | (new' & Hpub & Hall & _ & Hinv)].
    + by apply Hno in Hnew.
    + rewrite (Hall _ Hnew). split; [|done]. apply Hinv. by left.
Qed.

(** An instance: the first registration, of collector 1 at DEBUG. *)
Lemma published_threshold_invariant_witness :
  let m := m_collect DEBUG 0 (Some 1%positive) in
  let new := updateThreshold (with_registry newConfig
               {[ 1%positive := mkEntry DEBUG false (syncWorkerRef 1) ]}) in
  registry_mutation m = true ∧
  cfg_set new ∈ calls_of (mutate m (initial tt)) ∧
  threshold_invariant new ∧ published (world_of (mutate m (initial tt))) = new.
Proof.
  intros m new.
  assert (Hm : registry_mutation m = true) by reflexivity.
  assert (Hnew : cfg_set new ∈ calls_of (mutate m (initial tt))).
  { vm_compute. apply list_elem_of_further, list_elem_of_here. }
  split; [exact Hm|]. split; [exact Hnew|].
  exact (proj2 (@published_threshold_invariant unit) (initial tt) m new Hm Hnew).
Defined.

(** ** The dispatcher *)

Lemma dispatchEvent_calls {S} (event : Event) (w : world S) :
  calls_of (dispatchEvent event w) = dispatchEvent_sends (registry (published w)) event.
Proof.
  unfold dispatchEvent, bind, atomic_AddInt32_sending, cfg_get, emit, calls_of; simpl.
  by rewrite app_nil_r.
Qed.

Lemma dispatchEvent_published {S} (event : Event) (w : world S) :
  published (world_of (dispatchEvent event w)) = published w.
Proof. reflexivity. Qed.

Lemma Sends_to_absent (event : Event) (c : Collector) (l : list (Collector * entry)) :
  c ∉ l.*1 → Sends_to c (flat_map (dispatchEvent_body event) l) = [].
Proof.
  induction l as [|[c' e'] l IH]; intros Hc; [done|].
  simpl in *. apply not_elem_of_cons in Hc as [Hne Hc].
  unfold Sends_to in *. rewrite List.filter_app, IH by done.
  unfold dispatchEvent_body; simpl. destruct (accepts e' event); simpl; [|done].
  rewrite bool_decide_eq_false_2; [done|]. congruence.
Qed.

Lemma Sends_to_present (event : Event) (c : Collector) (e : entry)
    (l : list (Collector * entry)) :
  NoDup l.*1 → (c, e) ∈ l →
  Sends_to c (flat_map (dispatchEvent_body event) l) =
  if accepts e event then [worker_Send c (entry_worker e) event] else [].
Proof.
  induction l as [|[c' e'] l IH]; intros Hnd Hin; [by apply elem_of_nil in Hin|].
  simpl in *. apply NoDup_cons in Hnd as [Hc' Hnd].
  unfold Sends_to in *. rewrite List.filter_app.
  apply elem_of_cons in Hin as [Heq|Hin].
  - injection Heq as <- <-.
    fold (Sends_to c (flat_map (dispatchEvent_body event) l)).
    rewrite Sends_to_absent by done.
    rewrite app_nil_r. unfold dispatchEvent_body; simpl.
    destruct (accepts e event); simpl; [|done].
    by rewrite bool_decide_eq_true_2.
  - rewrite IH by done.
    assert (c' ≠ c).
    { intros ->. apply Hc'. apply list_elem_of_fmap. by exists (c, e). }
    unfold dispatchEvent_body at 1; simpl. destruct (accepts e' event); simpl; [|done].
    by rewrite bool_decide_eq_false_2.
Qed.

Lemma dispatchEvent_sends_registered (reg : gmap Collector entry) (event : Event)
    (c : Collector) (e : entry) :
  reg !! c = Some e →
  Sends_to c (dispatchEvent_sends reg event) =
  if accepts e event then [worker_Send c (entry_worker e) event] else [].
Proof.
  intros Hc. unfold dispatchEvent_sends. apply Sends_to_present.
  - apply NoDup_fst_map_to_list.
  - by apply elem_of_map_to_list.
Qed.

Lemma dispatchEvent_sends_elem (reg : gmap Collector entry) (event : Event) (x : call) :
  x ∈ dispatchEvent_sends reg event ↔
  ∃ c e, reg !! c = Some e ∧ accepts e event = true ∧
         x = worker_Send c (entry_worker e) event.
Proof.
  unfold dispatchEvent_sends. rewrite list_elem_of_In, in_flat_map. split.
  - intros ([c e] & Hin & Hx). apply list_elem_of_In, elem_of_map_to_list in Hin.
    unfold dispatchEvent_body in Hx; simpl in Hx.
    destruct (accepts e event) eqn:Ha; [|done].
    destruct Hx as [<-|[]]. by exists c, e.
  - intros (c & e & Hc & Ha & ->). exists (c, e). split.
    + by apply list_elem_of_In, elem_of_map_to_list.
    + unfold dispatchEvent_body; simpl. rewrite Ha. by left.
Qed.

Lemma accepts_spec (e : entry) (event : Event) :
  accepts e event = true ↔ (ev_Level event <= threshold e)%N ∧ degraded e = false.
Proof.
  unfold accepts. rewrite andb_true_iff, N.leb_le, negb_true_iff. done.
Qed.

Lemma dispatchEvent_sends_below (reg : gmap Collector entry) (t : Level) (event : Event) :
  threshold_is_max reg t → (t < ev_Level event)%N →
  dispatchEvent_sends reg event = [].
Proof.
  intros [Hub _] Hlt.
  destruct (dispatchEvent_sends reg event) as [|x l] eqn:E; [done|].
  assert (Hx : x ∈ dispatchEvent_sends reg event) by (rewrite E; left).
  apply dispatchEvent_sends_elem in Hx as (c & e & Hc & Ha & _).
  apply accepts_spec in Ha as [Hle Hd]. specialize (Hub c e Hc Hd). lia.
Qed.

(** Under the threshold invariant the fast rejection of send changes
    nothing: the calls are those of the dispatch of the event. *)
Lemma send_calls {S} (l : logger) (level : Level) (err : error) (message : string)
    (w : world S) :
  threshold_invariant (published w) →
  calls_of (send l level err message w) =
  dispatchEvent_sends (registry (published w)) (newEvent (context l) level err message) ∧
  published (world_of (send l level err message w)) = published w.
Proof.
  intros Hinv. unfold send, bind, cfg_get; simpl.
  destruct (N.ltb_spec (cfg_threshold (published w)) level) as [Hlt|Hge]; simpl.
  - split; [|done]. symmetry. by eapply dispatchEvent_sends_below.
  - unfold calls_of, world_of; simpl. by rewrite app_nil_r.
Qed.

Lemma sendf_calls {S} (Sprintf : string → list value → string) (l : logger)
    (level : Level) (err : error) (format : string) (values : list value) (w : world S) :
  threshold_invariant (published w) →
  calls_of (sendf Sprintf l level err format values w) =
  dispatchEvent_sends (registry (published w))
    (newEventf Sprintf (context l) level err format values) ∧
  published (world_of (sendf Sprintf l level err format values w)) = published w.
Proof.
  intros Hinv. unfold sendf, bind, cfg_get; simpl.
  destruct (N.ltb_spec (cfg_threshold (published w)) level) as [Hlt|Hge]; simpl.
  - split; [|done]. symmetry. by eapply dispatchEvent_sends_below.
  - unfold calls_of, world_of; simpl. by rewrite app_nil_r.
Qed.



(** ** SetFrames *)

(** C9. Frame effect of SetFrames: it publishes one snapshot, which has the
    two frame counts given and otherwise the threshold and the registry
    (every entry with its threshold, degraded flag and worker) of the
    snapshot before; nothing else of the state changes. *)
Theorem SetFrames_frame {S} (fr efr : Z) (w : world S) :
  let r := SetFrames fr efr w in
  let new := published (world_of r) in
  calls_of r = [cfg_set new] ∧
  frames new = fr ∧ errorFrames new = efr ∧
  cfg_threshold new = cfg_threshold (published w) ∧
  registry new = registry (published w) ∧
  (∀ c, registry new !! c = registry (published w) !! c) ∧
  sending (world_of r) = sending w ∧
  workersMade (world_of r) = workersMade w ∧
  collectors (world_of r) = collectors w.
Proof.
  run_M. repeat split; reflexivity.
Qed.

(** ** Backoff *)

Lemma wrap_int64_id (z : Z) : -2 ^ 63 <= z < 2 ^ 63 → wrap_int64 z = z.
Proof. intros H. unfold wrap_int64. rewrite Z.mod_small; lia. Qed.

(** Up to 2^43 ms the product fits an int64 and the delay is the one of the
    formula. *)
Lemma backoff_small (oor attempt : Z) :
  1 <= attempt <= 43 → backoff oor attempt = backoff_spec attempt.
Proof.
  intros H. unfold backoff, backoff_spec, math_Pow2.
  destruct (Z.leb_spec 1024 attempt); [lia|].
  destruct (Z.ltb_spec attempt (-1074)); [lia|]. simpl.
  destruct (Z.ltb_spec attempt 0); [lia|].
  destruct (Z.leb_spec attempt 62); [|lia].
  assert (Hp : 0 < 2 ^ attempt <= 2 ^ 43).
  { split; [apply Z.pow_pos_nonneg; lia|apply Z.pow_le_mono_r; lia]. }
  rewrite wrap_int64_id by (unfold Millisecond; lia).
  unfold Millisecond, maxDelay, Minute in *.
  destruct (Z.gtb_spec (1000000 * 2 ^ attempt) (5 * (60 * 1000000000))); lia.
Qed.

Lemma backoff_overflow_to_inf (oor attempt : Z) :
  1024 <= attempt → backoff oor attempt = maxDelay.
Proof.
  intros H. unfold backoff, math_Pow2.
  destruct (Z.leb_spec 1024 attempt); [done|lia].
Qed.

(** The delay never exceeds the ceiling. *)
Lemma backoff_le_maxDelay (oor attempt : Z) : backoff oor attempt <= maxDelay.
Proof.
  unfold backoff.
  destruct (math_IsNaN _ || math_IsInf _ 1 || math_IsInf _ (-1)); [lia|].
  destruct (Z.gtb_spec (wrap_int64 (Millisecond * Duration_of_float64 oor (math_Pow2 attempt)))
                       maxDelay); lia.
Qed.

(** C8. Backoff formula, at attempt 44: 2^44 ms is 17592186044416000000 ns,
    which is beyond int64; the product wraps to a negative duration, which
    the comparison with the ceiling lets through, where the formula gives
    the ceiling of 5 minutes.  From attempt 58 on (to 62) the product wraps
    to 0. *)
Theorem backoff_44_wraps (oor : Z) :
  backoff oor 44 = -854558029293551616 ∧
  backoff_spec 44 = maxDelay ∧
  backoff oor 44 ≠ backoff_spec 44 ∧
  backoff oor 58 = 0 ∧ backoff_spec 58 = maxDelay.
Proof. repeat split; vm_compute; congruence. Qed.

(** ** Error and Errorf *)

(** C10. Pass-through of Error and Errorf: for a non-nil error [e] both
    return [e], having dispatched an ERROR event that carries [e] (the Send
    calls are those of the dispatch of that event over the registry in
    force, and nothing else is called); for nil both return nil, call
    nothing and leave the state as it is. *)
Theorem logger_Error_passthrough {S} (Sprintf : string → list value → string)
    (l : logger) (err : error) (message format : string) (values : list value)
    (w : world S) :
  threshold_invariant (published w) →
  result_of (logger_Error l err message w) = err ∧
  result_of (logger_Errorf Sprintf l err format values w) = err ∧
  match err with
  | Some e =>
      calls_of (logger_Error l err message w) =
        dispatchEvent_sends (registry (published w))
          {| ev_Level := ERROR; ev_Context := context l; ev_Error := Some e;
             ev_Message := message |} ∧
      calls_of (logger_Errorf Sprintf l err format values w) =
        dispatchEvent_sends (registry (published w))
          {| ev_Level := ERROR; ev_Context := context l; ev_Error := Some e;
             ev_Message := Sprintf format values |}
  | None =>
      calls_of (logger_Error l err message w) = [] ∧
      calls_of (logger_Errorf Sprintf l err format values w) = [] ∧
      world_of (logger_Error l err message w) = w ∧
      world_of (logger_Errorf Sprintf l err format values w) = w
  end.
Proof.
  intros Hinv. destruct err as [e|]; [|done].
  destruct (send_calls l ERROR (Some e) message w Hinv) as [Hs _].
  destruct (sendf_calls Sprintf l ERROR (Some e) format values w Hinv) as [Hf _].
  unfold logger_Error, logger_Errorf, bind, ret, result_of, calls_of in *.
  destruct (send l ERROR (Some e) message w) as [[u1 w1] t1].
  destruct (sendf Sprintf l ERROR (Some e) format values w) as [[u2 w2] t2].
  simpl in *. rewrite !app_nil_r. subst. done.
Qed.

(** An instance: Error with one collector registered at ERROR. *)
Lemma logger_Error_passthrough_witness :
  let w := mkWorld (updateThreshold (with_registry newConfig
             {[ 1%positive := mkEntry ERROR false (syncWorkerRef 1) ]})) 0 2%positive tt in
  let l := NewLogger "test" in
  threshold_invariant (published w) ∧
  result_of (logger_Error l (Some "boom") "failed" w) = Some "boom" ∧
  calls_of (logger_Error l (Some "boom") "failed" w) =
    [worker_Send 1%positive (syncWorkerRef 1)
       (mkEvent ERROR (NewContext "test") (Some "boom") "failed")].
Proof.
  intros w l.
  assert (H : threshold_invariant (published w)) by apply updateThreshold_invariant.
  split; [exact H|].
  pose proof (logger_Error_passthrough (λ f _, f) l (Some "boom") "failed" "" [] w H)
    as (Hr & _ & Hc & _).
  split; [exact Hr|]. rewrite Hc. reflexivity.
Defined.

(** ** The asynchronous Send *)

(** C4. Asynchronous Send on a worker whose queue is open: the call returns
    (it has no result and no error to report, and nothing in it waits); with
    free space in the queue the event is appended to the queue and nothing
    else changes; with a full queue the event is not queued, the drop
    counter (a uint64) goes up by exactly one and nothing else changes. *)
Theorem asyncWorker_Send_enqueue_or_drop (w : asyncWorker) (q : chan) (e : Event) :
  aw_queue w = Some q → ch_closed q = false →
  ∃ w', asyncWorker_Send w e = send_returns w' ∧
        aw_collector w' = aw_collector w ∧ aw_lastdrops w' = aw_lastdrops w ∧
        (Z.of_nat (length (ch_buf q)) < ch_cap q →
           aw_queue w' = Some (mkChan (ch_buf q ++ [e]) (ch_cap q) false) ∧
           aw_drops w' = aw_drops w) ∧
        (ch_cap q <= Z.of_nat (length (ch_buf q)) →
           aw_queue w' = Some q ∧
           aw_drops w' = wrap_uint64 (aw_drops w + 1) ∧
           (0 <= aw_drops w < 2 ^ 64 - 1 → aw_drops w' = aw_drops w + 1)).
Proof.
  intros Hq Hopen. unfold asyncWorker_Send. rewrite Hq, Hopen.
  destruct (Z.ltb_spec (Z.of_nat (length (ch_buf q))) (ch_cap q)) as [Hfree|Hfull].
  - eexists. split; [reflexivity|]. simpl. repeat split; try lia.
  - eexists. split; [reflexivity|]. simpl. repeat split; try lia; try done.
    intros Hr. unfold wrap_uint64. rewrite Z.mod_small; lia.
Qed.

(** An instance: a second event sent to a full queue of capacity 1. *)
Lemma asyncWorker_Send_enqueue_or_drop_witness :
  let e1 := mkEvent DEBUG (NewContext "test") None "first" in
  let e2 := mkEvent DEBUG (NewContext "test") None "second" in
  let q := mkChan [e1] 1 false in
  let w := mkAsyncWorker 0 1%positive (Some q) 0 in
  aw_queue w = Some q ∧ ch_closed q = false ∧
  ∃ w', asyncWorker_Send w e2 = send_returns w' ∧
        aw_queue w' = Some q ∧ aw_drops w' = 1.
Proof.
  intros e1 e2 q w.
  assert (Hq : aw_queue w = Some q) by reflexivity.
  assert (Ho : ch_closed q = false) by reflexivity.
  split; [exact Hq|]. split; [exact Ho|].
  destruct (asyncWorker_Send_enqueue_or_drop w q e2 Hq Ho)
    as (w' & Hs & _ & _ & _ & Hfull).
  exists w'. split; [exact Hs|].
  destruct Hfull as (Hqueue & _ & Hdrops); [simpl; lia|].
  split; [exact Hqueue|]. apply Hdrops. simpl. lia.
Defined.

(** ** The retry helper *)

Lemma sendWithRetries_loop_attempts {S} (Collect : Collector → Event → S → outcome * S)
    (n : nat) (c : Collector) (event : Event) (held : error) (w : world S) :
  let r := sendWithRetries_loop Collect n c event held w in
  ∃ outs, calls_of r = Collect_call c event <$> outs ∧
          attempts n held outs (result_of r) ∧
          published (world_of r) = published w ∧
          sending (world_of r) = sending w ∧
          workersMade (world_of r) = workersMade w.
Proof.
  revert held w. induction n as [|n IH]; intros held w; simpl.
  - exists []. split; [done|]. split; [|done].
    unfold ret, result_of; simpl.
    replace held with (first_error held []) at 2 by (by destruct held).
    by apply (attempts_all_fail 0 held []).
  - unfold bind, call_Collect.
    destruct (Collect c event (collectors w)) as [[[e|]|cause] s] eqn:EC; simpl.
    + set (w1 := mkWorld (published w) (sending w) (workersMade w) s).
      set (held1 := match held with Some _ => held | None => Some e end).
      destruct (IH held1 w1) as (outs & Hc & Ha & Hp & Hs & Hw).
      destruct (sendWithRetries_loop Collect n c event held1 w1) as [[r w2] t].
      unfold calls_of, result_of, world_of in *; simpl in *. subst t.
      exists (Returns (Some e) :: outs). split; [done|]. split; [|done].
      inversion Ha as [errs Hl Ho Hr | errs Hl Ho Hr | errs cause Hl Ho Hr]; subst.
      * replace (first_error held1 errs) with (first_error held (e :: errs))
          by (subst held1; by destruct held).
        apply (attempts_all_fail _ held (e :: errs)). by simpl.
      * apply (attempts_succeed _ held (e :: errs)). simpl. lia.
      * apply (attempts_panic _ held (e :: errs)). simpl. lia.
    + exists [Returns None]. split; [done|]. split; [|done].
      apply (attempts_succeed _ held []). simpl. lia.
    + exists [Panics cause]. split; [done|]. split; [|done].
      apply (attempts_panic _ held [] cause). simpl. lia.
Qed.

(** A failingCollector with [k] failures left lets the loop through after
    [k] failed attempts and hands the event to its capturing collector. *)
Lemma sendWithRetries_loop_failing (Sprintf : string → list value → string)
    (k : nat) (c : Collector) (event : Event) :
  ∀ (n : nat) (held : error) (w : world failingCollector),
    let fc := collectors w in
    succeedAfter fc - failCount fc = Z.of_nat k →
    succeedAfter fc < 2 ^ 63 → -2 ^ 63 <= failCount fc →
    (k < n)%nat →
    let r := sendWithRetries_loop (λ _, failingCollector_Collect Sprintf) n c event held w in
    result_of r = Returns None ∧
    collectors (world_of r) =
      mkFailing (succeedAfter fc) (succeedAfter fc) (captured fc ++ [event]) ∧
    ∃ errs, length errs = k ∧
            calls_of r = Collect_call c event <$> (failures errs ++ [Returns None]).
Proof.
  induction k as [|k IH]; intros n held w fc Hk Hsa Hfc Hn; subst fc;
    (destruct n as [|n]; [lia|]); simpl; unfold bind, call_Collect;
    destruct (failingCollector_Collect Sprintf event (collectors w)) as [o s] eqn:EC;
    unfold failingCollector_Collect in EC;
    destruct (collectors w) as [sa f cap] eqn:Ew; simpl in *.
  - destruct (Z.ltb_spec f sa); [lia|]. simpl in EC. injection EC as <- <-.
    unfold result_of, world_of, calls_of; simpl.
    assert (f = sa) as -> by lia. split; [done|]. split; [done|].
    by exists [].
  - destruct (Z.ltb_spec f sa); [|lia]. injection EC as <- <-.
    rewrite (wrap_int64_id (f + 1)) by lia.
    match goal with |- context [sendWithRetries_loop _ n c event ?h ?w1] =>
      destruct (IH n h w1) as (Hr & Hcs & errs & Hl & Hc); simpl; try lia;
      destruct (sendWithRetries_loop (λ _, failingCollector_Collect Sprintf) n c event h w1)
        as [[r w2] t]
    end.
    unfold result_of, world_of, calls_of in *; simpl in *.
    split; [done|]. split; [done|].
    eexists (_ :: errs). split; [simpl; by rewrite Hl|]. rewrite Hc. reflexivity.
Qed.

(** ** Panic recovery *)

Lemma dispose_registered {S} (c : Collector) (e : entry) (w : world S) :
  registry (published w) !! c = Some e →
  let new := updateThreshold (with_registry (published w) (delete c (registry (published w)))) in
  calls_of (dispose c w) = [cfg_set new; worker_Terminate c (entry_worker e) false] ∧
  world_of (dispose c w) = mkWorld new (sending w) (workersMade w) (collectors w).
Proof. intros Hc. run_M. rewrite Hc. done. Qed.

Lemma dispose_unregistered {S} (c : Collector) (w : world S) :
  registry (published w) !! c = None →
  calls_of (dispose c w) = [] ∧ world_of (dispose c w) = w.
Proof. intros Hc. run_M. rewrite Hc. done. Qed.

Lemma sendRecovery_calls {S} (Sprintf : string → list value → string) (l : logger)
    (cause message : string) (w : world S) :
  threshold_invariant (published w) →
  calls_of (sendRecovery l cause message w) =
    dispatchEvent_sends (registry (published w))
      (mkEvent FATAL (context l) (Some cause) message) ∧
  published (world_of (sendRecovery l cause message w)) = published w.
Proof.
  intros Hinv. unfold sendRecovery, bind, cfg_get; simpl.
  destruct (N.ltb_spec (cfg_threshold (published w)) FATAL) as [Hlt|Hge]; simpl.
  - split; [|done]. symmetry. by eapply dispatchEvent_sends_below.
  - unfold calls_of, world_of; simpl. by rewrite app_nil_r.
Qed.

(** recoverCollector for a registered collector that has panicked: the
    snapshot without it is published, its worker is terminated without a
    flush, and the FATAL event is dispatched over the new registry. *)
Lemma recoverCollector_registered {S} (Sprintf : string → list value → string)
    (c : Collector) (e : entry) (cause : string) (w : world S) :
  registry (published w) !! c = Some e →
  let new := updateThreshold (with_registry (published w) (delete c (registry (published w)))) in
  let r := recoverCollector Sprintf c (Some cause) w in
  calls_of r = [cfg_set new; worker_Terminate c (entry_worker e) false] ++
               dispatchEvent_sends (registry new) (panic_event Sprintf c cause) ∧
  published (world_of r) = new.
Proof.
  intros Hc new r. subst r. unfold recoverCollector, bind.
  destruct (dispose_registered c e w Hc) as [Hcalls Hw]. fold new in Hcalls, Hw.
  destruct (dispose c w) as [[u w1] t1]. unfold calls_of, world_of in *; simpl in *.
  subst t1 w1. unfold logger_ReportRecovery.
  match goal with |- context [sendRecovery ?l ?ca ?m ?w1] =>
    destruct (sendRecovery_calls Sprintf l ca m w1) as [Hs Hp];
      [apply updateThreshold_invariant|];
    destruct (sendRecovery l ca m w1) as [[u2 w2] t2]
  end.
  unfold calls_of, world_of in *; simpl in *. subst t2. done.
Qed.


(** ** The retry policy *)

(** C3. Retry policy.  For a number of retries that is not negative,
    sendWithRetries makes at most retries+1 calls of Collect, all on the
    same collector with the same event, one after the other with no sleep
    in between; it stops at the first attempt that succeeds and returns
    nil, and when all retries+1 attempts fail it returns the error of the
    first; an attempt that panics ends the loop as well.  The workers call
    it with 2 retries, that is 3 attempts.  With a collector that fails
    exactly [retries] times and then succeeds, the helper returns nil after
    retries+1 calls with the same event, and the collector behind it has
    captured that event exactly once. *)
Theorem sendWithRetries_policy (Sprintf : string → list value → string) :
  (∀ (S : Type) (Collect : Collector → Event → S → outcome * S) (c : Collector)
     (event : Event) (retries : Z) (w : world S),
     0 <= retries →
     let r := sendWithRetries Sprintf Collect c event retries w in
     ∃ outs rest,
       calls_of r = (Collect_call c event <$> outs) ++ rest ∧
       Z.of_nat (length outs) <= retries + 1 ∧
       ((∃ errs, outs = failures errs ++ [Returns None] ∧
                 result_of r = None ∧ rest = []) ∨
        (∃ e errs, outs = failures (e :: errs) ∧
                   Z.of_nat (length (e :: errs)) = retries + 1 ∧
                   result_of r = Some e ∧ rest = []) ∨
        (∃ errs cause, outs = failures errs ++ [Panics cause] ∧
                       result_of r = None ∧
                       ∀ x, x ∈ rest → is_Sleep x = false ∧ is_Collect x = false))) ∧
  sendRetries + 1 = 3 ∧
  (∀ (c : Collector) (event : Event) (retries : Z) (w : world failingCollector),
     0 <= retries < 2 ^ 63 →
     collectors w = newFailingCollector retries →
     let r := sendWithRetries Sprintf (λ _, failingCollector_Collect Sprintf)
                c event retries w in
     result_of r = None ∧
     captured (collectors (world_of r)) = [event] ∧
     ∃ errs, Z.of_nat (length errs) = retries ∧
             calls_of r = Collect_call c event <$> (failures errs ++ [Returns None])).
Proof.
  split; [|split; [done|]].
  - intros S Collect c event retries w Hr r. subst r. unfold sendWithRetries, bind.
    destruct (sendWithRetries_loop_attempts Collect (Z.to_nat (retries + 1)) c event None w)
      as (outs & Hc & Ha & Hp & _).
    destruct (sendWithRetries_loop Collect (Z.to_nat (retries + 1)) c event None w)
      as [[o w1] t1].
    unfold calls_of, result_of, world_of in *; simpl in *. subst t1.
    inversion Ha as [errs Hl Ho Hres | errs Hl Ho Hres | errs cause Hl Ho Hres]; subst.
    + destruct errs as [|e errs]; [simpl in Hl; lia|].
      exists (failures (e :: errs)), []. simpl. split; [done|].
      unfold failures. rewrite length_fmap. simpl in *. split; [lia|].
      right. left. exists e, errs. simpl. split; [done|]. split; [lia|]. done.
    + exists (failures errs ++ [Returns None]), []. simpl. split; [done|].
      unfold failures. rewrite length_app, length_fmap. simpl. split; [lia|].
      left. exists errs. done.
    + exists (failures errs ++ [Panics cause]).
      destruct (recoverCollector Sprintf c (Some cause) w1) as [[u w2] t2] eqn:Er.
      exists t2. simpl. rewrite app_nil_r. split; [done|].
      unfold failures. rewrite length_app, length_fmap. simpl. split; [lia|].
      right. right. exists errs, cause. split; [done|]. split; [done|].
      intros x Hx. change t2 with (calls_of (u, w2, t2)) in Hx. rewrite <- Er in Hx.
      destruct (registry (published w1) !! c) as [e|] eqn:Hreg.
      * destruct (recoverCollector_registered Sprintf c e cause w1 Hreg) as [Hcalls _].
        rewrite Hcalls in Hx. simpl in Hx.
        apply elem_of_cons in Hx as [->|Hx]; [done|].
        apply elem_of_cons in Hx as [->|Hx]; [done|].
        apply dispatchEvent_sends_elem in Hx as (c' & e' & _ & _ & ->). done.
      * unfold recoverCollector, bind in Hx.
        destruct (dispose_unregistered c w1 Hreg) as [Hd1 Hd2].
        destruct (dispose c w1) as [[u1 w3] t3].
        unfold calls_of, world_of in *; simpl in *. subst t3 w3. simpl in Hx.
        unfold sendRecovery, bind, cfg_get in Hx; simpl in Hx.
        destruct (cfg_threshold (published w1) <? FATAL)%N; simpl in Hx;
          [by apply elem_of_nil in Hx|].
        rewrite !app_nil_r in Hx.
        apply dispatchEvent_sends_elem in Hx as (c' & e' & _ & _ & ->). done.
  - intros c event retries w Hr Hw r. subst r. unfold sendWithRetries, bind.
    destruct (sendWithRetries_loop_failing Sprintf (Z.to_nat retries) c event
                (Z.to_nat (retries + 1)) None w) as (Hres & Hcs & errs & Hl & Hc);
      try lia; try (rewrite Hw; simpl; lia).
    destruct (sendWithRetries_loop (λ _, failingCollector_Collect Sprintf)
                (Z.to_nat (retries + 1)) c event None w) as [[o w1] t1].
    unfold calls_of, result_of, world_of in *; simpl in *. subst o t1.
    simpl. split; [done|]. split.
    + rewrite Hcs, Hw. done.
    + exists errs. split; [lia|]. by rewrite app_nil_r.
Qed.

(** An instance: the collector of the retry tests, which fails twice. *)
Lemma sendWithRetries_policy_witness :
  let Sprintf : string → list value → string := λ f _, f in
  let event := mkEvent INFO (NewContext "test") None "hello" in
  let w := initial (newFailingCollector sendRetries) in
  let r := sendWithRetries Sprintf (λ _, failingCollector_Collect Sprintf)
             1%positive event sendRetries w in
  0 <= sendRetries < 2 ^ 63 ∧
  collectors w = newFailingCollector sendRetries ∧
  result_of r = None ∧ captured (collectors (world_of r)) = [event].
Proof.
  intros Sprintf event w r.
  assert (Hr : 0 <= sendRetries < 2 ^ 63) by (unfold sendRetries; lia).
  assert (Hw : collectors w = newFailingCollector sendRetries) by reflexivity.
  split; [exact Hr|]. split; [exact Hw|].
  destruct (proj2 (proj2 (sendWithRetries_policy Sprintf)) 1%positive event sendRetries w Hr Hw)
    as (Hres & Hcap & _).
  split; [exact Hres | exact Hcap].
Defined.

(** ** The degradation controller *)

Lemma setDegraded_registered {S} (c : Collector) (d : bool) (e : entry) (w : world S) :
  registry (published w) !! c = Some e →
  let new := updateThreshold (with_registry (published w)
               (<[c := mkEntry (threshold e) d (entry_worker e)]> (registry (published w)))) in
  calls_of (setDegraded c d w) = [cfg_set new] ∧
  world_of (setDegraded c d w) = mkWorld new (sending w) (workersMade w) (collectors w).
Proof. intros Hc. run_M. rewrite Hc. done. Qed.

(** The recovery loop only sleeps and calls the collector; it publishes
    nothing. *)
Lemma ensureErrorSent_frame {S} (Sprintf : string → list value → string)
    (Collect : Collector → Event → S → outcome * S) (oor : Z) (fuel : nat)
    (c : Collector) (err : error) (drops startTime attempt : Z) (w : world S) :
  let p := ensureErrorSent Sprintf Collect oor fuel c err drops startTime attempt w in
  published (world_of p) = published w ∧
  ∀ x, x ∈ calls_of p → is_Sleep x || is_Collect x = true.
Proof.
  revert attempt w. induction fuel as [|fuel IH]; intros attempt w; simpl.
  - split; [done|]. intros x Hx. by apply elem_of_nil in Hx.
  - unfold bind, emit, call_Collect; simpl.
    destruct (Collect c _ (collectors w)) as [[[e|]|cause] s]; simpl.
    + match goal with |- context [ensureErrorSent _ _ _ fuel c err drops startTime ?a ?w1] =>
        destruct (IH a w1) as [Hp Hx];
        destruct (ensureErrorSent Sprintf Collect oor fuel c err drops startTime a w1)
          as [[r w2] t]
      end.
      unfold world_of, calls_of in *; simpl in *. split; [done|].
      intros x H. apply elem_of_cons in H as [->|H]; [done|].
      apply elem_of_cons in H as [->|H]; [done|]. by apply Hx.
    + unfold world_of, calls_of; simpl. split; [done|].
      intros x H. apply elem_of_cons in H as [->|H]; [done|].
      apply elem_of_cons in H as [->|H]; [done|]. by apply elem_of_nil in H.
    + unfold world_of, calls_of; simpl. split; [done|].
      intros x H. apply elem_of_cons in H as [->|H]; [done|].
      apply elem_of_cons in H as [->|H]; [done|]. by apply elem_of_nil in H.
Qed.

(** More fuel does not change how a finished recovery loop ended. *)
Lemma ensureErrorSent_fuel {S} (Sprintf : string → list value → string)
    (Collect : Collector → Event → S → outcome * S) (oor : Z) (fuel : nat)
    (c : Collector) (err : error) (drops startTime attempt : Z) (w : world S) :
  result_of (ensureErrorSent Sprintf Collect oor fuel c err drops startTime attempt w)
    ≠ ensured_looping →
  ∀ more,
    ensureErrorSent Sprintf Collect oor (fuel + more) c err drops startTime attempt w =
    ensureErrorSent Sprintf Collect oor fuel c err drops startTime attempt w.
Proof.
  revert attempt w. induction fuel as [|fuel IH]; intros attempt w Hr more; simpl in *.
  - by destruct Hr.
  - unfold bind, emit, call_Collect in *; simpl in *.
    destruct (Collect c _ (collectors w)) as [[[e|]|cause] s]; simpl in *; try done.
    rewrite IH; [done|].
    match goal with |- context [ensureErrorSent _ _ _ fuel c err drops startTime ?a ?w1] =>
      destruct (ensureErrorSent Sprintf Collect oor fuel c err drops startTime a w1)
        as [[r w2] t]
    end.
    exact Hr.
Qed.

(** A collector that accepts the first probe ends the loop at once. *)
Lemma ensureErrorSent_accepted {S} (Sprintf : string → list value → string)
    (Collect : Collector → Event → S → outcome * S) (oor : Z) (fuel : nat)
    (c : Collector) (err : error) (drops startTime : Z) (w : world S) :
  (∀ event s, Collect c event s = (Returns None, s)) →
  result_of (ensureErrorSent Sprintf Collect oor (Datatypes.S fuel) c err drops startTime 0 w)
    = ensured_sent 1.
Proof.
  intros Hok. simpl. unfold bind, emit, call_Collect; simpl. by rewrite Hok.
Qed.

Lemma logger_Errorf_calls {S} (Sprintf : string → list value → string) (l : logger)
    (err : error) (format : string) (values : list value) (w : world S) :
  threshold_invariant (published w) →
  let r := logger_Errorf Sprintf l err format values w in
  published (world_of r) = published w ∧
  ∀ x, x ∈ calls_of r →
       x ∈ dispatchEvent_sends (registry (published w))
             (newEventf Sprintf (context l) ERROR err format values).
Proof.
  intros Hinv r. subst r. destruct err as [e|]; simpl.
  - destruct (sendf_calls Sprintf l ERROR (Some e) format values w Hinv) as [Hc Hp].
    unfold bind, ret. destruct (sendf Sprintf l ERROR (Some e) format values w) as [[u w1] t].
    unfold calls_of, world_of in *; simpl in *. rewrite app_nil_r. subst t. done.
  - split; [done|]. intros x Hx. by apply elem_of_nil in Hx.
Qed.

(** What handleDegradation has done when its recovery loop has seen the
    probe accepted: the snapshot in force has the collector's flag cleared,
    and the calls end with the publication of that snapshot and the dispatch
    of the WARN event over its registry; before that, the only Send calls
    are those of the ERROR notice, none of them to the collector itself. *)
Lemma handleDegradation_recovered {S} (Sprintf : string → list value → string)
    (Collect : Collector → Event → S → outcome * S) (oor : Z) (fuel : nat)
    (c : Collector) (e : entry) (err : error) (drops startTime : Z) (w : world S)
    (n : Z) :
  registry (published w) !! c = Some e →
  let r := handleDegradation Sprintf Collect oor fuel c err drops startTime w in
  result_of r = ensured_sent n →
  let reg' := <[c := mkEntry (threshold e) false (entry_worker e)]> (registry (published w)) in
  let new := updateThreshold (with_registry (published w) reg') in
  published (world_of r) = new ∧
  ∃ before,
    calls_of r = before ++ cfg_set new :: dispatchEvent_sends reg' (recovered_event Sprintf c) ∧
    ∀ c' wk ev, worker_Send c' wk ev ∈ before →
                ev = degraded_event Sprintf c err drops ∧ c' ≠ c.
Proof.
  intros Hc r Hres reg' new. subst r. unfold handleDegradation, bind in *.
  destruct (setDegraded_registered c true e w Hc) as [Ht1 Hw1].
  destruct (setDegraded c true w) as [[u1 w1] t1].
  unfold calls_of, world_of in Ht1, Hw1; simpl in Ht1, Hw1. subst t1.
  set (reg1 := <[c := mkEntry (threshold e) true (entry_worker e)]> (registry (published w)))
    in *.
  set (cfg1 := updateThreshold (with_registry (published w) reg1)) in *.
  assert (Hinv1 : threshold_invariant (published w1)).
  { rewrite Hw1. apply updateThreshold_invariant. }
  destruct (logger_Errorf_calls Sprintf
              (logger_WithFields internalLogger [("drops", V_int drops)]) err
              "Collector has entered a degraded state: %s" [V_collector c] w1 Hinv1)
    as [Hp2 Ht2].
  destruct (logger_Errorf Sprintf _ err _ _ w1) as [[u2 w2] t2].
  unfold calls_of, world_of in Hp2, Ht2; simpl in Hp2, Ht2.
  destruct (ensureErrorSent_frame Sprintf Collect oor fuel c err drops startTime 0 w2)
    as [Hp3 Ht3].
  destruct (ensureErrorSent Sprintf Collect oor fuel c err drops startTime 0 w2)
    as [[r3 w3] t3].
  unfold calls_of, world_of, result_of in Hp3, Ht3, Hres; simpl in Hp3, Ht3, Hres.
  destruct r3 as [n3|cause|].
  2:{ destruct (recoverCollector Sprintf c (Some cause) w3) as [[u w4] t4].
      simpl in Hres. discriminate. }
  2:{ simpl in Hres. discriminate. }
  assert (Hreg3 : registry (published w3) !! c
                  = Some (mkEntry (threshold e) true (entry_worker e))).
  { rewrite Hp3, Hp2, Hw1. simpl. subst reg1. apply lookup_insert_eq. }
  destruct (setDegraded_registered c false _ w3 Hreg3) as [Ht4 Hw4].
  destruct (setDegraded c false w3) as [[u4 w4] t4].
  unfold calls_of, world_of in Ht4, Hw4; simpl in Ht4, Hw4.
  assert (Hnew : published w4 = new).
  { rewrite Hw4. simpl. rewrite Hp3, Hp2, Hw1. simpl. subst new reg' reg1.
    unfold updateThreshold, with_registry; simpl. by rewrite insert_insert_eq. }
  assert (Hinv4 : threshold_invariant (published w4)).
  { rewrite Hnew. apply updateThreshold_invariant. }
  destruct (sendf_calls Sprintf internalLogger WARN None
              "Collector has recovered from a degraded stated: %s" [V_collector c] w4 Hinv4)
    as [Ht5 Hp5].
  unfold logger_Warnf.
  destruct (sendf Sprintf internalLogger WARN None _ _ w4) as [[u5 w5] t5].
  unfold calls_of, world_of in Ht5, Hp5 |- *; simpl in Ht5, Hp5 |- *.
  split; [congruence|].
  exists (cfg_set cfg1 :: t2 ++ t3). split.
  - rewrite Ht4, Ht5, Hnew, app_nil_r. simpl.
    rewrite <- Hnew at 1. rewrite Hw4. simpl. by rewrite <- !app_assoc.
  - intros c' wk ev Hin. apply elem_of_cons in Hin as [Hin|Hin]; [discriminate|].
    apply elem_of_app in Hin as [Hin|Hin].
    + apply Ht2, dispatchEvent_sends_elem in Hin as (c1 & e1 & Hc1 & Ha & Heq).
      injection Heq as -> -> ->. split; [done|]. intros ->.
      rewrite Hw1 in Hc1. simpl in Hc1. subst reg1.
      rewrite lookup_insert_eq in Hc1. injection Hc1 as <-.
      apply accepts_spec in Ha as [_ Hd]. discriminate.
    + apply Ht3 in Hin. discriminate.
Qed.

(** More fuel does not change a call of handleDegradation whose recovery
    loop has ended. *)
Lemma handleDegradation_fuel {S} (Sprintf : string → list value → string)
    (Collect : Collector → Event → S → outcome * S) (oor : Z) (fuel : nat)
    (c : Collector) (err : error) (drops startTime : Z) (w : world S) :
  result_of (handleDegradation Sprintf Collect oor fuel c err drops startTime w)
    ≠ ensured_looping →
  ∀ more,
    handleDegradation Sprintf Collect oor (fuel + more) c err drops startTime w =
    handleDegradation Sprintf Collect oor fuel c err drops startTime w.
Proof.
  intros H more. unfold handleDegradation, bind in *.
  destruct (setDegraded c true w) as [[u1 w1] t1].
  destruct (logger_Errorf Sprintf _ err _ _ w1) as [[u2 w2] t2].
  rewrite ensureErrorSent_fuel; [done|].
  intros Hl. apply H.
  destruct (ensureErrorSent Sprintf Collect oor fuel c err drops startTime 0 w2)
    as [[r3 w3] t3].
  unfold result_of in Hl; simpl in Hl. subst r3. reflexivity.
Qed.

Lemma degraded_event_not_recovered (Sprintf : string → list value → string)
    (c : Collector) (err : error) (drops : Z) :
  degraded_event Sprintf c err drops ≠ recovered_event Sprintf c.
Proof. intros H. apply (f_equal ev_Level) in H. discriminate. Qed.

(** C5 (as amended). Degradation recovery broadcast: when the recovery loop
    of a registered collector has seen its probe accepted, the collector's
    degraded flag is cleared in the snapshot in force, and the WARN
    notification is dispatched over that snapshot: a Send is made to every
    registered collector that is not degraded and whose threshold admits
    WARN, and to no other; the recovered collector itself is among them
    when its own threshold admits WARN. *)
Theorem handleDegradation_recovery_broadcast {S}
    (Sprintf : string → list value → string)
    (Collect : Collector → Event → S → outcome * S) (oor : Z) (fuel : nat)
    (c : Collector) (e : entry) (err : error) (drops startTime : Z) (w : world S)
    (n : Z) :
  registry (published w) !! c = Some e →
  let r := handleDegradation Sprintf Collect oor fuel c err drops startTime w in
  result_of r = ensured_sent n →
  let reg' := registry (published (world_of r)) in
  reg' = <[c := mkEntry (threshold e) false (entry_worker e)]> (registry (published w)) ∧
  reg' !! c = Some (mkEntry (threshold e) false (entry_worker e)) ∧
  threshold_invariant (published (world_of r)) ∧
  ev_Level (recovered_event Sprintf c) = WARN ∧
  (∀ c' e', reg' !! c' = Some e' →
     (worker_Send c' (entry_worker e') (recovered_event Sprintf c) ∈ calls_of r ↔
      (WARN <= threshold e')%N ∧ degraded e' = false)) ∧
  (∀ c' wk, worker_Send c' wk (recovered_event Sprintf c) ∈ calls_of r →
     ∃ e', reg' !! c' = Some e' ∧ wk = entry_worker e') ∧
  (worker_Send c (entry_worker e) (recovered_event Sprintf c) ∈ calls_of r ↔
   (WARN <= threshold e)%N).
Proof.
  intros Hc r Hres reg'.
  destruct (handleDegradation_recovered Sprintf Collect oor fuel c e err drops startTime w n
              Hc Hres) as (Hpub & before & Hcalls & Hbefore).
  fold r in Hpub, Hcalls.
  assert (Hreg : reg' = <[c := mkEntry (threshold e) false (entry_worker e)]>
                          (registry (published w))).
  { subst reg'. by rewrite Hpub. }
  assert (Hself : reg' !! c = Some (mkEntry (threshold e) false (entry_worker e))).
  { rewrite Hreg. apply lookup_insert_eq. }
  assert (Hmem : ∀ c' wk, worker_Send c' wk (recovered_event Sprintf c) ∈ calls_of r ↔
                   ∃ e', reg' !! c' = Some e' ∧ wk = entry_worker e' ∧
                         accepts e' (recovered_event Sprintf c) = true).
  { intros c' wk. rewrite Hcalls, elem_of_app, elem_of_cons, <- Hreg. split.
    - intros [Hin | [Hin | Hin]].
      + apply Hbefore in Hin as [Hin _]. symmetry in Hin.
        by apply degraded_event_not_recovered in Hin.
      + discriminate.
      + apply dispatchEvent_sends_elem in Hin as (c1 & e1 & Hc1 & Ha & Heq).
        injection Heq as -> ->. by exists e1.
    - intros (e' & Hc' & -> & Ha). right. right.
      apply dispatchEvent_sends_elem. by exists c', e'. }
  assert (Hacc : ∀ e', accepts e' (recovered_event Sprintf c) = true ↔
                        (WARN <= threshold e')%N ∧ degraded e' = false).
  { intros e'. apply accepts_spec. }
  split; [exact Hreg|]. split; [exact Hself|]. split.
  { rewrite Hpub. apply updateThreshold_invariant. }
  split; [done|]. split; [|split].
  - intros c' e' Hc'. rewrite Hmem, <- Hacc. split.
    + intros (e1 & Hc1 & _ & Ha). congruence.
    + intros Ha. by exists e'.
  - intros c' wk Hin. apply Hmem in Hin as (e' & Hc' & -> & _). by exists e'.
  - rewrite Hmem. split.
    + intros (e1 & Hc1 & _ & Ha). rewrite Hself in Hc1. injection Hc1 as <-.
      by apply Hacc in Ha as [Ha _].
    + intros Hle. eexists. split; [exact Hself|]. split; [done|].
      apply Hacc. done.
Qed.

(** An instance: collector 2, registered at ERROR, accepts its first probe. *)
Lemma handleDegradation_recovery_broadcast_witness :
  let Sprintf : string → list value → string := λ f _, f in
  let Collect := λ (_ : Collector) (_ : Event) (s : unit), (Returns None, s) in
  let e := mkEntry ERROR false (asyncWorkerRef 2) in
  let reg : gmap Collector entry :=
    {[ 1%positive := mkEntry INFO false (syncWorkerRef 1); 2%positive := e ]} in
  let w := mkWorld (updateThreshold (with_registry newConfig reg)) 0 3%positive tt in
  let r := handleDegradation Sprintf Collect 0 1 2%positive (Some "write failed") 1 0 w in
  registry (published w) !! 2%positive = Some e ∧
  result_of r = ensured_sent 1 ∧
  registry (published (world_of r)) !! 2%positive = Some e.
Proof.
  intros Sprintf Collect e reg w r.
  assert (Hc : registry (published w) !! 2%positive = Some e) by reflexivity.
  assert (Hr : result_of r = ensured_sent 1) by reflexivity.
  split; [exact Hc|]. split; [exact Hr|].
  exact (proj1 (proj2 (handleDegradation_recovery_broadcast Sprintf Collect 0 1 2%positive e
                         (Some "write failed") 1 0 w 1 Hc Hr))).
Defined.

(** C5 (as stated) fails: with collector 1 registered at INFO and collector 2
    at DEBUG, collector 2 degraded and then accepting its first probe, the
    WARN notification of the recovery is sent to collector 2 itself. *)
Lemma recovery_notice_reaches_recovered_collector :
  let Sprintf : string → list value → string := λ f _, f in
  let Collect := λ (_ : Collector) (_ : Event) (s : unit), (Returns None, s) in
  let reg : gmap Collector entry :=
    {[ 1%positive := mkEntry INFO false (syncWorkerRef 1);
       2%positive := mkEntry DEBUG false (syncWorkerRef 2) ]} in
  let w := mkWorld (updateThreshold (with_registry newConfig reg)) 0 3%positive tt in
  let r := handleDegradation Sprintf Collect 0 1 2%positive (Some "write failed") 1 0 w in
  result_of r = ensured_sent 1 ∧
  degraded <$> registry (published (world_of r)) !! 2%positive = Some false ∧
  ev_Level (recovered_event Sprintf 2%positive) = WARN ∧
  worker_Send 2%positive (syncWorkerRef 2) (recovered_event Sprintf 2%positive) ∈ calls_of r ∧
  ¬ (∀ wk ev, ev_Level ev = WARN → worker_Send 2%positive wk ev ∉ calls_of r).
Proof.
  intros Sprintf Collect reg w r.
  assert (Hin : worker_Send 2%positive (syncWorkerRef 2) (recovered_event Sprintf 2%positive)
                ∈ calls_of r).
  { vm_compute. repeat first [apply list_elem_of_here | apply list_elem_of_further]. }
  split; [reflexivity|]. split; [reflexivity|]. split; [reflexivity|].
  split; [exact Hin|].
  intros H.
  exact (H (syncWorkerRef 2) (recovered_event Sprintf 2%positive) eq_refl Hin).
Qed.

(** ** Panic isolation *)




Lemma Sends_to_Collect_calls (c c0 : Collector) (event : Event) (outs : list outcome) :
  Sends_to c (Collect_call c0 event <$> outs) = [].
Proof. induction outs as [|o outs IH]; [done|]. simpl. exact IH. Qed.



(** A panic of the probe inside handleDegradation ends the same way: the
    collector, degraded by then, is disposed and the FATAL notice is
    dispatched over what remains. *)
Lemma handleDegradation_probe_panic {S} (Sprintf : string → list value → string)
    (Collect : Collector → Event → S → outcome * S) (oor : Z) (fuel : nat)
    (c : Collector) (e : entry) (err : error) (drops startTime : Z) (w : world S)
    (cause : string) :
  registry (published w) !! c = Some e →
  let r := handleDegradation Sprintf Collect oor fuel c err drops startTime w in
  result_of r = ensured_panic cause →
  let reg' := delete c (registry (published w)) in
  let new := updateThreshold (with_registry (published w) reg') in
  published (world_of r) = new ∧
  ∃ before,
    calls_of r = before ++ [cfg_set new; worker_Terminate c (entry_worker e) false] ++
                 dispatchEvent_sends reg' (panic_event Sprintf c cause) ∧
    ∀ c' wk ev, worker_Send c' wk ev ∈ before →
                ev = degraded_event Sprintf c err drops ∧ c' ≠ c.
Proof.
  intros Hc r Hres reg' new. subst r. unfold handleDegradation, bind in *.
  destruct (setDegraded_registered c true e w Hc) as [Ht1 Hw1].
  destruct (setDegraded c true w) as [[u1 w1] t1].
  unfold calls_of, world_of in Ht1, Hw1; simpl in Ht1, Hw1. subst t1.
  set (reg1 := <[c := mkEntry (threshold e) true (entry_worker e)]> (registry (published w)))
    in *.
  set (cfg1 := updateThreshold (with_registry (published w) reg1)) in *.
  assert (Hinv1 : threshold_invariant (published w1)).
  { rewrite Hw1. apply updateThreshold_invariant. }
  destruct (logger_Errorf_calls Sprintf
              (logger_WithFields internalLogger [("drops", V_int drops)]) err
              "Collector has entered a degraded state: %s" [V_collector c] w1 Hinv1)
    as [Hp2 Ht2].
  destruct (logger_Errorf Sprintf _ err _ _ w1) as [[u2 w2] t2].
  unfold calls_of, world_of in Hp2, Ht2; simpl in Hp2, Ht2.
  destruct (ensureErrorSent_frame Sprintf Collect oor fuel c err drops startTime 0 w2)
    as [Hp3 Ht3].
  destruct (ensureErrorSent Sprintf Collect oor fuel c err drops startTime 0 w2)
    as [[r3 w3] t3].
  unfold calls_of, world_of, result_of in Hp3, Ht3, Hres; simpl in Hp3, Ht3, Hres.
  destruct r3 as [n3|cause3|].
  1:{ destruct (setDegraded c false w3) as [[u4 w4] t4].
      destruct (logger_Warnf Sprintf internalLogger _ _ w4) as [[u5 w5] t5].
      simpl in Hres. discriminate. }
  2:{ simpl in Hres. discriminate. }
  assert (Hreg3 : registry (published w3) !! c
                  = Some (mkEntry (threshold e) true (entry_worker e))).
  { rewrite Hp3, Hp2, Hw1. simpl. subst reg1. apply lookup_insert_eq. }
  destruct (recoverCollector_registered Sprintf c _ cause3 w3 Hreg3) as [Ht4 Hp4].
  destruct (recoverCollector Sprintf c (Some cause3) w3) as [[u4 w4] t4].
  unfold calls_of, world_of, result_of in Ht4, Hp4, Hres |- *.
  simpl in Ht4, Hp4, Hres |- *. injection Hres as ->.
  assert (Hnew : updateThreshold (with_registry (published w3)
                   (delete c (registry (published w3)))) = new).
  { rewrite Hp3, Hp2, Hw1. simpl. subst new reg' reg1.
    unfold updateThreshold, with_registry; simpl. by rewrite delete_insert_eq. }
  assert (Hreg : delete c (registry (published w3)) = reg').
  { rewrite Hp3, Hp2, Hw1. simpl. subst reg' reg1. by rewrite delete_insert_eq. }
  rewrite Hnew in Ht4, Hp4. simpl in Ht4. rewrite Hreg in Ht4.
  split; [exact Hp4|].
  exists (cfg_set cfg1 :: t2 ++ t3). split.
  - rewrite Ht4, app_nil_r. simpl. by rewrite <- !app_assoc.
  - intros c' wk ev Hin. apply elem_of_cons in Hin as [Hin|Hin]; [discriminate|].
    apply elem_of_app in Hin as [Hin|Hin].
    + apply Ht2, dispatchEvent_sends_elem in Hin as (c1 & e1 & Hc1 & Ha & Heq).
      injection Heq as -> -> ->. split; [done|]. intros ->.
      rewrite Hw1 in Hc1. simpl in Hc1. subst reg1.
      rewrite lookup_insert_eq in Hc1. injection Hc1 as <-.
      apply accepts_spec in Ha as [_ Hd]. discriminate.
    + apply Ht3 in Hin. discriminate.
Qed.

(** ** From Send to Collect in the synchronous worker *)

(** A Send on a synchronous worker that is not terminated starts with a call
    of its collector's Collect on the event; on a terminated worker it does
    nothing. *)
Lemma syncWorker_Send_collects {S} (Sprintf : string → list value → string)
    (Collect : Collector → Event → S → outcome * S) (oor : Z) (fuel : nat)
    (startTime : Z) (sw : syncWorker) (e : Event) (w : world S) :
  let r := syncWorker_Send Sprintf Collect oor fuel startTime sw e w in
  if sw_terminated sw
  then r = (sw, w, [])
  else ∃ o rest, calls_of r = Collect_call (sw_collector sw) e o :: rest.
Proof.
  unfold syncWorker_Send. destruct (sw_terminated sw); [done|].
  unfold syncWorker_sendEvent, sendWithRetries, bind.
  change (Z.to_nat (sendRetries + 1)) with 3%nat.
  destruct (sendWithRetries_loop Collect 3 (sw_collector sw) e None w) as [[o w1] t1] eqn:El.
  assert (Ht1 : ∃ o1 rest1, t1 = Collect_call (sw_collector sw) e o1 :: rest1).
  { destruct (sendWithRetries_loop_attempts Collect 3 (sw_collector sw) e None w)
      as (outs & Hc & Ha & _).
    rewrite El in Hc, Ha. unfold calls_of, result_of in Hc, Ha; simpl in Hc, Ha.
    subst t1.
    inversion Ha as [errs Hl Ho Hres | errs Hl Ho Hres | errs cause' Hl Ho Hres];
      subst; destruct errs as [|e1 errs]; try discriminate; simpl; by eexists _, _. }
  destruct Ht1 as (o1 & rest1 & ->).
  destruct o as [err|cause].
  - unfold ret at 1. simpl.
    destruct err as [err|].
    + destruct (handleDegradation Sprintf Collect oor fuel _ _ _ startTime w1)
        as [[r2 w2] t2].
      unfold calls_of; simpl. by eexists _, _.
    + unfold calls_of; simpl. by eexists _, _.
  - destruct (recoverCollector Sprintf (sw_collector sw) (Some cause) w1) as [[u w2] t2].
    unfold calls_of; simpl. by eexists _, _.
Qed.

(** ** The sequential part of Close *)


(** With no send in process it goes on to terminate, with flush = true,
    the worker of every entry of the registry it replaced, and of no
    other. *)
Lemma terminateAsync_terminates_all {S} (w : world S) :
  sending w = 0 →
  result_of (terminateAsync w) = true ∧
  ∀ c wk flush,
    worker_Terminate c wk flush ∈ calls_of (terminateAsync w) ↔
    flush = true ∧ ∃ e, registry (published w) !! c = Some e ∧ wk = entry_worker e.
Proof.
  intros Hs. run_M. rewrite Hs. simpl. split; [done|].
  intros c wk flush. rewrite elem_of_cons. unfold terminateWorkers_calls.
  rewrite list_elem_of_fmap. split.
  - intros [H | ([c' e'] & Heq & Hin)]; [discriminate|].
    injection Heq as -> -> ->. apply elem_of_map_to_list in Hin. eauto.
  - intros [-> (e & Hc & ->)]. right. exists (c, e). split; [done|].
    by apply elem_of_map_to_list.
Qed.

(** While a send is in process it terminates no worker. *)
Lemma terminateAsync_waits {S} (w : world S) :
  sending w ≠ 0 →
  terminateAsync w = (false, mkWorld newConfig (sending w) (workersMade w) (collectors w),
                      [cfg_set newConfig]).
Proof.
  intros Hs. run_M. destruct (Z.eqb_spec (sending w) 0); [done|]. done.
Qed.

(** On the blank state it changes nothing, so that it can be run again. *)
Lemma terminateAsync_blank {S} (w : world S) :
  published w = newConfig → sending w = 0 →
  terminateAsync w = (true, w, [cfg_set newConfig]).
Proof.
  intros Hp Hs. run_M. rewrite Hs, Hp. simpl. destruct w; simpl in *. by subst.
Qed.





(** * Further properties of the registry *)

Lemma threshold_is_max_unique (reg : gmap Collector entry) (t1 t2 : Level) :
  threshold_is_max reg t1 → threshold_is_max reg t2 → t1 = t2.
Proof.
  intros [Hub1 Hatt1] [Hub2 Hatt2].
  destruct Hatt1 as [(c1 & e1 & Hc1 & Hd1 & Ht1) | [Hall1 ->]];
    destruct Hatt2 as [(c2 & e2 & Hc2 & Hd2 & Ht2) | [Hall2 ->]]; try done.
  - specialize (Hub1 c2 e2 Hc2 Hd2). specialize (Hub2 c1 e1 Hc1 Hd1). lia.
  - specialize (Hall2 c1 e1 Hc1). congruence.
  - specialize (Hall1 c2 e2 Hc2). congruence.
Qed.

(** Recomputing the threshold of a snapshot that satisfies the invariant
    changes nothing. *)
Lemma updateThreshold_fixed (c : config) :
  threshold_invariant c → updateThreshold c = c.
Proof.
  intros Hinv. destruct c as [t f ef reg]. unfold updateThreshold; simpl. f_equal.
  apply (threshold_is_max_unique reg); [|exact Hinv].
  by apply updateThreshold_over_is_max.
Qed.

Lemma updateThreshold_with_registry (c : config) (reg : gmap Collector entry) :
  registry (updateThreshold (with_registry c reg)) = reg ∧
  frames (updateThreshold (with_registry c reg)) = frames c ∧
  errorFrames (updateThreshold (with_registry c reg)) = errorFrames c.
Proof. done. Qed.

Lemma collect_nil_or_registered_aux {S} (thr : Level) (bufsize : Z) (w : world S)
    (c : Collector) (e : entry) :
  registry (published w) !! c = Some e →
  collect thr bufsize (Some c) w = (tt, w, []).
Proof. intros Hc. run_M. by rewrite Hc. Qed.

Lemma unregistered_noop_aux {S} (c : Collector) (w : world S) :
  registry (published w) !! c = None →
  (∀ thr, SetLevel thr c w = (tt, w, [])) ∧
  (∀ d, setDegraded c d w = (tt, w, [])) ∧
  dispose c w = (tt, w, []).
Proof. intros Hc. run_M. by rewrite Hc. Qed.

(** X1. collect does nothing for the nil collector and for a collector that
    is registered already: no worker is made, no snapshot is published, and
    the state (in particular the collector's threshold) stays as it is. *)
Theorem collect_nil_or_registered {S} (thr : Level) (bufsize : Z) (w : world S) :
  collect thr bufsize None w = (tt, w, []) ∧
  ∀ c e, registry (published w) !! c = Some e →
         collect thr bufsize (Some c) w = (tt, w, []).
Proof.
  split; [done|]. intros c e Hc. run_M. by rewrite Hc.
Qed.

(** An instance: a second registration of collector 1, at another level. *)
Lemma collect_nil_or_registered_witness :
  let w := world_of (collect DEBUG 0 (Some 1%positive) (initial tt)) in
  registry (published w) !! 1%positive = Some (mkEntry DEBUG false (syncWorkerRef 1)) ∧
  collect INFO 10 (Some 1%positive) w = (tt, w, []).
Proof.
  intros w.
  assert (H : registry (published w) !! 1%positive
              = Some (mkEntry DEBUG false (syncWorkerRef 1))) by reflexivity.
  split; [exact H|].
  exact (proj2 (collect_nil_or_registered INFO 10 w) 1%positive _ H).
Defined.

Lemma threshold_is_max_insert (reg : gmap Collector entry) (t : Level)
    (c : Collector) (e : entry) :
  reg !! c = None → degraded e = false → threshold_is_max reg t →
  threshold_is_max (<[c := e]> reg) (N.max t (threshold e)).
Proof.
  intros Hc Hd [Hub Hatt]. split.
  - intros c' e' Hc' Hd'. destruct (decide (c = c')) as [<-|Hne].
    + rewrite lookup_insert_eq in Hc'. injection Hc' as <-. lia.
    + rewrite lookup_insert_ne in Hc' by done. specialize (Hub c' e' Hc' Hd'). lia.
  - left. destruct (N.max_spec t (threshold e)) as [[Hlt ->] | [Hle ->]].
    + exists c, e. by rewrite lookup_insert_eq.
    + destruct Hatt as [(c' & e' & Hc' & Hd' & Ht') | [_ ->]].
      * exists c', e'. rewrite lookup_insert_ne by congruence. done.
      * exists c, e. rewrite lookup_insert_eq. unfold OFF in *. split; [done|].
        split; [done|]. lia.
Qed.

(** X2. collect of a collector that is not registered yet, with a buffer
    size that make accepts, makes one new worker (synchronous exactly when
    the buffer size is 0), enters the collector with the given threshold and
    not degraded, leaves every other entry and the frame counts as they are,
    and publishes one snapshot; under the threshold invariant the global
    threshold becomes the maximum of the old one and the new collector's. *)
Theorem collect_registers {S} (thr : Level) (bufsize : Z) (c : Collector) (w : world S) :
  chan_size_ok bufsize →
  registry (published w) !! c = None →
  let r := collect thr bufsize (Some c) w in
  let wk := if bufsize =? 0 then syncWorkerRef (workersMade w)
            else asyncWorkerRef (workersMade w) in
  let new := published (world_of r) in
  calls_of r = [newWorker_call wk c bufsize; cfg_set new] ∧
  registry new !! c = Some (mkEntry thr false wk) ∧
  (∀ c', c' ≠ c → registry new !! c' = registry (published w) !! c') ∧
  frames new = frames (published w) ∧ errorFrames new = errorFrames (published w) ∧
  workersMade (world_of r) = Pos.succ (workersMade w) ∧
  threshold_invariant new ∧
  (threshold_invariant (published w) →
   cfg_threshold new = N.max (cfg_threshold (published w)) thr).
Proof.
  intros _ Hc. run_M. rewrite Hc. simpl.
  split; [done|]. split; [apply lookup_insert_eq|]. split.
  { intros c' Hne. by apply lookup_insert_ne. }
  split; [done|]. split; [done|]. split; [done|].
  match goal with |- threshold_invariant ?n ∧ _ =>
    assert (Hinv : threshold_invariant n) by apply updateThreshold_invariant
  end.
  split; [exact Hinv|]. intros Hold.
  eapply threshold_is_max_unique; [exact Hinv|]. simpl.
  by apply (threshold_is_max_insert _ _ c (mkEntry thr false _)).
Qed.

(** An instance: the first registration, asynchronous, at WARN. *)
Lemma collect_registers_witness :
  let w := initial tt in
  let r := collect WARN 100 (Some 7%positive) w in
  chan_size_ok 100 ∧
  registry (published w) !! 7%positive = None ∧
  registry (published (world_of r)) !! 7%positive
    = Some (mkEntry WARN false (asyncWorkerRef 1)) ∧
  (threshold_invariant (published w) → cfg_threshold (published (world_of r)) = WARN).
Proof.
  intros w r.
  assert (Hb : chan_size_ok 100) by (unfold chan_size_ok; lia).
  assert (H : registry (published w) !! 7%positive = None) by reflexivity.
  split; [exact Hb|]. split; [exact H|].
  destruct (collect_registers WARN 100 7%positive w Hb H)
    as (_ & Hl & _ & _ & _ & _ & _ & Ht).
  split; [exact Hl|]. intros Hinv. exact (Ht Hinv).
Defined.

(** X3. SetLevel, setDegraded and dispose do nothing for a collector that is
    not registered: nothing is published, no worker is terminated, and the
    state stays as it is. *)
Theorem unregistered_noop {S} (c : Collector) (w : world S) (thr : Level) (d : bool) :
  registry (published w) !! c = None →
  SetLevel thr c w = (tt, w, []) ∧
  setDegraded c d w = (tt, w, []) ∧
  dispose c w = (tt, w, []).
Proof. intros Hc. run_M. by rewrite Hc. Qed.

(** An instance: on the blank state no collector is registered. *)
Lemma unregistered_noop_witness :
  registry (published (initial tt)) !! 3%positive = None ∧
  SetLevel DEBUG 3%positive (initial tt) = (tt, initial tt, []).
Proof.
  assert (H : registry (published (initial tt)) !! 3%positive = None) by reflexivity.
  split; [exact H|].
  exact (proj1 (unregistered_noop 3%positive (initial tt) DEBUG true H)).
Defined.

(** Publishing the registry of a snapshot that satisfies the invariant, with
    its frame counts, gives that snapshot again. *)
Lemma republish_same (c0 c : config) (reg : gmap Collector entry) :
  threshold_invariant c → reg = registry c →
  frames c0 = frames c → errorFrames c0 = errorFrames c →
  updateThreshold (with_registry c0 reg) = c.
Proof.
  intros Hinv -> Hf He.
  transitivity (updateThreshold c); [|by apply updateThreshold_fixed].
  unfold updateThreshold, with_registry; simpl. by rewrite Hf, He.
Qed.

Lemma SetLevel_registered {S} (thr : Level) (c : Collector) (e : entry) (w : world S) :
  registry (published w) !! c = Some e →
  let new := updateThreshold (with_registry (published w)
               (<[c := mkEntry thr (degraded e) (entry_worker e)]> (registry (published w)))) in
  calls_of (SetLevel thr c w) = [cfg_set new] ∧
  world_of (SetLevel thr c w) = mkWorld new (sending w) (workersMade w) (collectors w).
Proof. intros Hc. run_M. rewrite Hc. done. Qed.

Lemma collect_fresh {S} (thr : Level) (bufsize : Z) (c : Collector) (w : world S) :
  registry (published w) !! c = None →
  let wk := if bufsize =? 0 then syncWorkerRef (workersMade w)
            else asyncWorkerRef (workersMade w) in
  let new := updateThreshold (with_registry (published w)
               (<[c := mkEntry thr false wk]> (registry (published w)))) in
  calls_of (collect thr bufsize (Some c) w) = [newWorker_call wk c bufsize; cfg_set new] ∧
  world_of (collect thr bufsize (Some c) w)
    = mkWorld new (sending w) (Pos.succ (workersMade w)) (collectors w).
Proof. intros Hc. run_M. rewrite Hc. done. Qed.

(** X4. SetLevel on a registered collector publishes one snapshot in which
    the collector has the new threshold and its degraded flag and worker as
    before, with every other entry and the frame counts unchanged; from then
    on a dispatched event reaches the collector exactly when its level is
    within the new threshold and the collector is not degraded, and after
    SetLevel(OFF) nothing that is logged reaches it. *)
Theorem SetLevel_then_dispatch {S} (thr : Level) (c : Collector) (e : entry) (w : world S) :
  registry (published w) !! c = Some e →
  let r := SetLevel thr c w in
  let new := published (world_of r) in
  calls_of r = [cfg_set new] ∧
  registry new !! c = Some (mkEntry thr (degraded e) (entry_worker e)) ∧
  (∀ c', c' ≠ c → registry new !! c' = registry (published w) !! c') ∧
  frames new = frames (published w) ∧ errorFrames new = errorFrames (published w) ∧
  (∀ event,
     Sends_to c (calls_of (dispatchEvent event (world_of r))) =
       if (ev_Level event <=? thr)%N && negb (degraded e)
       then [worker_Send c (entry_worker e) event] else []) ∧
  (thr = OFF → ∀ l level err message,
     severity level → Sends_to c (calls_of (send l level err message (world_of r))) = []).
Proof.
  intros Hc r new. subst new r.
  destruct (SetLevel_registered thr c e w Hc) as [Hcalls Hw].
  set (e' := mkEntry thr (degraded e) (entry_worker e)) in *.
  set (reg' := <[c := e']> (registry (published w))) in *.
  set (w1 := world_of (SetLevel thr c w)) in *.
  assert (Hp : published w1 = updateThreshold (with_registry (published w) reg'))
    by (by rewrite Hw).
  assert (Hreg : registry (published w1) = reg') by (by rewrite Hp).
  assert (Hc' : reg' !! c = Some e') by apply lookup_insert_eq.
  rewrite Hcalls, Hreg, Hp.
  split; [done|]. split; [exact Hc'|]. split.
  { intros c' Hne. by apply lookup_insert_ne. }
  split; [done|]. split; [done|]. split.
  - intros event. rewrite dispatchEvent_calls, Hreg.
    apply (dispatchEvent_sends_registered reg' event c e' Hc').
  - intros -> l level err message Hsev.
    destruct (send_calls l level err message w1) as [-> _].
    { rewrite Hp. apply updateThreshold_invariant. }
    rewrite Hreg, (dispatchEvent_sends_registered reg' _ c e' Hc').
    unfold accepts; simpl.
    replace (level <=? OFF)%N with false; [done|].
    symmetry. apply N.leb_gt.
    unfold severity, OFF, FATAL, ERROR, WARN, INFO, DEBUG in *. lia.
Qed.

(** An instance: a collector registered at DEBUG is set to INFO. *)
Lemma SetLevel_then_dispatch_witness :
  let w := world_of (collect DEBUG 0 (Some 1%positive) (initial tt)) in
  let e := mkEntry DEBUG false (syncWorkerRef 1) in
  registry (published w) !! 1%positive = Some e ∧
  registry (published (world_of (SetLevel INFO 1%positive w))) !! 1%positive
    = Some (mkEntry INFO false (syncWorkerRef 1)).
Proof.
  intros w e.
  assert (H : registry (published w) !! 1%positive = Some e) by reflexivity.
  split; [exact H|].
  exact (proj1 (proj2 (SetLevel_then_dispatch INFO 1%positive e w H))).
Defined.

(** X5. Degrading a healthy registered collector and restoring it is a round
    trip: while the flag is set the dispatcher sends the collector nothing,
    and after setDegraded(c, false) the state is exactly the one before
    (under the threshold invariant). *)
Theorem setDegraded_round_trip {S} (c : Collector) (e : entry) (w : world S) :
  registry (published w) !! c = Some e → degraded e = false →
  threshold_invariant (published w) →
  let w1 := world_of (setDegraded c true w) in
  let w2 := world_of (setDegraded c false w1) in
  registry (published w1) !! c = Some (mkEntry (threshold e) true (entry_worker e)) ∧
  (∀ event, Sends_to c (calls_of (dispatchEvent event w1)) = []) ∧
  w2 = w.
Proof.
  intros Hc Hd Hinv w1 w2.
  destruct (setDegraded_registered c true e w Hc) as [_ Hw1]. fold w1 in Hw1.
  assert (Hc1 : registry (published w1) !! c
                = Some (mkEntry (threshold e) true (entry_worker e))).
  { rewrite Hw1. simpl. apply lookup_insert_eq. }
  destruct (setDegraded_registered c false _ w1 Hc1) as [_ Hw2]. fold w2 in Hw2.
  split; [exact Hc1|]. split.
  - intros event. rewrite dispatchEvent_calls.
    rewrite (dispatchEvent_sends_registered _ event c _ Hc1).
    unfold accepts. simpl. by rewrite andb_false_r.
  - assert (Hp2 : published w2 = published w).
    { rewrite Hw2. simpl. apply republish_same; [done| |by rewrite Hw1..].
      rewrite Hw1. simpl. rewrite insert_insert_eq. apply insert_id.
      rewrite Hc. f_equal. destruct e; simpl in *. by subst. }
    transitivity (mkWorld (published w) (sending w) (workersMade w) (collectors w));
      [|by destruct w].
    rewrite <- Hp2. rewrite Hw2 at 1. rewrite Hw2. simpl. by rewrite Hw1.
Qed.

(** An instance: the only registered collector is degraded and restored. *)
Lemma setDegraded_round_trip_witness :
  let w := world_of (collect DEBUG 0 (Some 1%positive) (initial tt)) in
  let e := mkEntry DEBUG false (syncWorkerRef 1) in
  registry (published w) !! 1%positive = Some e ∧ degraded e = false ∧
  threshold_invariant (published w) ∧
  world_of (setDegraded 1%positive false (world_of (setDegraded 1%positive true w))) = w.
Proof.
  intros w e.
  assert (H : registry (published w) !! 1%positive = Some e) by reflexivity.
  assert (Hd : degraded e = false) by reflexivity.
  assert (Hi : threshold_invariant (published w)) by apply updateThreshold_invariant.
  split; [exact H|]. split; [exact Hd|]. split; [exact Hi|].
  exact (proj2 (proj2 (setDegraded_round_trip 1%positive e w H Hd Hi))).
Defined.

(** X6. Registering a new collector (with a buffer size that make accepts)
    and disposing of it is a round trip on the published snapshot, under
    the threshold invariant: dispose publishes the snapshot that was in
    force before the registration, and then calls Terminate, with
    flush = false, on the worker that was made for the collector; the
    count of workers made has moved on by one. *)
Theorem collect_dispose_round_trip {S} (thr : Level) (bufsize : Z) (c : Collector)
    (w : world S) :
  chan_size_ok bufsize →
  registry (published w) !! c = None → threshold_invariant (published w) →
  let r1 := collect thr bufsize (Some c) w in
  let r2 := dispose c (world_of r1) in
  let wk := if bufsize =? 0 then syncWorkerRef (workersMade w)
            else asyncWorkerRef (workersMade w) in
  published (world_of r2) = published w ∧
  calls_of r2 = [cfg_set (published w); worker_Terminate c wk false] ∧
  workersMade (world_of r2) = Pos.succ (workersMade w).
Proof.
  intros _ Hc Hinv r1 r2 wk.
  destruct (collect_fresh thr bufsize c w Hc) as (_ & Hw1).
  fold r1 wk in Hw1.
  assert (Hc1 : registry (published (world_of r1)) !! c = Some (mkEntry thr false wk)).
  { rewrite Hw1. simpl. apply lookup_insert_eq. }
  destruct (dispose_registered c _ (world_of r1) Hc1) as [Hcalls Hw2].
  fold r2 in Hcalls, Hw2.
  assert (Hnew : updateThreshold (with_registry (published (world_of r1))
                   (delete c (registry (published (world_of r1))))) = published w).
  { apply republish_same; [done| |by rewrite Hw1..].
    rewrite Hw1. simpl. by rewrite delete_insert_eq, delete_id. }
  rewrite Hnew in Hcalls, Hw2. rewrite Hw2, Hcalls, Hw1. done.
Qed.

(** An instance: on the blank state, collector 1 is registered and disposed. *)
Lemma collect_dispose_round_trip_witness :
  let w := initial tt in
  chan_size_ok 5 ∧
  registry (published w) !! 1%positive = None ∧ threshold_invariant (published w) ∧
  published (world_of (dispose 1%positive (world_of (collect INFO 5 (Some 1%positive) w))))
    = published w.
Proof.
  intros w.
  assert (Hb : chan_size_ok 5) by (unfold chan_size_ok; lia).
  assert (H : registry (published w) !! 1%positive = None) by reflexivity.
  assert (Hi : threshold_invariant (published w)) by apply newConfig_invariant.
  split; [exact Hb|]. split; [exact H|]. split; [exact Hi|].
  exact (proj1 (collect_dispose_round_trip INFO 5 1%positive w Hb H Hi)).
Defined.

(** A mutation other than a registration keeps the count of workers made
    and gives every entry of the new registry the worker it had before. *)
Lemma mutate_keeps_workers {S} (m : mutation) (w : world S) :
  (∀ thr bufsize c, m ≠ m_collect thr bufsize c) →
  workersMade (world_of (mutate m w)) = workersMade w ∧
  ∀ c e, registry (published (world_of (mutate m w))) !! c = Some e →
         ∃ e0, registry (published w) !! c = Some e0 ∧ entry_worker e0 = entry_worker e.
Proof.
  intros Hm. destruct m as [thr bufsize c | thr c | fr efr | c d | c | ].
  - by destruct (Hm thr bufsize c).
  - destruct (registry (published w) !! c) as [e|] eqn:Hc.
    + destruct (SetLevel_registered thr c e w Hc) as [_ Hw]. simpl. rewrite Hw. simpl.
      split; [done|]. intros c' e' Hc'.
      apply lookup_insert_Some in Hc' as [[<- <-] | [_ Hc']]; eauto.
    + destruct (unregistered_noop_aux c w Hc) as (Hs & _). simpl. rewrite (Hs thr).
      split; [done|]. eauto.
  - run_M. split; [done|]. eauto.
  - destruct (registry (published w) !! c) as [e|] eqn:Hc.
    + destruct (setDegraded_registered c d e w Hc) as [_ Hw]. simpl. rewrite Hw. simpl.
      split; [done|]. intros c' e' Hc'.
      apply lookup_insert_Some in Hc' as [[<- <-] | [_ Hc']]; eauto.
    + destruct (unregistered_noop_aux c w Hc) as (_ & Hs & _). simpl. rewrite (Hs d).
      split; [done|]. eauto.
  - destruct (registry (published w) !! c) as [e|] eqn:Hc.
    + destruct (dispose_registered c e w Hc) as [_ Hw]. simpl. rewrite Hw. simpl.
      split; [done|]. intros c' e' Hc'.
      apply lookup_delete_Some in Hc' as [_ Hc']. eauto.
    + destruct (dispose_unregistered c w Hc) as [_ Hw]. simpl. rewrite Hw.
      split; [done|]. eauto.
  - run_M. destruct (sending w =? 0); simpl; (split; [done|]);
      intros c e Hc; by rewrite lookup_empty in Hc.
Qed.

Lemma mutate_workers_fresh {S} (m : mutation) (w : world S) :
  workers_fresh w → workers_fresh (world_of (mutate m w)).
Proof.
  intros [Hlt Hinj].
  assert (Hkeep : (∀ thr bufsize c, m ≠ m_collect thr bufsize c) →
                  workers_fresh (world_of (mutate m w))).
  { intros Hm. destruct (mutate_keeps_workers m w Hm) as [Hwm Hsub]. split.
    - intros c e Hc. rewrite Hwm. destruct (Hsub c e Hc) as (e0 & Hc0 & <-).
      by apply (Hlt c e0).
    - intros c1 c2 e1 e2 H1 H2 Href.
      destruct (Hsub c1 e1 H1) as (e01 & Hc01 & He1).
      destruct (Hsub c2 e2 H2) as (e02 & Hc02 & He2).
      apply (Hinj c1 c2 e01 e02); congruence. }
  destruct m as [thr bufsize [c|] | thr c | fr efr | c d | c | ];
    try (apply Hkeep; congruence); [|done].
  destruct (registry (published w) !! c) as [e|] eqn:Hc.
  { unfold mutate. by rewrite (collect_nil_or_registered_aux thr bufsize w c e Hc). }
  destruct (collect_fresh thr bufsize c w Hc) as [_ Hw]. unfold mutate. rewrite Hw.
  set (wk := if bufsize =? 0 then syncWorkerRef (workersMade w)
             else asyncWorkerRef (workersMade w)).
  assert (Hwk : worker_ref wk = workersMade w) by (subst wk; by destruct (bufsize =? 0)).
  split; simpl.
  - intros c' e' Hc'. apply lookup_insert_Some in Hc' as [[<- <-] | [_ Hc']].
    + simpl. rewrite Hwk. lia.
    + specialize (Hlt c' e' Hc'). lia.
  - intros c1 c2 e1 e2 H1 H2 Href.
    apply lookup_insert_Some in H1 as [[<- <-] | [Hn1 H1]];
      apply lookup_insert_Some in H2 as [[<- <-] | [Hn2 H2]]; try done.
    + simpl in Href. rewrite Hwk in Href. specialize (Hlt c2 e2 H2). lia.
    + simpl in Href. rewrite Hwk in Href. specialize (Hlt c1 e1 H1). lia.
    + by apply (Hinj c1 c2 e1 e2).
Qed.

(** X7. Along any run of registry mutations from the blank state, every
    registered collector has a worker of its own: no two entries of the
    registry hold the same worker object, and each was made by an earlier
    registration. *)
Theorem registered_workers_distinct {S} (s : S) (ms : list mutation) :
  workers_fresh (world_of (mutations ms (initial s))).
Proof.
  assert (Hgen : ∀ w : world S, workers_fresh w →
                                workers_fresh (world_of (mutations ms w))).
  { induction ms as [|m ms IH]; intros w Hw; [done|].
    simpl. unfold bind.
    pose proof (mutate_workers_fresh m w Hw) as Hm.
    destruct (mutate m w) as [[u w1] t1]. unfold world_of in Hm; simpl in Hm.
    specialize (IH w1 Hm). destruct (mutations ms w1) as [[u2 w2] t2]. exact IH. }
  apply Hgen. split; simpl.
  - intros c e Hc. by rewrite lookup_empty in Hc.
  - intros c1 c2 e1 e2 Hc. by rewrite lookup_empty in Hc.
Qed.

(** * Further properties of the logger *)

Lemma wrap_int32_round (z : Z) :
  -2 ^ 31 <= z < 2 ^ 31 - 1 → wrap_int32 (wrap_int32 (z + 1) + -1) = z.
Proof.
  intros H. unfold wrap_int32.
  rewrite (Z.mod_small (z + 1 + 2 ^ 31)) by lia.
  replace (z + 1 + 2 ^ 31 - 2 ^ 31 + -1 + 2 ^ 31) with (z + 2 ^ 31) by lia.
  rewrite Z.mod_small; lia.
Qed.

(** What a dispatch does to the state: it changes at most the send counter,
    and gives that back as it found it. *)
Lemma dispatchEvent_world {S} (event : Event) (w : world S) :
  published (world_of (dispatchEvent event w)) = published w ∧
  workersMade (world_of (dispatchEvent event w)) = workersMade w ∧
  collectors (world_of (dispatchEvent event w)) = collectors w ∧
  (-2 ^ 31 <= sending w < 2 ^ 31 - 1 → world_of (dispatchEvent event w) = w).
Proof.
  unfold dispatchEvent, bind, atomic_AddInt32_sending, cfg_get, emit, world_of; simpl.
  repeat split. intros Hs. rewrite wrap_int32_round by done. by destruct w.
Qed.


Lemma logged_ret {S A B} (l : logger) (w : world S) (m : M S A) (b : B) :
  logged l w (m w) → logged l w ((exec m in ret b) w).
Proof.
  unfold logged, bind, ret, world_of, calls_of. destruct (m w) as [[a w1] t1]. simpl.
  by rewrite app_nil_r.
Qed.

Lemma logged_nothing {S A} (l : logger) (w : world S) (a : A) : logged l w (a, w, []).
Proof. unfold logged, world_of, calls_of; simpl. repeat split; auto. Qed.

Lemma logged_dispatch {S} (l : logger) (ev : Event) (w : world S) :
  severity (ev_Level ev) → ev_Context ev = context l →
  (ev_Level ev <= cfg_threshold (published w))%N →
  logged l w (dispatchEvent ev w).
Proof.
  intros Hsev Hctx Hle. destruct (dispatchEvent_world ev w) as (Hp & Hw & Hc & Hs).
  unfold logged. repeat split; try done. right. exists ev.
  by rewrite dispatchEvent_calls.
Qed.

Lemma send_logged {S} (l : logger) (level : Level) (err : error) (message : string)
    (w : world S) :
  severity level → logged l w (send l level err message w).
Proof.
  intros Hsev. unfold send, bind, cfg_get. simpl.
  destruct (N.ltb_spec (cfg_threshold (published w)) level).
  - apply logged_nothing.
  - pose proof (logged_dispatch l (newEvent (context l) level err message) w Hsev eq_refl H)
      as Hl.
    unfold logged, world_of, calls_of in *.
    destruct (dispatchEvent _ w) as [[u w1] t1]. simpl in *. exact Hl.
Qed.

Lemma sendf_logged {S} (Sprintf : string → list value → string) (l : logger)
    (level : Level) (err : error) (format : string) (values : list value) (w : world S) :
  severity level → logged l w (sendf Sprintf l level err format values w).
Proof.
  intros Hsev. unfold sendf, bind, cfg_get. simpl.
  destruct (N.ltb_spec (cfg_threshold (published w)) level).
  - apply logged_nothing.
  - pose proof (logged_dispatch l (newEventf Sprintf (context l) level err format values) w
                  Hsev eq_refl H) as Hl.
    unfold logged, world_of, calls_of in *.
    destruct (dispatchEvent _ w) as [[u w1] t1]. simpl in *. exact Hl.
Qed.

Lemma sendRecovery_logged {S} (l : logger) (cause message : string) (w : world S) :
  logged l w (sendRecovery l cause message w).
Proof.
  unfold sendRecovery, bind, cfg_get. simpl.
  destruct (N.ltb_spec (cfg_threshold (published w)) FATAL).
  - apply logged_nothing.
  - pose proof (logged_dispatch l (mkEvent FATAL (context l) (Some cause) message) w
                  (or_introl eq_refl) eq_refl H) as Hl.
    unfold logged, world_of, calls_of in *.
    destruct (dispatchEvent _ w) as [[u w1] t1]. simpl in *. exact Hl.
Qed.

Lemma sendPanic_logged {S} (l : logger) (cause message : string) (w : world S) :
  logged l w (sendPanic l cause message w) ∧
  result_of (sendPanic l cause message w) = cause.
Proof.
  unfold sendPanic, bind, cfg_get. cbv beta iota zeta.
  destruct (N.ltb_spec (cfg_threshold (published w)) FATAL).
  - split; [apply logged_nothing|done].
  - pose proof (logged_dispatch l (mkEvent FATAL (context l) (Some cause) message) w
                  (or_introl eq_refl) eq_refl H) as Hl.
    unfold logged, world_of, calls_of, result_of, ret in *.
    destruct (dispatchEvent _ w) as [[u w1] t1]. simpl in *.
    rewrite app_nil_r. done.
Qed.

Lemma sendPanicf_logged {S} (Sprintf : string → list value → string) (l : logger)
    (cause format : string) (values : list value) (w : world S) :
  logged l w (sendPanicf Sprintf l cause format values w) ∧
  result_of (sendPanicf Sprintf l cause format values w) = cause.
Proof.
  unfold sendPanicf, bind, cfg_get. cbv beta iota zeta.
  destruct (N.ltb_spec (cfg_threshold (published w)) FATAL).
  - split; [apply logged_nothing|done].
  - pose proof (logged_dispatch l
                  (mkEvent FATAL (context l) (Some cause) (Sprintf format values)) w
                  (or_introl eq_refl) eq_refl H) as Hl.
    unfold logged, world_of, calls_of, result_of, ret in *.
    destruct (dispatchEvent _ w) as [[u w1] t1]. simpl in *.
    rewrite app_nil_r. done.
Qed.

Lemma severity_levels :
  severity FATAL ∧ severity ERROR ∧ severity WARN ∧ severity INFO ∧ severity DEBUG.
Proof. unfold severity. repeat split; auto 6. Qed.

Lemma logger_call_logged {S} (Sprintf : string → list value → string) (l : logger)
    (lc : logcall) (w : world S) :
  logged l w (logger_call Sprintf l lc w).
Proof.
  destruct severity_levels as (HF & HE & HW & HI & HD).
  destruct lc as [m | f v | m | f v | m | f v | err m | err f v | cause m | cause f v
                 | ours rec m | ours cause m]; simpl.
  - apply logged_ret. by apply send_logged.
  - apply logged_ret. by apply sendf_logged.
  - apply logged_ret. by apply send_logged.
  - apply logged_ret. by apply sendf_logged.
  - apply logged_ret. by apply send_logged.
  - apply logged_ret. by apply sendf_logged.
  - apply logged_ret. unfold logger_Error. destruct err; [|apply logged_nothing].
    apply logged_ret. by apply send_logged.
  - apply logged_ret. unfold logger_Errorf. destruct err; [|apply logged_nothing].
    apply logged_ret. by apply sendf_logged.
  - unfold logger_Panic. destruct cause as [cause|]; [|apply logged_nothing].
    destruct (sendPanic_logged l cause m w) as [Hl _].
    unfold logged, bind, ret, world_of, calls_of in *.
    destruct (sendPanic l cause m w) as [[a w1] t1]. simpl in *. by rewrite app_nil_r.
  - unfold logger_Panicf. destruct cause as [cause|]; [|apply logged_nothing].
    destruct (sendPanicf_logged Sprintf l cause f v w) as [Hl _].
    unfold logged, bind, ret, world_of, calls_of in *.
    destruct (sendPanicf Sprintf l cause f v w) as [[a w1] t1]. simpl in *.
    by rewrite app_nil_r.
  - apply logged_ret. unfold logger_Recover.
    destruct rec; [|apply logged_nothing]. destruct ours; [apply logged_nothing|].
    apply sendRecovery_logged.
  - apply logged_ret. unfold logger_ReportRecovery.
    destruct cause; [|apply logged_nothing]. destruct ours; [apply logged_nothing|].
    apply sendRecovery_logged.
Qed.

Lemma dispatchEvent_sends_nonempty (reg : gmap Collector entry) (event : Event) :
  dispatchEvent_sends reg event ≠ [] ↔
  ∃ c e, reg !! c = Some e ∧ accepts e event = true.
Proof.
  split.
  - intros Hne. destruct (dispatchEvent_sends reg event) as [|x t] eqn:E; [done|].
    assert (Hx : x ∈ dispatchEvent_sends reg event) by (rewrite E; left).
    apply dispatchEvent_sends_elem in Hx as (c & e & Hc & Ha & _). eauto.
  - intros (c & e & Hc & Ha) Hnil.
    assert (Hx : worker_Send c (entry_worker e) event ∈ dispatchEvent_sends reg event).
    { apply dispatchEvent_sends_elem. eauto. }
    rewrite Hnil in Hx. by apply elem_of_nil in Hx.
Qed.

(** X8. EnabledFor reads the published threshold and changes nothing.  Under
    the threshold invariant, for a level from FATAL to DEBUG, it answers
    true exactly when some registered collector that is not degraded has a
    threshold that admits the level, which is exactly when logging at that
    level makes at least one Send. *)
Theorem EnabledFor_iff_collector {S} (l : logger) (level : Level) (err : error)
    (message : string) (w : world S) :
  threshold_invariant (published w) → severity level →
  let b := result_of (logger_EnabledFor l level w) in
  logger_EnabledFor l level w = (b, w, []) ∧
  (b = true ↔ ∃ c e, registry (published w) !! c = Some e ∧ degraded e = false ∧
                     (level <= threshold e)%N) ∧
  (b = true ↔ calls_of (send l level err message w) ≠ []).
Proof.
  intros Hinv Hsev b.
  assert (Hb : b = (level <=? cfg_threshold (published w))%N) by reflexivity.
  assert (H1 : b = true ↔ ∃ c e, registry (published w) !! c = Some e ∧
                                 degraded e = false ∧ (level <= threshold e)%N).
  { rewrite Hb, N.leb_le. destruct Hinv as [Hub Hatt]. split.
    - intros Hle. destruct Hatt as [(c & e & Hc & Hd & Ht) | [_ Ht]].
      + exists c, e. rewrite Ht. done.
      + rewrite Ht in Hle.
        unfold severity, OFF, FATAL, ERROR, WARN, INFO, DEBUG in *. lia.
    - intros (c & e & Hc & Hd & Hle). specialize (Hub c e Hc Hd). lia. }
  split; [done|]. split; [exact H1|].
  rewrite H1. destruct (send_calls l level err message w Hinv) as [-> _].
  rewrite dispatchEvent_sends_nonempty. split.
  - intros (c & e & Hc & Hd & Hle). exists c, e. split; [done|].
    apply accepts_spec. done.
  - intros (c & e & Hc & Ha). apply accepts_spec in Ha as [Hle Hd]. eauto.
Qed.

(** An instance: with one collector at WARN, ERROR is enabled. *)
Lemma EnabledFor_iff_collector_witness :
  let w := world_of (collect WARN 0 (Some 1%positive) (initial tt)) in
  threshold_invariant (published w) ∧ severity ERROR ∧
  logger_EnabledFor (NewLogger "test") ERROR w = (true, w, []).
Proof.
  intros w.
  assert (Hi : threshold_invariant (published w)) by apply updateThreshold_invariant.
  assert (Hs : severity ERROR) by (right; left; reflexivity).
  split; [exact Hi|]. split; [exact Hs|].
  exact (proj1 (EnabledFor_iff_collector (NewLogger "test") ERROR None "" w Hi Hs)).
Defined.

(** X9. Whatever logging method is called, every call that the method and
    its dispatcher make is a Send to the worker of a collector that is
    registered in the snapshot in force at the call, is not degraded there,
    and has a threshold (never OFF) that admits the event's level; the event
    has a level from FATAL to DEBUG and carries the logger's context.  (What
    the workers do with the event is not part of the statement.) *)
Theorem logging_reaches_only_admitting_collectors {S}
    (Sprintf : string → list value → string) (l : logger) (lc : logcall) (w : world S) :
  let r := logger_call Sprintf l lc w in
  ∀ x, x ∈ calls_of r →
       ∃ c e ev, x = worker_Send c (entry_worker e) ev ∧
                 registry (published w) !! c = Some e ∧
                 severity (ev_Level ev) ∧ ev_Context ev = context l ∧
                 (ev_Level ev <= threshold e)%N ∧ degraded e = false ∧
                 threshold e ≠ OFF.
Proof.
  intros r. destruct (logger_call_logged Sprintf l lc w) as (_ & _ & _ & _ & Hcalls).
  fold r in Hcalls.
  intros x Hx. destruct Hcalls as [Hnil | (ev & Hsev & Hctx & _ & Hcalls)].
  - rewrite Hnil in Hx. by apply elem_of_nil in Hx.
  - rewrite Hcalls in Hx.
    apply dispatchEvent_sends_elem in Hx as (c & e & Hreg & Ha & ->).
    apply accepts_spec in Ha as [Hle Hd].
    exists c, e, ev. repeat split; try done.
    intros Hoff. rewrite Hoff in Hle.
    unfold severity, OFF, FATAL, ERROR, WARN, INFO, DEBUG in *. lia.
Qed.

(** An instance: Warn with one collector registered at INFO. *)
Lemma logging_reaches_only_admitting_collectors_witness :
  let w := world_of (collect INFO 0 (Some 1%positive) (initial tt)) in
  let l := NewLogger "test" in
  let x := worker_Send 1%positive (syncWorkerRef 1) (mkEvent WARN (context l) None "careful") in
  x ∈ calls_of (logger_call (λ f _, f) l (call_Warn "careful") w) ∧
  ∃ c e ev, x = worker_Send c (entry_worker e) ev ∧ threshold e ≠ OFF.
Proof.
  intros w l x.
  assert (Hx : x ∈ calls_of (logger_call (λ f _, f) l (call_Warn "careful") w)).
  { vm_compute. apply list_elem_of_here. }
  split; [exact Hx|].
  destruct (logging_reaches_only_admitting_collectors (λ f _, f) l
              (call_Warn "careful") w x Hx)
    as (c & e & ev & Heq & _ & _ & _ & _ & _ & Hoff).
  exists c, e, ev. split; [exact Heq | exact Hoff].
Defined.

(** X10. Panic and Panicf do nothing for a nil cause; for any other cause
    they panic with that very cause whether or not an event is logged, and
    (under the threshold invariant) what they call before is the dispatch
    of a FATAL event that carries the cause as its error. *)
Theorem Panic_panics_with_cause {S} (Sprintf : string → list value → string)
    (l : logger) (message format : string) (values : list value) (w : world S) :
  logger_Panic l None message w = (None, w, []) ∧
  logger_Panicf Sprintf l None format values w = (None, w, []) ∧
  ∀ cause,
    result_of (logger_Panic l (Some cause) message w) = Some cause ∧
    result_of (logger_Panicf Sprintf l (Some cause) format values w) = Some cause ∧
    (threshold_invariant (published w) →
     calls_of (logger_Panic l (Some cause) message w) =
       dispatchEvent_sends (registry (published w))
         (mkEvent FATAL (context l) (Some cause) message) ∧
     calls_of (logger_Panicf Sprintf l (Some cause) format values w) =
       dispatchEvent_sends (registry (published w))
         (mkEvent FATAL (context l) (Some cause) (Sprintf format values))).
Proof.
  split; [done|]. split; [done|]. intros cause.
  unfold logger_Panic, logger_Panicf, sendPanic, sendPanicf, bind, cfg_get, ret,
    result_of, calls_of.
  cbv beta iota zeta.
  destruct (N.ltb_spec (cfg_threshold (published w)) FATAL) as [Hlt|Hge].
  - split; [done|]. split; [done|]. intros Hinv. simpl.
    split; symmetry; by eapply dispatchEvent_sends_below.
  - pose proof (dispatchEvent_calls (mkEvent FATAL (context l) (Some cause) message) w) as H1.
    pose proof (dispatchEvent_calls
                  (mkEvent FATAL (context l) (Some cause) (Sprintf format values)) w) as H2.
    unfold newEvent, newEventf. simpl ev_Level. simpl ev_Context. simpl ev_Message.
    destruct (dispatchEvent (mkEvent FATAL (context l) (Some cause) message) w)
      as [[u1 w1] t1].
    destruct (dispatchEvent (mkEvent FATAL (context l) (Some cause) (Sprintf format values)) w)
      as [[u2 w2] t2].
    unfold calls_of in H1, H2. simpl in *. subst t1 t2.
    rewrite !app_nil_r. done.
Qed.

(** An instance: Panic with one collector registered at DEBUG. *)
Lemma Panic_panics_with_cause_witness :
  let w := world_of (collect DEBUG 0 (Some 1%positive) (initial tt)) in
  let l := NewLogger "test" in
  threshold_invariant (published w) ∧
  calls_of (logger_Panic l (Some "boom") "failed" w) =
    [worker_Send 1%positive (syncWorkerRef 1)
       (mkEvent FATAL (context l) (Some "boom") "failed")].
Proof.
  intros w l.
  assert (Hi : threshold_invariant (published w)) by apply updateThreshold_invariant.
  split; [exact Hi|].
  destruct (proj2 (proj2 (Panic_panics_with_cause (λ f _, f) l "failed" "" [] w)) "boom")
    as (_ & _ & Hc).
  rewrite (proj1 (Hc Hi)). reflexivity.
Defined.




(** * Further properties of the workers *)

Lemma wrap_uint64_add (z n : Z) : wrap_uint64 (wrap_uint64 z + n) = wrap_uint64 (z + n).
Proof. unfold wrap_uint64. apply Zplus_mod_idemp_l. Qed.

Lemma wrap_uint64_range (z : Z) : 0 <= wrap_uint64 z < 2 ^ 64.
Proof. unfold wrap_uint64. apply Z.mod_pos_bound. lia. Qed.

Lemma asyncWorker_Sends_spec (es : list Event) :
  ∀ (w : asyncWorker) (q : chan),
    aw_queue w = Some q → ch_closed q = false →
    let free := Z.to_nat (ch_cap q - Z.of_nat (length (ch_buf q))) in
    asyncWorker_Sends w es =
    send_returns
      {| aw_drops := if (length es <=? free)%nat then aw_drops w
                     else wrap_uint64 (aw_drops w + Z.of_nat (length (drop free es)));
         aw_collector := aw_collector w;
         aw_queue := Some (mkChan (ch_buf q ++ take free es) (ch_cap q) false);
         aw_lastdrops := aw_lastdrops w |}.
Proof.
  induction es as [|e es IH]; intros w q Hq Hopen free.
  - cbn [asyncWorker_Sends length]. rewrite take_nil, app_nil_r.
    destruct (Nat.leb_spec 0 free) as [_|Hn]; [|lia].
    destruct w as [d c qq ld], q as [b cap cl]; simpl in *. by subst.
  - cbn [asyncWorker_Sends]. unfold asyncWorker_Send. rewrite Hq, Hopen.
    destruct (Z.ltb_spec (Z.of_nat (length (ch_buf q))) (ch_cap q)) as [Hfree|Hfull].
    + match goal with |- asyncWorker_Sends ?w1 es = _ =>
        rewrite (IH w1 (mkChan (ch_buf q ++ [e]) (ch_cap q) false) eq_refl eq_refl)
      end.
      cbn [aw_drops aw_collector aw_lastdrops ch_buf ch_cap length].
      rewrite length_app. cbn [length].
      assert (Hf : free = Datatypes.S (Z.to_nat (ch_cap q - Z.of_nat (length (ch_buf q) + 1))))
        by (subst free; lia).
      rewrite Hf. cbn [take drop]. rewrite <- app_assoc. cbn [app].
      reflexivity.
    + match goal with |- asyncWorker_Sends ?w1 es = _ =>
        rewrite (IH w1 q) by (simpl; first [exact Hq | exact Hopen | reflexivity])
      end.
      cbn [aw_drops aw_collector aw_lastdrops length].
      assert (Hf : free = 0%nat) by (subst free; lia).
      fold free. rewrite Hf. cbn [take drop]. rewrite !drop_0.
      f_equal. f_equal.
      destruct (Nat.leb_spec (length es) 0);
        destruct (Nat.leb_spec (Datatypes.S (length es)) 0); try lia.
      * f_equal. cbn [length]. lia.
      * rewrite wrap_uint64_add. f_equal. cbn [length]. lia.
Qed.

(** X13. Sends made one after the other on an asynchronous worker with an
    open queue never block or panic: the events fill the free places of the
    queue in the order sent, behind what is queued already, and each of the
    remaining events is dropped and counted in the drop counter (a uint64);
    nothing else of the worker changes.  Sending N+1 events to an empty queue
    of capacity N queues the first N and counts one drop. *)
Theorem asyncWorker_Sends_fill_then_drop (w : asyncWorker) (q : chan) (es : list Event) :
  aw_queue w = Some q → ch_closed q = false →
  let free := Z.to_nat (ch_cap q - Z.of_nat (length (ch_buf q))) in
  ∃ w', asyncWorker_Sends w es = send_returns w' ∧
        aw_queue w' = Some (mkChan (ch_buf q ++ take free es) (ch_cap q) false) ∧
        aw_collector w' = aw_collector w ∧ aw_lastdrops w' = aw_lastdrops w ∧
        ((length es ≤ free)%nat → aw_drops w' = aw_drops w) ∧
        ((free < length es)%nat →
           aw_drops w' = wrap_uint64 (aw_drops w + Z.of_nat (length es - free))) ∧
        (ch_buf q = [] → 0 <= ch_cap q → Z.of_nat (length es) = ch_cap q + 1 →
           0 <= aw_drops w < 2 ^ 64 - 1 →
           ∃ e, es = take (Z.to_nat (ch_cap q)) es ++ [e] ∧
                aw_queue w' = Some (mkChan (take (Z.to_nat (ch_cap q)) es) (ch_cap q) false) ∧
                aw_drops w' = aw_drops w + 1).
Proof.
  intros Hq Hopen free. eexists. split; [by apply asyncWorker_Sends_spec|]. simpl.
  fold free. split; [done|]. split; [done|]. split; [done|]. split; [|split].
  - intros Hle. destruct (Nat.leb_spec (length es) free); [done|lia].
  - intros Hlt. destruct (Nat.leb_spec (length es) free); [lia|]. by rewrite length_drop.
  - intros Hb Hcap Hlen Hd.
    assert (Hfree : free = Z.to_nat (ch_cap q)).
    { subst free. rewrite Hb. simpl. f_equal. lia. }
    rewrite Hfree, Hb. simpl.
    destruct (Nat.leb_spec (length es) (Z.to_nat (ch_cap q))) as [Hle|Hgt]; [lia|].
    assert (Hdrop : length (drop (Z.to_nat (ch_cap q)) es) = 1%nat)
      by (rewrite length_drop; lia).
    destruct (drop (Z.to_nat (ch_cap q)) es) as [|e [|e' rest]] eqn:E; try done.
    exists e. split; [|split; [done|]].
    + rewrite <- E. by rewrite take_drop.
    + simpl. unfold wrap_uint64. rewrite Z.mod_small; lia.
Qed.

(** An instance: two events for an empty queue of capacity 1. *)
Lemma asyncWorker_Sends_fill_then_drop_witness :
  let e1 := mkEvent DEBUG (NewContext "test") None "first" in
  let e2 := mkEvent DEBUG (NewContext "test") None "second" in
  let q := mkChan [] 1 false in
  let w := mkAsyncWorker 0 1%positive (Some q) 0 in
  aw_queue w = Some q ∧ ch_closed q = false ∧
  ∃ w', asyncWorker_Sends w [e1; e2] = send_returns w' ∧
        aw_queue w' = Some (mkChan [e1] 1 false) ∧ aw_drops w' = 1.
Proof.
  intros e1 e2 q w.
  assert (Hq : aw_queue w = Some q) by reflexivity.
  assert (Ho : ch_closed q = false) by reflexivity.
  split; [exact Hq|]. split; [exact Ho|].
  destruct (asyncWorker_Sends_fill_then_drop w q [e1; e2] Hq Ho)
    as (w' & Hs & Hqueue & _ & _ & _ & Hdrops & _).
  exists w'. split; [exact Hs|]. split; [exact Hqueue|].
  apply Hdrops. simpl. lia.
Defined.

(** ** Termination of the workers *)

Lemma Collect_calls_app (t1 t2 : list call) :
  Collect_calls (t1 ++ t2) = Collect_calls t1 ++ Collect_calls t2.
Proof. unfold Collect_calls. apply List.filter_app. Qed.

Lemma Collect_calls_dispatchEvent_sends (reg : gmap Collector entry) (event : Event) :
  Collect_calls (dispatchEvent_sends reg event) = [].
Proof.
  unfold dispatchEvent_sends. induction (map_to_list reg) as [|ce l IH]; [done|].
  simpl. rewrite Collect_calls_app, IH, app_nil_r.
  unfold dispatchEvent_body. by destruct (accepts ce.2 event).
Qed.

Lemma Collect_calls_delivered (c : Collector) (es : list Event) :
  Collect_calls (delivered c <$> es) = delivered c <$> es.
Proof.
  induction es as [|e es IH]; [done|]. unfold Collect_calls in *. simpl. by f_equal.
Qed.

Lemma Collect_calls_logger_Errorf {S} (Sprintf : string → list value → string)
    (l : logger) (err : error) (format : string) (values : list value) (w : world S) :
  Collect_calls (calls_of (logger_Errorf Sprintf l err format values w)) = [].
Proof.
  destruct err as [e|]; [|done]. unfold logger_Errorf, sendf, bind, cfg_get, ret.
  destruct (cfg_threshold (published w) <? ERROR)%N; [done|].
  pose proof (dispatchEvent_calls
                (newEventf Sprintf (context l) ERROR (Some e) format values) w) as Hc.
  destruct (dispatchEvent _ w) as [[u w1] t]. unfold calls_of in *; simpl in *.
  rewrite !app_nil_r, Hc. apply Collect_calls_dispatchEvent_sends.
Qed.

Lemma Collect_calls_closeCollector {S} (Sprintf : string → list value → string)
    (Closer : Collector → option (S → error * S)) (c : Collector) (w : world S) :
  Collect_calls (calls_of (closeCollector Sprintf Closer c w)) = [].
Proof.
  unfold closeCollector. destruct (Closer c) as [close|]; [|done].
  unfold bind, ret. destruct (close (collectors w)) as [err s].
  pose proof (Collect_calls_logger_Errorf Sprintf internalLogger err
                "Failed to close collector %s" [V_collector c]
                (mkWorld (published w) (sending w) (workersMade w) s)) as Hc.
  destruct (logger_Errorf _ _ _ _ _ _) as [[u w1] t]. unfold calls_of in *; simpl in *.
  by rewrite app_nil_r.
Qed.

(** One call of sendWithRetries on a collector that accepts. *)
Lemma sendWithRetries_healthy {S} (Sprintf : string → list value → string)
    (Collect : Collector → Event → S → outcome * S) (c : Collector) (event : Event)
    (w : world S) :
  healthy Collect c →
  ∃ w', sendWithRetries Sprintf Collect c event sendRetries w
        = (None, w', [delivered c event]).
Proof.
  intros Hh. unfold sendWithRetries. change (Z.to_nat (sendRetries + 1)) with 3%nat.
  unfold sendWithRetries_loop, bind, call_Collect, ret.
  pose proof (Hh event (collectors w)) as Hc.
  destruct (Collect c event (collectors w)) as [o s]. simpl in Hc. subst o.
  eexists. reflexivity.
Qed.

Lemma asyncWorker_sendEvent_healthy {S} (Sprintf : string → list value → string)
    (Collect : Collector → Event → S → outcome * S) (oor : Z) (fuel : nat)
    (startTime : Z) (aw : asyncWorker) (event : Event) (w : world S) :
  healthy Collect (aw_collector aw) →
  ∃ w', asyncWorker_sendEvent Sprintf Collect oor fuel startTime aw event w
        = (aw, w', [delivered (aw_collector aw) event]).
Proof.
  intros Hh. destruct (sendWithRetries_healthy Sprintf Collect _ event w Hh) as [w' Hs].
  exists w'. unfold asyncWorker_sendEvent, bind. rewrite Hs. reflexivity.
Qed.

Lemma syncWorker_sendEvent_healthy {S} (Sprintf : string → list value → string)
    (Collect : Collector → Event → S → outcome * S) (oor : Z) (fuel : nat)
    (startTime : Z) (sw : syncWorker) (event : Event) (w : world S) :
  healthy Collect (sw_collector sw) →
  ∃ w', syncWorker_sendEvent Sprintf Collect oor fuel startTime sw event w
        = (sw, w', [delivered (sw_collector sw) event]).
Proof.
  intros Hh. destruct (sendWithRetries_healthy Sprintf Collect _ event w Hh) as [w' Hs].
  exists w'. unfold syncWorker_sendEvent, bind. rewrite Hs. reflexivity.
Qed.

Lemma asyncWorker_handleDrops_reported {S} (Sprintf : string → list value → string)
    (Collect : Collector → Event → S → outcome * S) (oor : Z) (fuel : nat)
    (startTime : Z) (aw : asyncWorker) (w : world S) :
  aw_drops aw <= aw_lastdrops aw →
  asyncWorker_handleDrops Sprintf Collect oor fuel startTime aw w = (aw, w, []).
Proof.
  intros Hd. unfold asyncWorker_handleDrops.
  destruct (Z.gtb_spec (aw_drops aw) (aw_lastdrops aw)); [lia|done].
Qed.

Lemma asyncWorker_drain_healthy {S} (Sprintf : string → list value → string)
    (Collect : Collector → Event → S → outcome * S) (oor : Z) (fuel : nat)
    (startTime : Z) (q : chan) (es : list Event) (aw : asyncWorker) (w : world S) :
  healthy Collect (aw_collector aw) →
  ∃ aw' w', asyncWorker_drain Sprintf Collect oor fuel startTime aw q es w
            = (aw', w', delivered (aw_collector aw) <$> es) ∧
            with_queue aw' None = with_queue aw None.
Proof.
  revert aw w. induction es as [|e es IH]; intros aw w Hh.
  - by exists aw, w.
  - cbn [asyncWorker_drain]. unfold bind.
    set (aw1 := with_queue aw _).
    destruct (asyncWorker_sendEvent_healthy Sprintf Collect oor fuel startTime aw1 e w Hh)
      as [w1 Hs].
    rewrite Hs. destruct (IH aw1 w1 Hh) as (aw' & w' & Hd & Hq).
    rewrite Hd. exists aw', w'. split; [reflexivity|]. rewrite Hq. reflexivity.
Qed.

Lemma asyncWorker_cleanup_healthy {S} (Sprintf : string → list value → string)
    (Collect : Collector → Event → S → outcome * S)
    (Closer : Collector → option (S → error * S)) (oor : Z) (fuel : nat)
    (startTime : Z) (q : chan) (aw : asyncWorker) (flush : bool) (w : world S) :
  healthy Collect (aw_collector aw) → aw_queue aw = Some q →
  let r := asyncWorker_cleanup Sprintf Collect Closer oor fuel startTime aw flush w in
  result_of r = with_queue aw None ∧
  Collect_calls (calls_of r)
  = delivered (aw_collector aw) <$> (if flush then ch_buf q else []).
Proof.
  intros Hh Hq r. subst r. unfold asyncWorker_cleanup, bind. rewrite Hq.
  destruct flush.
  - destruct (asyncWorker_drain_healthy Sprintf Collect oor fuel startTime q (ch_buf q)
                aw w Hh) as (aw' & w' & Hd & Hn).
    rewrite Hd.
    assert (Hc : aw_collector aw' = aw_collector aw)
      by (change (aw_collector (with_queue aw' None) = aw_collector (with_queue aw None));
          by rewrite Hn).
    pose proof (Collect_calls_closeCollector Sprintf Closer (aw_collector aw') w') as Hcl.
    destruct (closeCollector Sprintf Closer (aw_collector aw') w') as [[u w2] t].
    unfold result_of, calls_of, ret in *; simpl in *.
    split; [exact Hn|].
    by rewrite app_nil_r, Collect_calls_app, Hcl, app_nil_r, Collect_calls_delivered.
  - unfold ret.
    pose proof (Collect_calls_closeCollector Sprintf Closer (aw_collector aw) w) as Hcl.
    destruct (closeCollector Sprintf Closer (aw_collector aw) w) as [[u w2] t].
    unfold result_of, calls_of in *; simpl in *.
    split; [done|]. by rewrite app_nil_r.
Qed.

Lemma asyncWorker_run_closed_healthy {S} (Sprintf : string → list value → string)
    (Collect : Collector → Event → S → outcome * S)
    (Closer : Collector → option (S → error * S)) (oor : Z) (fuel : nat)
    (startTime : Z) (k : nat) (flush : bool) (q : chan) (aw : asyncWorker) (w : world S) :
  healthy Collect (aw_collector aw) → aw_queue aw = Some q → ch_closed q = true →
  aw_drops aw <= aw_lastdrops aw →
  let r := asyncWorker_run_closed Sprintf Collect Closer oor fuel startTime k aw flush w in
  result_of r = with_queue aw None ∧
  Collect_calls (calls_of r)
  = delivered (aw_collector aw) <$> (if flush then ch_buf q else take k (ch_buf q)).
Proof.
  revert q aw w. induction k as [|k IH]; intros q aw w Hh Hq Hcl Hd.
  - cbn [asyncWorker_run_closed take].
    apply (asyncWorker_cleanup_healthy Sprintf Collect Closer oor fuel startTime q); done.
  - cbn [asyncWorker_run_closed]. unfold bind, asyncWorker_run_queue. rewrite Hq.
    destruct (ch_buf q) as [|e rest] eqn:Eb.
    + rewrite Hcl. unfold bind.
      rewrite asyncWorker_handleDrops_reported by done. unfold ret.
      destruct (IH q aw w Hh Hq Hcl Hd) as [Hr Hc]. rewrite Eb in Hc.
      destruct (asyncWorker_run_closed _ _ _ _ _ _ k aw flush w) as [[aw' w'] t].
      unfold result_of, calls_of in *; simpl in *. split; [done|].
      rewrite Hc. destruct flush; [done|]. by rewrite take_nil.
    + unfold bind. set (aw1 := with_queue aw _).
      rewrite asyncWorker_handleDrops_reported by done.
      destruct (asyncWorker_sendEvent_healthy Sprintf Collect oor fuel startTime aw1 e w Hh)
        as [w1 Hs].
      rewrite Hs. unfold ret.
      destruct (IH (mkChan rest (ch_cap q) (ch_closed q)) aw1 w1 Hh eq_refl Hcl Hd)
        as [Hr Hc].
      destruct (asyncWorker_run_closed _ _ _ _ _ _ k aw1 flush w1) as [[aw' w'] t].
      unfold result_of, calls_of in *; simpl in *. split; [done|].
      unfold Collect_calls in *. simpl. rewrite Hc. by destruct flush.
Qed.

Lemma asyncWorker_cleanup_queue {S} (Sprintf : string → list value → string)
    (Collect : Collector → Event → S → outcome * S)
    (Closer : Collector → option (S → error * S)) (oor : Z) (fuel : nat)
    (startTime : Z) (flush : bool) (aw : asyncWorker) (w : world S) :
  aw_queue (result_of
              (asyncWorker_cleanup Sprintf Collect Closer oor fuel startTime aw flush w))
  = None.
Proof.
  unfold asyncWorker_cleanup, bind.
  destruct (aw_queue aw) as [q|]; [destruct flush|].
  - destruct (asyncWorker_drain Sprintf Collect oor fuel startTime aw q (ch_buf q) w)
      as [[aw1 w1] t1].
    by destruct (closeCollector Sprintf Closer (aw_collector aw1) w1) as [[u w2] t2].
  - unfold ret.
    by destruct (closeCollector Sprintf Closer (aw_collector aw) w) as [[u w2] t2].
  - unfold ret.
    by destruct (closeCollector Sprintf Closer (aw_collector aw) w) as [[u w2] t2].
Qed.

Lemma asyncWorker_run_closed_queue {S} (Sprintf : string → list value → string)
    (Collect : Collector → Event → S → outcome * S)
    (Closer : Collector → option (S → error * S)) (oor : Z) (fuel : nat)
    (startTime : Z) (k : nat) (flush : bool) (aw : asyncWorker) (w : world S) :
  aw_queue (result_of
              (asyncWorker_run_closed Sprintf Collect Closer oor fuel startTime k aw flush w))
  = None.
Proof.
  revert aw w. induction k as [|k IH]; intros aw w.
  - apply asyncWorker_cleanup_queue.
  - cbn [asyncWorker_run_closed]. unfold bind.
    destruct (asyncWorker_run_queue Sprintf Collect oor fuel startTime aw w)
      as [[[aw1|] w1] t1].
    + specialize (IH aw1 w1).
      by destruct (asyncWorker_run_closed _ _ _ _ _ _ k aw1 flush w1) as [[aw' w'] t].
    + pose proof (asyncWorker_cleanup_queue Sprintf Collect Closer oor fuel startTime
                    flush aw w1) as Hn.
      by destruct (asyncWorker_cleanup _ _ _ _ _ _ aw flush w1) as [[aw' w'] t].
Qed.

(** X14. Terminate on an asynchronous worker whose collector accepts every
    event and whose drops have all been reported: whatever the number of
    times the loop still takes the queue case before it sees the terminate
    flag, with flush = true the collector is given every queued event, once
    each and in the order queued; with flush = false it is given only the
    events the loop received before it saw the flag, and the rest of the queue
    is discarded.  Either way the worker is left with a nil queue. *)
Theorem asyncWorker_Terminate_flush {S} (Sprintf : string → list value → string)
    (Collect : Collector → Event → S → outcome * S)
    (Closer : Collector → option (S → error * S)) (oor : Z) (fuel : nat)
    (startTime : Z) (k : nat) (q : chan) (aw : asyncWorker) (w : world S) :
  healthy Collect (aw_collector aw) → aw_queue aw = Some q → ch_closed q = false →
  aw_drops aw <= aw_lastdrops aw →
  let r flush :=
    asyncWorker_Terminate Sprintf Collect Closer oor fuel startTime k aw flush w in
  result_of (r true) = Some (with_queue aw None) ∧
  result_of (r false) = Some (with_queue aw None) ∧
  Collect_calls (calls_of (r true)) = delivered (aw_collector aw) <$> ch_buf q ∧
  Collect_calls (calls_of (r false)) = delivered (aw_collector aw) <$> take k (ch_buf q).
Proof.
  intros Hh Hq Hopen Hd r.
  assert (Hr : ∀ flush,
    result_of (r flush) = Some (with_queue aw None) ∧
    Collect_calls (calls_of (r flush))
    = delivered (aw_collector aw) <$> (if flush then ch_buf q else take k (ch_buf q))).
  { intros flush. subst r. unfold asyncWorker_Terminate, close_queue.
    rewrite Hq, Hopen. unfold bind. set (aw1 := with_queue aw _).
    destruct (asyncWorker_run_closed_healthy Sprintf Collect Closer oor fuel startTime
                k flush (mkChan (ch_buf q) (ch_cap q) true) aw1 w Hh eq_refl eq_refl Hd)
      as [Hr Hc].
    destruct (asyncWorker_run_closed _ _ _ _ _ _ k aw1 flush w) as [[aw' w'] t].
    unfold result_of, calls_of, ret in *; simpl in *. rewrite app_nil_r.
    split; [by rewrite Hr|exact Hc]. }
  destruct (Hr true) as [H1 H2], (Hr false) as [H3 H4]. done.
Qed.

(** An instance: two queued events, and a loop that takes the queue case
    once before it sees the flag. *)
Lemma asyncWorker_Terminate_flush_witness :
  let e1 := mkEvent DEBUG (NewContext "test") None "first" in
  let e2 := mkEvent DEBUG (NewContext "test") None "second" in
  let Collect := λ (c : Collector) (event : Event) (s : list Event),
                   capturingCollector_Collect event s in
  let aw := mkAsyncWorker 0 1%positive (Some (mkChan [e1; e2] 2 false)) 0 in
  let r flush := asyncWorker_Terminate (λ f _, f) Collect (λ _, None) 0 0 0 1 aw flush
                   (initial []) in
  Collect_calls (calls_of (r true)) = [delivered 1%positive e1; delivered 1%positive e2] ∧
  Collect_calls (calls_of (r false)) = [delivered 1%positive e1].
Proof.
  intros e1 e2 Collect aw r.
  assert (Hh : healthy Collect (aw_collector aw)) by (intros event s; reflexivity).
  assert (Hd : aw_drops aw <= aw_lastdrops aw) by (simpl; lia).
  destruct (asyncWorker_Terminate_flush (λ f _, f) Collect (λ _, None) 0 0 0 1
              (mkChan [e1; e2] 2 false) aw (initial []) Hh eq_refl eq_refl Hd)
    as (_ & _ & Ht & Hf).
  split; [exact Ht|exact Hf].
Defined.

Lemma asyncWorker_Terminate_panics {S} (Sprintf : string → list value → string)
    (Collect : Collector → Event → S → outcome * S)
    (Closer : Collector → option (S → error * S)) (oor : Z) (fuel : nat)
    (startTime : Z) (k : nat) (aw : asyncWorker) (flush : bool) (w : world S) :
  aw_queue aw = None ∨ (∃ q, aw_queue aw = Some q ∧ ch_closed q = true) →
  asyncWorker_Terminate Sprintf Collect Closer oor fuel startTime k aw flush w
  = (None, w, []).
Proof.
  unfold asyncWorker_Terminate, close_queue.
  intros [Hn|(q & Hq & Hc)]; [by rewrite Hn|by rewrite Hq, Hc].
Qed.

(** X15. Terminate on an asynchronous worker whose queue is nil or closed
    already panics in close, before anything else is done, whatever the
    collector.  On a worker with an open queue whose collector accepts every
    event and whose drops have all been reported, Terminate returns, with
    either flag, and leaves the queue nil: an event sent to the worker
    afterwards is dropped and counted, without a panic, and a second
    Terminate panics in close. *)
Theorem asyncWorker_after_Terminate {S} (Sprintf : string → list value → string)
    (Collect : Collector → Event → S → outcome * S)
    (Closer : Collector → option (S → error * S)) (oor : Z) (fuel : nat)
    (startTime : Z) (k k' : nat) (aw : asyncWorker) (flush flush' : bool)
    (e : Event) (w w' : world S) :
  let r := asyncWorker_Terminate Sprintf Collect Closer oor fuel startTime k aw flush w in
  (aw_queue aw = None ∨ (∃ q, aw_queue aw = Some q ∧ ch_closed q = true) →
   r = (None, w, [])) ∧
  (healthy Collect (aw_collector aw) → aw_drops aw <= aw_lastdrops aw →
   (∃ q, aw_queue aw = Some q ∧ ch_closed q = false) →
   let aw' := with_queue aw None in
   result_of r = Some aw' ∧
   asyncWorker_Send aw' e
   = send_returns (mkAsyncWorker (wrap_uint64 (aw_drops aw + 1)) (aw_collector aw)
                                 None (aw_lastdrops aw)) ∧
   asyncWorker_Terminate Sprintf Collect Closer oor fuel startTime k' aw' flush' w'
   = (None, w', [])).
Proof.
  intros r. split; [apply asyncWorker_Terminate_panics|].
  intros Hh Hd (q & Hq & Hopen) aw'.
  assert (Hr : result_of r = Some aw').
  { subst r. unfold asyncWorker_Terminate, close_queue. rewrite Hq, Hopen. unfold bind.
    set (aw1 := with_queue aw _).
    destruct (asyncWorker_run_closed_healthy Sprintf Collect Closer oor fuel startTime
                k flush (mkChan (ch_buf q) (ch_cap q) true) aw1 w Hh eq_refl eq_refl Hd)
      as [Hr _].
    destruct (asyncWorker_run_closed _ _ _ _ _ _ k aw1 flush w) as [[aw2 w2] t].
    unfold result_of, ret in *; simpl in *. by rewrite Hr. }
  split; [exact Hr|]. split; [reflexivity|].
  apply asyncWorker_Terminate_panics. by left.
Qed.

(** An instance: a worker with one queued event, terminated and then sent
    one more event. *)
Lemma asyncWorker_after_Terminate_witness :
  let e1 := mkEvent DEBUG (NewContext "test") None "first" in
  let e2 := mkEvent DEBUG (NewContext "test") None "second" in
  let Collect := λ (c : Collector) (event : Event) (s : list Event),
                   capturingCollector_Collect event s in
  let aw := mkAsyncWorker 0 1%positive (Some (mkChan [e1] 2 false)) 0 in
  let r := asyncWorker_Terminate (λ f _, f) Collect (λ _, None) 0 0 0 0 aw true
             (initial []) in
  healthy Collect (aw_collector aw) ∧ aw_drops aw <= aw_lastdrops aw ∧
  result_of r = Some (with_queue aw None) ∧
  asyncWorker_Send (with_queue aw None) e2
  = send_returns (mkAsyncWorker 1 1%positive None 0).
Proof.
  intros e1 e2 Collect aw r.
  assert (Hh : healthy Collect (aw_collector aw)) by (intros event s; reflexivity).
  assert (Hd : aw_drops aw <= aw_lastdrops aw) by (simpl; lia).
  split; [exact Hh|]. split; [exact Hd|].
  destruct (proj2 (asyncWorker_after_Terminate (λ f _, f) Collect (λ _, None) 0 0 0 0 0
                     aw true true e2 (initial []) (initial [])) Hh Hd
              (ex_intro _ (mkChan [e1] 2 false) (conj eq_refl eq_refl)))
    as (Hr & Hs & _).
  split; [exact Hr|exact Hs].
Defined.

Lemma syncWorker_Sends_terminated {S} (Sprintf : string → list value → string)
    (Collect : Collector → Event → S → outcome * S) (oor : Z) (fuel : nat)
    (startTime : Z) (sw : syncWorker) (es : list Event) (w : world S) :
  sw_terminated sw = true →
  syncWorker_Sends Sprintf Collect oor fuel startTime sw es w = (sw, w, []).
Proof.
  intros Ht. induction es as [|e es IH]; [done|].
  cbn [syncWorker_Sends]. unfold bind, syncWorker_Send. rewrite Ht. unfold ret.
  by rewrite IH.
Qed.

Lemma syncWorker_Sends_healthy {S} (Sprintf : string → list value → string)
    (Collect : Collector → Event → S → outcome * S) (oor : Z) (fuel : nat)
    (startTime : Z) (sw : syncWorker) (es : list Event) (w : world S) :
  healthy Collect (sw_collector sw) → sw_terminated sw = false →
  ∃ w', syncWorker_Sends Sprintf Collect oor fuel startTime sw es w
        = (sw, w', delivered (sw_collector sw) <$> es).
Proof.
  intros Hh Ht. revert w. induction es as [|e es IH]; intros w; [by exists w|].
  cbn [syncWorker_Sends]. unfold bind, syncWorker_Send. rewrite Ht.
  destruct (syncWorker_sendEvent_healthy Sprintf Collect oor fuel startTime sw e w Hh)
    as [w1 Hs].
  rewrite Hs. destruct (IH w1) as [w' Hr]. rewrite Hr. by exists w'.
Qed.

(** X16. A synchronous worker whose collector accepts every event delivers
    the events sent to it before Terminate in the order sent, once each, and
    keeps its drop counter; Terminate makes no Collect call; and events sent
    after Terminate are ignored: nothing is called and nothing changes. *)
Theorem syncWorker_delivers_until_terminated {S}
    (Sprintf : string → list value → string)
    (Collect : Collector → Event → S → outcome * S)
    (Closer : Collector → option (S → error * S)) (oor : Z) (fuel : nat)
    (startTime : Z) (sw : syncWorker) (flush : bool) (es es' : list Event) (w : world S) :
  healthy Collect (sw_collector sw) → sw_terminated sw = false →
  let r1 := syncWorker_Sends Sprintf Collect oor fuel startTime sw es w in
  let r2 := syncWorker_Terminate Sprintf Closer (result_of r1) flush (world_of r1) in
  let r3 := syncWorker_Sends Sprintf Collect oor fuel startTime (result_of r2) es'
              (world_of r2) in
  result_of r1 = sw ∧
  calls_of r1 = delivered (sw_collector sw) <$> es ∧
  Collect_calls (calls_of r2) = [] ∧
  r3 = (mkSyncWorker (sw_collector sw) true (sw_drops sw), world_of r2, []).
Proof.
  intros Hh Ht r1 r2 r3.
  destruct (syncWorker_Sends_healthy Sprintf Collect oor fuel startTime sw es w Hh Ht)
    as [w1 H1].
  subst r3 r2 r1. rewrite H1. unfold result_of at 1, calls_of at 1, world_of at 2 4.
  cbn [fst snd]. split; [done|]. split; [done|].
  unfold result_of, world_of; cbn [fst snd].
  unfold syncWorker_Terminate, bind, ret.
  pose proof (Collect_calls_closeCollector Sprintf Closer (sw_collector sw) w1) as Hc.
  destruct (closeCollector Sprintf Closer (sw_collector sw) w1) as [[u w2] t].
  unfold calls_of in *; cbn [fst snd] in *. rewrite app_nil_r. split; [exact Hc|].
  by apply syncWorker_Sends_terminated.
Qed.

(** An instance: two events before and one after the termination of the
    worker of a capturing collector. *)
Lemma syncWorker_delivers_until_terminated_witness :
  let e1 := mkEvent DEBUG (NewContext "test") None "first" in
  let e2 := mkEvent DEBUG (NewContext "test") None "second" in
  let Collect := λ (c : Collector) (event : Event) (s : list Event),
                   capturingCollector_Collect event s in
  let sw := newSyncWorker 1%positive in
  let r1 := syncWorker_Sends (λ f _, f) Collect 0 0 0 sw [e1; e2] (initial []) in
  calls_of r1 = [delivered 1%positive e1; delivered 1%positive e2].
Proof.
  intros e1 e2 Collect sw r1.
  assert (Hh : healthy Collect (sw_collector sw)) by (intros event s; reflexivity).
  exact (proj1 (proj2 (syncWorker_delivers_until_terminated (λ f _, f) Collect
                         (λ _, None) 0 0 0 sw true [e1; e2] [e1] (initial []) Hh eq_refl))).
Defined.

(** ** The notice of a degradation *)

(** The notice goroutine run in a state that satisfies the invariant. *)
Lemma degradation_notice_calls {S} (Sprintf : string → list value → string)
    (c : Collector) (msg : string) (drops : Z) (w : world S) :
  threshold_invariant (published w) →
  calls_of (degradation_notice Sprintf c (Some msg) drops w)
  = dispatchEvent_sends (registry (published w))
      (degraded_event Sprintf c (Some msg) drops) ∧
  published (world_of (degradation_notice Sprintf c (Some msg) drops w)) = published w.
Proof.
  intros Hinv. unfold degradation_notice, logger_Errorf, bind.
  destruct (sendf_calls Sprintf (logger_WithFields internalLogger [("drops", V_int drops)])
              ERROR (Some msg) "Collector has entered a degraded state: %s"
              [V_collector c] w Hinv) as [Ht Hp].
  destruct (sendf Sprintf _ ERROR (Some msg) _ _ w) as [[u w1] t].
  unfold calls_of, world_of, ret in *; simpl in *. rewrite app_nil_r. by split.
Qed.

(** The calls of handleDegradation, with the notice goroutine at either of
    its places: the dispatch of the notice is over the registry in which the
    collector is marked degraded when the goroutine runs at once, and over
    the registry in force at the end when it runs late; no other event of
    level ERROR is sent. *)
Lemma handleDegradation_sched_calls {S} (Sprintf : string → list value → string)
    (Collect : Collector → Event → S → outcome * S) (oor : Z) (late : bool) (fuel : nat)
    (c : Collector) (e : entry) (msg : string) (drops startTime : Z) (w : world S) :
  registry (published w) !! c = Some e →
  let reg := registry (published w) in
  let reg1 := <[c := mkEntry (threshold e) true (entry_worker e)]> reg in
  let notice := degraded_event Sprintf c (Some msg) drops in
  let r := handleDegradation_sched Sprintf Collect oor late fuel c (Some msg) drops
             startTime w in
  let reg_end := match result_of r with
                 | ensured_sent _ => <[c := mkEntry (threshold e) false (entry_worker e)]> reg
                 | ensured_panic _ => delete c reg
                 | ensured_looping => reg1
                 end in
  ∃ cfg1 mid,
    calls_of r = cfg_set cfg1 :: (if late then [] else dispatchEvent_sends reg1 notice)
                 ++ mid ++ (if late then dispatchEvent_sends reg_end notice else []) ∧
    ∀ c' wk ev, worker_Send c' wk ev ∈ mid → ev_Level ev ≠ ERROR.
Proof.
  intros Hc reg reg1 notice r. subst r. unfold handleDegradation_sched, bind.
  destruct (setDegraded_registered c true e w Hc) as [Ht1 Hw1].
  destruct (setDegraded c true w) as [[u1 w1] t1].
  unfold calls_of, world_of in Ht1, Hw1; simpl in Ht1, Hw1. subst t1.
  fold reg reg1 in Hw1 |- *.
  set (cfg1 := updateThreshold (with_registry (published w) reg1)) in *.
  assert (Hinv1 : threshold_invariant (published w1)).
  { rewrite Hw1. apply updateThreshold_invariant. }
  assert (Hreg1 : registry (published w1) = reg1) by (by rewrite Hw1).
  (* the notice, when it runs at once *)
  assert (H2 : ∃ u2 w2 t2,
    (if late then ret None else degradation_notice Sprintf c (Some msg) drops) w1
    = (u2, w2, t2) ∧ published w2 = published w1 ∧
    t2 = if late then [] else dispatchEvent_sends reg1 notice).
  { destruct late.
    - by exists None, w1, [].
    - destruct (degradation_notice_calls Sprintf c msg drops w1 Hinv1) as [Ht Hp].
      destruct (degradation_notice Sprintf c (Some msg) drops w1) as [[u2 w2] t2].
      unfold calls_of, world_of in *; simpl in *. exists u2, w2, t2.
      split; [done|]. split; [done|]. by rewrite Ht, Hreg1. }
  destruct H2 as (u2 & w2 & t2 & -> & Hp2 & Ht2).
  destruct (ensureErrorSent_frame Sprintf Collect oor fuel c (Some msg) drops startTime 0 w2)
    as [Hp3 Ht3].
  destruct (ensureErrorSent Sprintf Collect oor fuel c (Some msg) drops startTime 0 w2)
    as [[r3 w3] t3].
  unfold calls_of, world_of in Hp3, Ht3; simpl in Hp3, Ht3.
  assert (Hreg3 : registry (published w3) = reg1) by (by rewrite Hp3, Hp2).
  assert (Hc3 : registry (published w3) !! c
                = Some (mkEntry (threshold e) true (entry_worker e))).
  { rewrite Hreg3. apply lookup_insert_eq. }
  (* the rest of the function *)
  assert (H4 : ∃ w4 t4,
    handleDegradation_end Sprintf c r3 w3 = (r3, w4, t4) ∧
    threshold_invariant (published w4) ∧
    registry (published w4)
    = match r3 with
      | ensured_sent _ => <[c := mkEntry (threshold e) false (entry_worker e)]> reg
      | ensured_panic _ => delete c reg
      | ensured_looping => reg1
      end ∧
    ∀ c' wk ev, worker_Send c' wk ev ∈ t4 → ev_Level ev ≠ ERROR).
  { unfold handleDegradation_end. destruct r3 as [n3|cause|].
    - unfold bind. destruct (setDegraded_registered c false _ w3 Hc3) as [Ht4 Hw4].
      destruct (setDegraded c false w3) as [[u4 w4] t4].
      unfold calls_of, world_of in Ht4, Hw4; simpl in Ht4, Hw4.
      assert (Hinv4 : threshold_invariant (published w4)).
      { rewrite Hw4. apply updateThreshold_invariant. }
      destruct (sendf_calls Sprintf internalLogger WARN None
                  "Collector has recovered from a degraded stated: %s" [V_collector c]
                  w4 Hinv4) as [Ht5 Hp5].
      unfold logger_Warnf.
      destruct (sendf Sprintf internalLogger WARN None _ _ w4) as [[u5 w5] t5].
      unfold calls_of, world_of in Ht5, Hp5; simpl in Ht5, Hp5.
      exists w5, (t4 ++ t5). unfold ret. rewrite app_nil_r.
      split; [done|]. split; [by rewrite Hp5|]. split.
      + rewrite Hp5, Hw4. simpl. rewrite Hreg3. subst reg1.
        by rewrite insert_insert_eq.
      + intros c' wk ev Hin. apply elem_of_app in Hin as [Hin|Hin].
        * rewrite Ht4 in Hin. apply elem_of_cons in Hin as [Hin|Hin]; [discriminate|].
          by apply elem_of_nil in Hin.
        * rewrite Ht5 in Hin.
          apply dispatchEvent_sends_elem in Hin as (c1 & e1 & _ & _ & Heq).
          injection Heq as _ _ ->. discriminate.
    - unfold bind. destruct (recoverCollector_registered Sprintf c _ cause w3 Hc3) as [Ht4 Hp4].
      destruct (recoverCollector Sprintf c (Some cause) w3) as [[u4 w4] t4].
      unfold calls_of, world_of in Ht4, Hp4; simpl in Ht4, Hp4.
      exists w4, t4. unfold ret. rewrite app_nil_r.
      split; [done|]. split; [rewrite Hp4; apply updateThreshold_invariant|]. split.
      + rewrite Hp4. simpl. rewrite Hreg3. subst reg1. by rewrite delete_insert_eq.
      + intros c' wk ev Hin. rewrite Ht4 in Hin.
        apply elem_of_cons in Hin as [Hin|Hin]; [discriminate|].
        apply elem_of_cons in Hin as [Hin|Hin]; [discriminate|].
        apply dispatchEvent_sends_elem in Hin as (c1 & e1 & _ & _ & Heq).
        injection Heq as _ _ ->. discriminate.
    - exists w3, []. split; [done|]. split; [by rewrite Hp3, Hp2|].
      split; [done|]. intros c' wk ev Hin. by apply elem_of_nil in Hin. }
  destruct H4 as (w4 & t4 & -> & Hinv4 & Hreg4 & Ht4).
  (* the notice, when it runs late *)
  assert (H5 : ∃ u5 w5 t5,
    (if late then degradation_notice Sprintf c (Some msg) drops else ret None) w4
    = (u5, w5, t5) ∧
    t5 = if late then dispatchEvent_sends (registry (published w4)) notice else []).
  { destruct late.
    - destruct (degradation_notice_calls Sprintf c msg drops w4 Hinv4) as [Ht Hp].
      destruct (degradation_notice Sprintf c (Some msg) drops w4) as [[u5 w5] t5].
      unfold calls_of in *; simpl in *. by exists u5, w5, t5.
    - by exists None, w4, []. }
  destruct H5 as (u5 & w5 & t5 & -> & Ht5).
  unfold calls_of, result_of, ret; cbn [fst snd].
  exists cfg1, (t3 ++ t4). split.
  - rewrite Ht2, Ht5, Hreg4, app_nil_r. simpl. by rewrite <- !app_assoc.
  - intros c' wk ev Hin. apply elem_of_app in Hin as [Hin|Hin].
    + apply Ht3 in Hin. discriminate.
    + by apply (Ht4 c' wk ev).
Qed.

(** X17. The notice of a degradation, at either place of its goroutine.
    When handleDegradation is entered for a registered collector with an
    error, the ERROR event that announces it is sent to every other
    registered collector that is not degraded and whose threshold admits
    ERROR, and to no other of them.  When the goroutine of the notice runs
    where it is started, the notice is not sent to the degraded collector
    itself, however the recovery loop goes on; when it runs only after the
    rest of handleDegradation, the collector itself is sent the notice
    exactly when its probe has been accepted by then (its flag is cleared)
    and its own threshold admits ERROR. *)
Theorem handleDegradation_notice {S} (Sprintf : string → list value → string)
    (Collect : Collector → Event → S → outcome * S) (oor : Z) (late : bool) (fuel : nat)
    (c : Collector) (e : entry) (msg : string) (drops startTime : Z) (w : world S) :
  registry (published w) !! c = Some e →
  let r := handleDegradation_sched Sprintf Collect oor late fuel c (Some msg) drops
             startTime w in
  let notice := degraded_event Sprintf c (Some msg) drops in
  ev_Level notice = ERROR ∧
  (late = false →
   r = handleDegradation Sprintf Collect oor fuel c (Some msg) drops startTime w) ∧
  (∀ c' e', registry (published w) !! c' = Some e' → c' ≠ c →
     (worker_Send c' (entry_worker e') notice ∈ calls_of r ↔
      (ERROR <= threshold e')%N ∧ degraded e' = false)) ∧
  (∀ c' wk, worker_Send c' wk notice ∈ calls_of r →
     ∃ e', registry (published w) !! c' = Some e' ∧ (c' ≠ c → wk = entry_worker e')) ∧
  (∀ wk, worker_Send c wk notice ∈ calls_of r ↔
     late = true ∧ (∃ n, result_of r = ensured_sent n) ∧
     (ERROR <= threshold e)%N ∧ wk = entry_worker e).
Proof.
  intros Hc r notice.
  destruct (handleDegradation_sched_calls Sprintf Collect oor late fuel c e msg drops
              startTime w Hc) as (cfg1 & mid & Hcalls & Hmid).
  fold r notice in Hcalls.
  set (reg := registry (published w)) in *.
  set (reg1 := <[c := mkEntry (threshold e) true (entry_worker e)]> reg) in *.
  set (reg_end := match result_of r with
                  | ensured_sent _ => <[c := mkEntry (threshold e) false (entry_worker e)]> reg
                  | ensured_panic _ => delete c reg
                  | ensured_looping => reg1
                  end) in *.
  set (regn := if late then reg_end else reg1).
  assert (Hmem : ∀ c' wk, worker_Send c' wk notice ∈ calls_of r ↔
                   ∃ e', regn !! c' = Some e' ∧ wk = entry_worker e' ∧
                         accepts e' notice = true).
  { intros c' wk. rewrite Hcalls, elem_of_cons, !elem_of_app. subst regn. split.
    - intros [Hin | [Hin | [Hin | Hin]]].
      + discriminate.
      + destruct late; [by apply elem_of_nil in Hin|].
        apply dispatchEvent_sends_elem in Hin as (c1 & e1 & Hc1 & Ha & Heq).
        injection Heq as -> ->. by exists e1.
      + by apply Hmid in Hin.
      + destruct late; [|by apply elem_of_nil in Hin].
        apply dispatchEvent_sends_elem in Hin as (c1 & e1 & Hc1 & Ha & Heq).
        injection Heq as -> ->. by exists e1.
    - intros (e' & Hc' & -> & Ha). right.
      destruct late; [right; right|left];
        apply dispatchEvent_sends_elem; by exists c', e'. }
  assert (Hacc : ∀ e', accepts e' notice = true ↔
                        (ERROR <= threshold e')%N ∧ degraded e' = false).
  { intros e'. apply accepts_spec. }
  assert (Hother : ∀ c', c' ≠ c → regn !! c' = reg !! c').
  { intros c' Hne. subst regn reg_end reg1.
    destruct late; [destruct (result_of r)|];
      first [by rewrite lookup_insert_ne by done | by rewrite lookup_delete_ne by done]. }
  split; [done|]. split.
  { intros ->. subst r.
    unfold handleDegradation_sched, handleDegradation, handleDegradation_end, bind.
    unfold degradation_notice.
    destruct (setDegraded c true w) as [[u1 w1] t1].
    destruct (logger_Errorf Sprintf _ (Some msg) _ _ w1) as [[u2 w2] t2].
    destruct (ensureErrorSent Sprintf Collect oor fuel c (Some msg) drops startTime 0 w2)
      as [[r3 w3] t3].
    destruct r3 as [n|cause|].
    - destruct (setDegraded c false w3) as [[u4 w4] t4].
      destruct (logger_Warnf Sprintf internalLogger _ _ w4) as [[u5 w5] t5].
      unfold ret. by rewrite !app_nil_r.
    - destruct (recoverCollector Sprintf c (Some cause) w3) as [[u4 w4] t4].
      unfold ret. by rewrite !app_nil_r.
    - unfold ret. by rewrite !app_nil_r. }
  split; [|split].
  - intros c' e' Hc' Hne. rewrite Hmem, Hother by done. rewrite <- Hacc. split.
    + intros (e1 & Hc1 & _ & Ha). fold reg in Hc'. congruence.
    + intros Ha. by exists e'.
  - intros c' wk Hin. apply Hmem in Hin as (e' & Hc' & -> & _).
    destruct (decide (c' = c)) as [->|Hne].
    + exists e. split; [exact Hc|]. by intros [].
    + rewrite Hother in Hc' by done. exists e'. split; [exact Hc'|done].
  - intros wk. rewrite Hmem. subst regn reg_end reg1. split.
    + intros (e' & Hc' & -> & Ha). apply Hacc in Ha as [Hle Hd].
      destruct late.
      * destruct (result_of r) as [n|cause|] eqn:Er.
        -- rewrite lookup_insert_eq in Hc'. injection Hc' as <-. simpl in *.
           split; [done|]. split; [by exists n|]. done.
        -- by rewrite lookup_delete_eq in Hc'.
        -- rewrite lookup_insert_eq in Hc'. injection Hc' as <-. discriminate.
      * rewrite lookup_insert_eq in Hc'. injection Hc' as <-. discriminate.
    + intros (-> & (n & Hn) & Hle & ->). rewrite Hn.
      exists (mkEntry (threshold e) false (entry_worker e)).
      split; [apply lookup_insert_eq|]. split; [done|]. by apply Hacc.
Qed.

(** An instance: collector 2, registered at DEBUG beside collector 1, is
    degraded and accepts its first probe; collector 1 is sent the notice,
    and collector 2 itself is sent it when the goroutine runs late. *)
Lemma handleDegradation_notice_witness :
  let Sprintf : string → list value → string := λ f _, f in
  let Collect := λ (_ : Collector) (_ : Event) (s : unit), (Returns None, s) in
  let e := mkEntry DEBUG false (syncWorkerRef 2) in
  let reg : gmap Collector entry :=
    {[ 1%positive := mkEntry INFO false (syncWorkerRef 1); 2%positive := e ]} in
  let w := mkWorld (updateThreshold (with_registry newConfig reg)) 0 3%positive tt in
  let notice := degraded_event Sprintf 2%positive (Some "write failed") 1 in
  let r late := handleDegradation_sched Sprintf Collect 0 late 1 2%positive
                  (Some "write failed") 1 0 w in
  registry (published w) !! 2%positive = Some e ∧
  worker_Send 1%positive (syncWorkerRef 1) notice ∈ calls_of (r false) ∧
  (worker_Send 2%positive (syncWorkerRef 2) notice ∉ calls_of (r false)) ∧
  worker_Send 2%positive (syncWorkerRef 2) notice ∈ calls_of (r true).
Proof.
  intros Sprintf Collect e reg w notice r.
  assert (Hc : registry (published w) !! 2%positive = Some e) by reflexivity.
  split; [exact Hc|].
  pose proof (handleDegradation_notice Sprintf Collect 0 false 1 2%positive e
                "write failed" 1 0 w Hc) as (_ & _ & Ho & _ & Hs).
  pose proof (handleDegradation_notice Sprintf Collect 0 true 1 2%positive e
                "write failed" 1 0 w Hc) as (_ & _ & _ & _ & Hs').
  split; [|split].
  - apply (Ho 1%positive (mkEntry INFO false (syncWorkerRef 1)) eq_refl); [discriminate|].
    split; [vm_compute; discriminate|reflexivity].
  - intros Hin. apply Hs in Hin as [Hl _]. discriminate.
  - apply Hs'. split; [reflexivity|]. split; [by exists 1|].
    split; [vm_compute; discriminate|reflexivity].
Defined.

(** ** The recovery loop *)

Lemma ensureErrorSent_rounds {S} (Sprintf : string → list value → string)
    (Collect : Collector → Event → S → outcome * S) (oor : Z) (fuel : nat)
    (c : Collector) (err : error) (drops startTime attempt : Z) (w : world S) :
  0 <= attempt → attempt + Z.of_nat fuel < 2 ^ 63 →
  let r := ensureErrorSent Sprintf Collect oor fuel c err drops startTime attempt w in
  ∃ errs last,
    calls_of r
    = probe_rounds Sprintf oor c err drops startTime (attempt + 1) (failures errs ++ last) ∧
    match result_of r with
    | ensured_sent n => last = [Returns None] ∧ n = attempt + Z.of_nat (length errs) + 1 ∧
                        (length errs < fuel)%nat
    | ensured_panic cause => last = [Panics cause] ∧ (length errs < fuel)%nat
    | ensured_looping => last = [] ∧ length errs = fuel
    end.
Proof.
  revert attempt w. induction fuel as [|fuel IH]; intros attempt w Ha Hf.
  - exists [], []. done.
  - cbn [ensureErrorSent]. rewrite (wrap_int64_id (attempt + 1)) by lia.
    unfold bind, emit, call_Collect. fold (probe_event Sprintf c err drops startTime (attempt + 1)).
    destruct (Collect c _ (collectors w)) as [[[e|]|cause] s].
    + match goal with |- context [ensureErrorSent _ _ _ fuel c err drops startTime ?a ?w1] =>
        destruct (IH a w1) as (errs & last & Hc & Hr); [lia|lia|];
        destruct (ensureErrorSent Sprintf Collect oor fuel c err drops startTime a w1)
          as [[r w2] t]
      end.
      unfold calls_of, result_of in *; cbn [fst snd] in *.
      exists (e :: errs), last. split.
      * rewrite Hc. reflexivity.
      * destruct r as [n|cause|]; cbn [length].
        -- destruct Hr as (-> & -> & Hl). split; [done|]. split; lia.
        -- destruct Hr as (-> & Hl). split; [done|lia].
        -- destruct Hr as (-> & Hl). split; [done|lia].
    + exists [], [Returns None]. unfold calls_of, result_of; cbn [fst snd length].
      split; [reflexivity|]. split; [done|]. split; lia.
    + exists [], [Panics cause]. unfold calls_of, result_of; cbn [fst snd length].
      split; [reflexivity|]. split; [done|lia].
Qed.

Lemma probe_rounds_sleeps (Sprintf : string → list value → string) (oor : Z)
    (c : Collector) (err : error) (drops startTime : Z) (outs : list outcome) (i d : Z) :
  time_Sleep d ∈ probe_rounds Sprintf oor c err drops startTime i outs → d <= maxDelay.
Proof.
  revert i. induction outs as [|o outs IH]; intros i Hin; [by apply elem_of_nil in Hin|].
  cbn [probe_rounds] in Hin.
  apply elem_of_cons in Hin as [Hin|Hin]; [injection Hin as ->; apply backoff_le_maxDelay|].
  apply elem_of_cons in Hin as [Hin|Hin]; [discriminate|]. by apply (IH (i + 1)).
Qed.

(** X18. The recovery loop of a degraded collector, started as the code
    starts it: its calls are turns numbered from 1, each a sleep of
    backoff(i) followed by one Collect call with the probe event of turn i,
    and nothing else; every probe but the last returns an error; the loop ends
    with the first probe that is accepted, and then reports the number of
    turns, or with the first that panics; and no sleep is longer than the
    ceiling of five minutes. *)
Theorem ensureErrorSent_schedule {S} (Sprintf : string → list value → string)
    (Collect : Collector → Event → S → outcome * S) (oor : Z) (fuel : nat)
    (c : Collector) (err : error) (drops startTime : Z) (w : world S) :
  Z.of_nat fuel < 2 ^ 63 →
  let r := ensureErrorSent Sprintf Collect oor fuel c err drops startTime 0 w in
  ∃ errs last,
    calls_of r = probe_rounds Sprintf oor c err drops startTime 1 (failures errs ++ last) ∧
    match result_of r with
    | ensured_sent n => last = [Returns None] ∧ n = Z.of_nat (length errs) + 1 ∧
                        (length errs < fuel)%nat
    | ensured_panic cause => last = [Panics cause] ∧ (length errs < fuel)%nat
    | ensured_looping => last = [] ∧ length errs = fuel
    end ∧
    ∀ d, time_Sleep d ∈ calls_of r → d <= maxDelay.
Proof.
  intros Hf r.
  destruct (ensureErrorSent_rounds Sprintf Collect oor fuel c err drops startTime 0 w)
    as (errs & last & Hc & Hr); [lia|lia|].
  fold r in Hc, Hr. exists errs, last. split; [exact Hc|]. split.
  - destruct (result_of r); [|done|done]. destruct Hr as (? & ? & ?). split; [done|].
    split; [lia|done].
  - intros d Hin. rewrite Hc in Hin. by eapply probe_rounds_sleeps.
Qed.

(** An instance: a collector that fails twice accepts the third probe. *)
Lemma ensureErrorSent_schedule_witness :
  let Sprintf : string → list value → string := λ f _, f in
  let Collect := λ (_ : Collector), failingCollector_Collect Sprintf in
  let r := ensureErrorSent Sprintf Collect 0 5 1%positive (Some "write failed") 1 0 0
             (initial (newFailingCollector 2)) in
  Z.of_nat 5 < 2 ^ 63 ∧ result_of r = ensured_sent 3 ∧
  ∀ d, time_Sleep d ∈ calls_of r → d <= maxDelay.
Proof.
  intros Sprintf Collect r.
  assert (Hf : Z.of_nat 5 < 2 ^ 63) by (simpl; lia).
  split; [exact Hf|]. split; [reflexivity|].
  destruct (ensureErrorSent_schedule Sprintf Collect 0 5 1%positive (Some "write failed")
              1 0 (initial (newFailingCollector 2)) Hf) as (errs & last & _ & _ & Hs).
  exact Hs.
Defined.

(** ** Drops and degradation in the workers *)

Lemma Collect_calls_setDegraded {S} (c : Collector) (d : bool) (w : world S) :
  Collect_calls (calls_of (setDegraded c d w)) = [] ∧
  collectors (world_of (setDegraded c d w)) = collectors w.
Proof. run_M. by destruct (registry (published w) !! c). Qed.

Lemma Collect_calls_sendf {S} (Sprintf : string → list value → string) (l : logger)
    (level : Level) (err : error) (format : string) (values : list value) (w : world S) :
  Collect_calls (calls_of (sendf Sprintf l level err format values w)) = [] ∧
  collectors (world_of (sendf Sprintf l level err format values w)) = collectors w.
Proof.
  unfold sendf, bind, cfg_get.
  destruct (cfg_threshold (published w) <? level)%N; [done|].
  pose proof (dispatchEvent_calls (newEventf Sprintf (context l) level err format values) w)
    as Hc.
  destruct (dispatchEvent_world (newEventf Sprintf (context l) level err format values) w)
    as (_ & _ & Hs & _).
  destruct (dispatchEvent _ w) as [[u w1] t].
  unfold calls_of, world_of in *; simpl in *.
  rewrite Hc. split; [apply Collect_calls_dispatchEvent_sends|exact Hs].
Qed.

Lemma Collect_calls_Errorf {S} (Sprintf : string → list value → string) (l : logger)
    (err : error) (format : string) (values : list value) (w : world S) :
  Collect_calls (calls_of (logger_Errorf Sprintf l err format values w)) = [] ∧
  collectors (world_of (logger_Errorf Sprintf l err format values w)) = collectors w.
Proof.
  destruct err as [e|]; [|done]. unfold logger_Errorf, bind.
  destruct (Collect_calls_sendf Sprintf l ERROR (Some e) format values w) as [Hc Hs].
  destruct (sendf Sprintf l ERROR (Some e) format values w) as [[u w1] t].
  unfold calls_of, world_of, ret in *; simpl in *. by rewrite app_nil_r.
Qed.

Lemma Collect_calls_sendRecovery {S} (l : logger) (cause message : string) (w : world S) :
  Collect_calls (calls_of (sendRecovery l cause message w)) = [].
Proof.
  unfold sendRecovery, bind, cfg_get.
  destruct (cfg_threshold (published w) <? FATAL)%N; [done|].
  match goal with |- context [dispatchEvent ?ev w] =>
    pose proof (dispatchEvent_calls ev w) as Hc;
    destruct (dispatchEvent ev w) as [[u2 w2] t2]
  end.
  unfold calls_of in *; simpl in *. rewrite Hc. apply Collect_calls_dispatchEvent_sends.
Qed.

Lemma Collect_calls_recoverCollector {S} (Sprintf : string → list value → string)
    (c : Collector) (cause : option string) (w : world S) :
  Collect_calls (calls_of (recoverCollector Sprintf c cause w)) = [].
Proof.
  unfold recoverCollector. destruct cause as [cause|]; [|done].
  unfold bind, logger_ReportRecovery.
  assert (Hd : Collect_calls (calls_of (dispose c w)) = [])
    by (run_M; by destruct (registry (published w) !! c)).
  destruct (dispose c w) as [[u w1] t1].
  match goal with |- context [sendRecovery ?l ?ca ?m w1] =>
    pose proof (Collect_calls_sendRecovery l ca m w1) as Hc;
    destruct (sendRecovery l ca m w1) as [[u2 w2] t2]
  end.
  unfold calls_of in *; simpl in *. by rewrite Collect_calls_app, Hd, Hc.
Qed.

(** handleDegradation for a collector that accepts its first probe. *)
Lemma handleDegradation_healthy {S} (Sprintf : string → list value → string)
    (Collect : Collector → Event → S → outcome * S) (oor : Z) (fuel : nat)
    (c : Collector) (err : error) (drops startTime : Z) (w : world S) :
  healthy Collect c → (0 < fuel)%nat →
  let r := handleDegradation Sprintf Collect oor fuel c err drops startTime w in
  result_of r = ensured_sent 1 ∧
  Collect_calls (calls_of r) = [delivered c (probe_event Sprintf c err drops startTime 1)].
Proof.
  intros Hh Hf r. subst r. destruct fuel as [|fuel]; [lia|].
  unfold handleDegradation, bind.
  destruct (Collect_calls_setDegraded c true w) as [Ht1 _].
  destruct (setDegraded c true w) as [[u1 w1] t1].
  match goal with |- context [logger_Errorf Sprintf ?l err ?f ?v w1] =>
    destruct (Collect_calls_Errorf Sprintf l err f v w1) as [Ht2 _];
    destruct (logger_Errorf Sprintf l err f v w1) as [[u2 w2] t2]
  end.
  cbn [ensureErrorSent]. unfold bind, emit, call_Collect.
  change (wrap_int64 (0 + 1)) with 1.
  fold (probe_event Sprintf c err drops startTime 1).
  pose proof (Hh (probe_event Sprintf c err drops startTime 1) (collectors w2)) as Ho.
  destruct (Collect c _ (collectors w2)) as [o s]. simpl in Ho. subst o.
  cbn [fst snd ret].
  match goal with |- context [setDegraded c false ?w3] =>
    destruct (Collect_calls_setDegraded c false w3) as [Ht4 _];
    destruct (setDegraded c false w3) as [[u4 w4] t4]
  end.
  unfold logger_Warnf.
  match goal with |- context [sendf Sprintf ?l WARN None ?f ?v w4] =>
    destruct (Collect_calls_sendf Sprintf l WARN None f v w4) as [Ht5 _];
    destruct (sendf Sprintf l WARN None f v w4) as [[u5 w5] t5]
  end.
  unfold calls_of, result_of in *; cbn [fst snd] in *. split; [done|].
  rewrite !Collect_calls_app, Ht1, Ht2, Ht4, Ht5. reflexivity.
Qed.

(** X19. Drops are reported before the next event is delivered, and once:
    when the loop of an asynchronous worker whose collector accepts every
    event receives an event while drops are unreported, the collector is
    first given the probe of a degradation with the cause
    [events dropped due to full buffer] and the drop count, and then the
    event; the count is recorded as reported, so that the next turn reports
    nothing. *)
Theorem asyncWorker_reports_drops_once {S} (Sprintf : string → list value → string)
    (Collect : Collector → Event → S → outcome * S) (oor : Z) (fuel : nat)
    (startTime : Z) (aw : asyncWorker) (q : chan) (e : Event) (rest : list Event)
    (w : world S) :
  healthy Collect (aw_collector aw) → (0 < fuel)%nat →
  aw_queue aw = Some q → ch_buf q = e :: rest → aw_lastdrops aw < aw_drops aw →
  let r := asyncWorker_run_queue Sprintf Collect oor fuel startTime aw w in
  let aw' := mkAsyncWorker (aw_drops aw) (aw_collector aw)
               (Some (mkChan rest (ch_cap q) (ch_closed q))) (aw_drops aw) in
  result_of r = Some aw' ∧
  Collect_calls (calls_of r)
  = [delivered (aw_collector aw)
       (probe_event Sprintf (aw_collector aw) errDrops (aw_drops aw) startTime 1);
     delivered (aw_collector aw) e] ∧
  ∀ w', asyncWorker_handleDrops Sprintf Collect oor fuel startTime aw' w' = (aw', w', []).
Proof.
  intros Hh Hf Hq Hb Hd r aw'.
  assert (Hrun : ∃ w2 t,
    r = (Some aw', w2, t) ∧
    Collect_calls t
    = [delivered (aw_collector aw)
         (probe_event Sprintf (aw_collector aw) errDrops (aw_drops aw) startTime 1);
       delivered (aw_collector aw) e]).
  { subst r. unfold asyncWorker_run_queue. rewrite Hq, Hb. unfold bind.
    unfold asyncWorker_handleDrops.
    cbn [with_queue aw_drops aw_lastdrops aw_collector aw_queue].
    destruct (Z.gtb_spec (aw_drops aw) (aw_lastdrops aw)) as [_|Hle]; [|lia].
    unfold bind.
    destruct (handleDegradation_healthy Sprintf Collect oor fuel (aw_collector aw) errDrops
                (aw_drops aw) startTime w Hh Hf) as [_ Hc1].
    destruct (handleDegradation Sprintf Collect oor fuel (aw_collector aw) errDrops
                (aw_drops aw) startTime w) as [[r1 w1] t1].
    unfold calls_of in Hc1; cbn [fst snd ret] in Hc1 |- *. fold aw'.
    destruct (asyncWorker_sendEvent_healthy Sprintf Collect oor fuel startTime aw' e w1 Hh)
      as [w2 Hs].
    rewrite Hs. eexists _, _. split; [reflexivity|].
    rewrite !app_nil_r, Collect_calls_app, Hc1. reflexivity. }
  destruct Hrun as (w2 & t & -> & Hc). unfold result_of, calls_of; cbn [fst snd].
  split; [done|]. split; [exact Hc|].
  intros w'. apply asyncWorker_handleDrops_reported. simpl. lia.
Qed.

(** An instance: one drop counted, one event queued. *)
Lemma asyncWorker_reports_drops_once_witness :
  let Sprintf : string → list value → string := λ f _, f in
  let e1 := mkEvent DEBUG (NewContext "test") None "Original, blocked message" in
  let Collect := λ (c : Collector) (event : Event) (s : list Event),
                   capturingCollector_Collect event s in
  let aw := mkAsyncWorker 1 1%positive (Some (mkChan [e1] 1 false)) 0 in
  let r := asyncWorker_run_queue Sprintf Collect 0 1 0 aw (initial []) in
  result_of r = Some (mkAsyncWorker 1 1%positive (Some (mkChan [] 1 false)) 1) ∧
  Collect_calls (calls_of r)
  = [delivered 1%positive (probe_event Sprintf 1%positive errDrops 1 0 1);
     delivered 1%positive e1].
Proof.
  intros Sprintf e1 Collect aw r.
  assert (Hh : healthy Collect (aw_collector aw)) by (intros event s; reflexivity).
  assert (Hf : (0 < 1)%nat) by lia.
  assert (Hd : aw_lastdrops aw < aw_drops aw) by (simpl; lia).
  destruct (asyncWorker_reports_drops_once Sprintf Collect 0 1 0 aw (mkChan [e1] 1 false)
              e1 [] (initial []) Hh Hf eq_refl eq_refl Hd) as (Hr & Hc & _).
  split; [exact Hr|exact Hc].
Defined.

(** The Collect calls of handleDegradation are those of its recovery
    loop. *)
Lemma handleDegradation_collects {S} (Sprintf : string → list value → string)
    (Collect : Collector → Event → S → outcome * S) (oor : Z) (fuel : nat)
    (c : Collector) (err : error) (drops startTime : Z) (w : world S) :
  Z.of_nat fuel < 2 ^ 63 →
  let r := handleDegradation Sprintf Collect oor fuel c err drops startTime w in
  ∃ errs last,
    Collect_calls (calls_of r)
    = Collect_calls (probe_rounds Sprintf oor c err drops startTime 1
                       (failures errs ++ last)) ∧
    match result_of r with
    | ensured_sent n => last = [Returns None] ∧ n = Z.of_nat (length errs) + 1
    | ensured_panic cause => last = [Panics cause]
    | ensured_looping => last = [] ∧ length errs = fuel
    end.
Proof.
  intros Hf r. subst r. unfold handleDegradation, bind.
  destruct (Collect_calls_setDegraded c true w) as [Ht1 _].
  destruct (setDegraded c true w) as [[u1 w1] t1].
  match goal with |- context [logger_Errorf Sprintf ?l err ?f ?v w1] =>
    destruct (Collect_calls_Errorf Sprintf l err f v w1) as [Ht2 _];
    destruct (logger_Errorf Sprintf l err f v w1) as [[u2 w2] t2]
  end.
  destruct (ensureErrorSent_rounds Sprintf Collect oor fuel c err drops startTime 0 w2)
    as (errs & last & Hc & Hr); [lia|lia|].
  destruct (ensureErrorSent Sprintf Collect oor fuel c err drops startTime 0 w2)
    as [[r3 w3] t3].
  unfold calls_of, result_of in *; cbn [fst snd] in *.
  exists errs, last. destruct r3 as [n|cause|].
  - destruct (Collect_calls_setDegraded c false w3) as [Ht4 _].
    destruct (setDegraded c false w3) as [[u4 w4] t4].
    unfold logger_Warnf.
    match goal with |- context [sendf Sprintf ?l WARN None ?f ?v w4] =>
      destruct (Collect_calls_sendf Sprintf l WARN None f v w4) as [Ht5 _];
      destruct (sendf Sprintf l WARN None f v w4) as [[u5 w5] t5]
    end.
    unfold calls_of in *; cbn [fst snd ret] in *.
    rewrite !Collect_calls_app, Ht1, Ht2, Ht4, Ht5, Hc, !app_nil_r.
    split; [reflexivity|]. destruct Hr as (? & ? & ?). split; [done|lia].
  - pose proof (Collect_calls_recoverCollector Sprintf c (Some cause) w3) as Ht4.
    destruct (recoverCollector Sprintf c (Some cause) w3) as [[u4 w4] t4].
    unfold calls_of in *; cbn [fst snd ret] in *.
    rewrite !Collect_calls_app, Ht1, Ht2, Ht4, Hc, !app_nil_r.
    split; [reflexivity|]. by destruct Hr.
  - cbn [fst snd ret].
    rewrite !Collect_calls_app, Ht1, Ht2, Hc, !app_nil_r. split; [reflexivity|done].
Qed.

Lemma sendWithRetries_error {S} (Sprintf : string → list value → string)
    (Collect : Collector → Event → S → outcome * S) (c : Collector) (event : Event)
    (w : world S) (e1 : string) :
  let r := sendWithRetries Sprintf Collect c event sendRetries w in
  result_of r = Some e1 →
  ∃ errs0, length errs0 = 3%nat ∧ head errs0 = Some e1 ∧
           calls_of r = Collect_call c event <$> failures errs0.
Proof.
  intros r Hr. subst r. unfold sendWithRetries, bind in *.
  change (Z.to_nat (sendRetries + 1)) with 3%nat in *.
  destruct (sendWithRetries_loop_attempts Collect 3 c event None w)
    as (outs & Hc & Ha & _).
  destruct (sendWithRetries_loop Collect 3 c event None w) as [[o w1] t1].
  unfold calls_of, result_of in *; cbn [fst snd] in *.
  destruct o as [err|cause].
  - cbn [ret fst snd] in *. subst err. rewrite app_nil_r.
    inversion Ha as [errs Hl Ho Hf | errs Hl Ho Hf | errs ca Hl Ho Hf]; subst.
    exists errs. done.
  - destruct (recoverCollector Sprintf c (Some cause) w1) as [[u w2] t2].
    cbn [ret fst snd] in Hr. discriminate.
Qed.

(** X20. A synchronous worker gives an event up after the failed attempts:
    when the three attempts of sendEvent have all returned an error, the
    worker counts one drop and enters the degradation controller; from then
    on the collector is offered probe events only, built with the first of
    the errors and the new drop count, and the event itself is not offered
    again. *)
Theorem syncWorker_sendEvent_gives_up {S} (Sprintf : string → list value → string)
    (Collect : Collector → Event → S → outcome * S) (oor : Z) (fuel : nat)
    (startTime : Z) (sw : syncWorker) (event : Event) (w : world S) (e1 : string) :
  Z.of_nat fuel < 2 ^ 63 →
  result_of (sendWithRetries Sprintf Collect (sw_collector sw) event sendRetries w)
  = Some e1 →
  let r := syncWorker_sendEvent Sprintf Collect oor fuel startTime sw event w in
  let d := wrap_uint64 (sw_drops sw + 1) in
  result_of r = mkSyncWorker (sw_collector sw) (sw_terminated sw) d ∧
  ∃ errs0 errs last,
    length errs0 = 3%nat ∧ head errs0 = Some e1 ∧ (length last ≤ 1)%nat ∧
    Collect_calls (calls_of r)
    = (Collect_call (sw_collector sw) event <$> failures errs0) ++
      Collect_calls (probe_rounds Sprintf oor (sw_collector sw) (Some e1) d startTime 1
                       (failures errs ++ last)).
Proof.
  intros Hf Hr r d.
  destruct (sendWithRetries_error Sprintf Collect (sw_collector sw) event w e1 Hr)
    as (errs0 & Hl0 & Hh0 & Hc0).
  subst r. unfold syncWorker_sendEvent, bind.
  destruct (sendWithRetries Sprintf Collect (sw_collector sw) event sendRetries w)
    as [[err w1] t1].
  unfold result_of, calls_of in Hr, Hc0; cbn [fst snd] in Hr, Hc0. subst err t1.
  cbn [sw_collector sw_drops sw_terminated]. fold d.
  destruct (handleDegradation_collects Sprintf Collect oor fuel (sw_collector sw) (Some e1)
              d startTime w1 Hf) as (errs & last & Hc & Hres).
  destruct (handleDegradation Sprintf Collect oor fuel (sw_collector sw) (Some e1) d
              startTime w1) as [[r2 w2] t2].
  unfold result_of, calls_of in *; cbn [fst snd ret] in *.
  split; [done|]. exists errs0, errs, last.
  split; [done|]. split; [done|]. split.
  - destruct r2 as [n|cause|]; [destruct Hres as [-> _]|subst last|destruct Hres as [-> _]];
      simpl; lia.
  - rewrite app_nil_r, Collect_calls_app, Hc. f_equal.
    clear. induction (failures errs0) as [|o l IH]; [done|].
    unfold Collect_calls in *. simpl. by f_equal.
Qed.

(** An instance: the collector of the degradation tests, which fails three
    times; what it captures is the probe alone. *)
Lemma syncWorker_sendEvent_gives_up_witness :
  let Sprintf : string → list value → string := λ f _, f in
  let Collect := λ (_ : Collector), failingCollector_Collect Sprintf in
  let event := mkEvent DEBUG (NewContext "test") None "message" in
  let sw := newSyncWorker 1%positive in
  let w := initial (newFailingCollector (sendRetries + 1)) in
  let e1 := "%d more failures before I pass the event to my collector" in
  let r := syncWorker_sendEvent Sprintf Collect 0 1 0 sw event w in
  Z.of_nat 1 < 2 ^ 63 ∧
  result_of (sendWithRetries Sprintf Collect (sw_collector sw) event sendRetries w)
  = Some e1 ∧
  result_of r = mkSyncWorker 1%positive false 1 ∧
  captured (collectors (world_of r))
  = [probe_event Sprintf 1%positive (Some e1) 1 0 1].
Proof.
  intros Sprintf Collect event sw w e1 r.
  assert (Hf : Z.of_nat 1 < 2 ^ 63) by (simpl; lia).
  assert (Hr : result_of (sendWithRetries Sprintf Collect (sw_collector sw) event
                            sendRetries w) = Some e1) by reflexivity.
  split; [exact Hf|]. split; [exact Hr|]. split; [|reflexivity].
  exact (proj1 (syncWorker_sendEvent_gives_up Sprintf Collect 0 1 0 sw event w e1 Hf Hr)).
Defined.

(** ** The delays of the recovery loop *)

(** X21. The delay doubles and then stays at the ceiling: backoff(n) is
    2^n milliseconds for the attempts 1 to 18, and five minutes for the
    attempts 19 to 43 and from 1024 on; for no attempt at all is it more
    than five minutes, and up to attempt 43 it is not negative. *)
Theorem backoff_doubles_then_caps (oor n : Z) :
  (1 <= n <= 18 → backoff oor n = 2 ^ n * Millisecond) ∧
  (1 <= n < 18 → backoff oor (n + 1) = 2 * backoff oor n) ∧
  (19 <= n <= 43 → backoff oor n = maxDelay) ∧
  (1024 <= n → backoff oor n = maxDelay) ∧
  (n <= 43 → 0 <= backoff oor n) ∧
  backoff oor n <= maxDelay.
Proof.
  assert (Hlow : ∀ m, 1 <= m <= 18 → backoff oor m = 2 ^ m * Millisecond).
  { intros m Hm. rewrite backoff_small by lia. unfold backoff_spec.
    assert (Hp : 2 ^ m <= 2 ^ 18) by (apply Z.pow_le_mono_r; lia).
    unfold Millisecond, maxDelay, Minute. lia. }
  assert (Hmid : 19 <= n <= 43 → backoff oor n = maxDelay).
  { intros Hn. rewrite backoff_small by lia. unfold backoff_spec.
    assert (Hp : 2 ^ 19 <= 2 ^ n) by (apply Z.pow_le_mono_r; lia).
    unfold Millisecond, maxDelay, Minute. lia. }
  split; [apply Hlow|]. split.
  { intros Hn. rewrite !Hlow by lia. rewrite Z.pow_add_r by lia. lia. }
  split; [exact Hmid|]. split; [apply backoff_overflow_to_inf|].
  split; [|apply backoff_le_maxDelay].
  intros Hn. destruct (Z.le_gt_cases 1 n) as [H1|H1].
  - destruct (Z.le_gt_cases n 18) as [H2|H2].
    + rewrite Hlow by lia. assert (0 < 2 ^ n) by (apply Z.pow_pos_nonneg; lia).
      unfold Millisecond. lia.
    + rewrite Hmid by lia. unfold maxDelay, Minute. lia.
  - unfold backoff, math_Pow2.
    destruct (Z.leb_spec 1024 n); [lia|].
    destruct (Z.ltb_spec n (-1074)); [vm_compute; discriminate|].
    cbn [math_IsNaN math_IsInf orb Duration_of_float64].
    destruct (Z.ltb_spec n 0).
    + vm_compute. discriminate.
    + assert (n = 0) as -> by lia. vm_compute. discriminate.
Qed.

(** An instance: the third attempt waits 8 ms, the fourth twice that. *)
Lemma backoff_doubles_then_caps_witness :
  1 <= 3 <= 18 ∧ backoff 0 3 = 8 * Millisecond ∧ backoff 0 4 = 2 * backoff 0 3.
Proof.
  assert (H1 : 1 <= 3 <= 18) by lia.
  assert (H2 : 1 <= 3 < 18) by lia.
  split; [exact H1|]. split.
  - exact (proj1 (backoff_doubles_then_caps 0 3) H1).
  - exact (proj1 (proj2 (backoff_doubles_then_caps 0 3)) H2).
Defined.

(** ** Contexts *)

Lemma basicValue_deref_basic (t : context_go.tvalue) :
  context_go.is_basic (Some t) = true → context_go.basicValue_deref t = t.
Proof. by destruct t. Qed.

Lemma basicValue_is_basic (Sprint : context_go.interface → string)
    (value : context_go.interface) :
  context_go.is_basic (context_go.basicValue Sprint value) = true.
Proof.
  destruct value as [t|]; [|done]. unfold context_go.basicValue.
  by destruct (context_go.basicValue_deref t).
Qed.

Lemma basicValue_basic (Sprint : context_go.interface → string)
    (value : context_go.interface) :
  context_go.is_basic value = true → context_go.basicValue Sprint value = value.
Proof.
  destruct value as [t|]; [|done]. intros Hb. unfold context_go.basicValue.
  rewrite basicValue_deref_basic by done. by destruct t.
Qed.

(** X22. What basicValue makes of a value: the result is always of a basic
    kind (bool, string, integer, float or complex), so a second application
    changes nothing; a value of a basic kind is kept as it is; a pointer of
    a type that implements neither fmt.Stringer nor error stands for its
    target; and nil is replaced by what fmt.Sprint prints for it. *)
Theorem basicValue_coerces (Sprint : context_go.interface → string)
    (value : context_go.interface) :
  context_go.is_basic (context_go.basicValue Sprint value) = true ∧
  context_go.basicValue Sprint (context_go.basicValue Sprint value)
  = context_go.basicValue Sprint value ∧
  (context_go.is_basic value = true → context_go.basicValue Sprint value = value) ∧
  (∀ t, value = Some (context_go.T_ptr false t) →
        context_go.basicValue Sprint value = context_go.basicValue Sprint (Some t)) ∧
  (∀ t, value = Some (context_go.T_ptr true t) →
        context_go.basicValue Sprint value = Some (context_go.T_string (Sprint value))) ∧
  (∀ b, value = Some (context_go.T_nilptr b) →
        context_go.basicValue Sprint value = Some (context_go.T_string (Sprint value))) ∧
  (value = None →
   context_go.basicValue Sprint value = Some (context_go.T_string (Sprint None))).
Proof.
  split; [apply basicValue_is_basic|].
  split; [apply basicValue_basic, basicValue_is_basic|].
  split; [apply basicValue_basic|].
  split; [by intros t ->|]. split; [by intros t ->|].
  split; [by intros b ->|by intros ->].
Qed.

(** An instance: a pointer to a pointer to an int. *)
Lemma basicValue_coerces_witness :
  let Sprint : context_go.interface → string := λ _, "printed" in
  let i := context_go.T_int context_go.Int 7 in
  context_go.is_basic (Some i) = true ∧
  context_go.basicValue Sprint
    (Some (context_go.T_ptr false (context_go.T_ptr false i))) = Some i.
Proof.
  intros Sprint i.
  assert (Hb : context_go.is_basic (Some i) = true) by reflexivity.
  split; [exact Hb|].
  rewrite (proj1 (proj2 (proj2 (proj2 (basicValue_coerces Sprint
             (Some (context_go.T_ptr false (context_go.T_ptr false i)))))))
             (context_go.T_ptr false i) eq_refl).
  rewrite (proj1 (proj2 (proj2 (proj2 (basicValue_coerces Sprint
             (Some (context_go.T_ptr false i))))))
             i eq_refl).
  exact (proj1 (proj2 (proj2 (basicValue_coerces Sprint (Some i)))) Hb).
Defined.

Lemma count_from_length (p : context_go.pairs) (n : Z) :
  context_go.count_from p n = n + Z.of_nat (length p).
Proof.
  revert n. induction p as [|kv p IH]; intros n; simpl; [lia|]. rewrite IH. lia.
Qed.

Lemma NumValues_length (c : context_go.context) :
  context_go.NumValues c = Z.of_nat (length (context_go.ctx_pairs c)).
Proof. unfold context_go.NumValues, context_go.count. by rewrite count_from_length. Qed.

Lemma toFields_list_to_map (p : context_go.pairs) :
  context_go.toFields p = list_to_map p.
Proof. induction p as [|[k v] p IH]; [done|]. simpl. by rewrite IH. Qed.

Lemma WithValue_empty_key (Sprint : context_go.interface → string)
    (c : context_go.context) (value : context_go.interface) :
  context_go.WithValue Sprint c "" value = c.
Proof. reflexivity. Qed.

Lemma WithValue_key (Sprint : context_go.interface → string)
    (c : context_go.context) (key : string) (value : context_go.interface) :
  key ≠ "" →
  context_go.WithValue Sprint c key value
  = context_go.mkContext (context_go.name c)
      ((key, context_go.basicValue Sprint value) :: context_go.ctx_pairs c).
Proof.
  intros Hk. unfold context_go.WithValue.
  destruct (String.eqb_spec key ""); [done|reflexivity].
Qed.

(** X23. WithValue and what can be read back: with the empty key WithValue
    returns the context it was called on; with any other key the new
    context has the same name and one value more, and its Fields hold the
    basic form of the value under the key and are as before under every
    other key. *)
Theorem WithValue_then_Fields (Sprint : context_go.interface → string)
    (c : context_go.context) (key : string) (value : context_go.interface) :
  let c' := context_go.WithValue Sprint c key value in
  (key = "" → c' = c) ∧
  (key ≠ "" →
   context_go.Name c' = context_go.Name c ∧
   context_go.NumValues c' = context_go.NumValues c + 1 ∧
   context_go.context_Fields c' !! key = Some (context_go.basicValue Sprint value) ∧
   (∀ k, k ≠ key → context_go.context_Fields c' !! k = context_go.context_Fields c !! k) ∧
   context_go.context_Fields c' = <[key := context_go.basicValue Sprint value]>
                                    (context_go.context_Fields c)).
Proof.
  intros c'. split; [by intros ->|]. intros Hk. subst c'.
  rewrite WithValue_key by done. split; [done|]. split.
  { rewrite !NumValues_length. simpl. lia. }
  unfold context_go.context_Fields. simpl. split; [apply lookup_insert_eq|].
  split; [|done]. intros k Hne. apply lookup_insert_ne. congruence.
Qed.

(** An instance. *)
Lemma WithValue_then_Fields_witness :
  let Sprint : context_go.interface → string := λ _, "printed" in
  let c := context_go.WithValue Sprint (context_go.NewContext "test") "k1"
             (Some (context_go.T_string "v1")) in
  "k1" ≠ "" ∧ context_go.NumValues c = 1 ∧
  context_go.context_Fields c !! "k1" = Some (Some (context_go.T_string "v1")).
Proof.
  intros Sprint c.
  assert (Hk : "k1" ≠ "") by discriminate.
  split; [exact Hk|].
  destruct (proj2 (WithValue_then_Fields Sprint (context_go.NewContext "test") "k1"
                     (Some (context_go.T_string "v1"))) Hk) as (_ & Hn & Hf & _).
  split; [exact Hn|exact Hf].
Defined.

(** X24. NumValues counts pairs, not keys: it is never less than the number
    of keys of Fields, and the two agree exactly when no key has been
    stored twice; for a key stored more than once Fields holds the value
    stored last. *)
Theorem NumValues_counts_duplicates (Sprint : context_go.interface → string)
    (c : context_go.context) :
  Z.of_nat (size (context_go.context_Fields c)) <= context_go.NumValues c ∧
  (NoDup (context_go.ctx_pairs c).*1 ↔
   Z.of_nat (size (context_go.context_Fields c)) = context_go.NumValues c) ∧
  (∀ key v1 v2, key ≠ "" →
     context_go.context_Fields
       (context_go.WithValue Sprint (context_go.WithValue Sprint c key v1) key v2) !! key
     = Some (context_go.basicValue Sprint v2) ∧
     context_go.NumValues
       (context_go.WithValue Sprint (context_go.WithValue Sprint c key v1) key v2)
     = context_go.NumValues c + 2).
Proof.
  rewrite NumValues_length. unfold context_go.context_Fields.
  rewrite toFields_list_to_map.
  assert (Hsz : ∀ p : context_go.pairs,
    (size (list_to_map p : gmap string context_go.interface) ≤ length p)%nat ∧
    (NoDup p.*1 ↔ size (list_to_map p : gmap string context_go.interface) = length p)).
  { induction p as [|[k v] p [IHle IHeq]]; simpl.
    - split; [done|]. split; [done|]. intros _. constructor.
    - rewrite map_size_insert.
      destruct (list_to_map p !! k) as [x|] eqn:El; simpl.
      + split; [lia|]. split; [|lia].
        intros Hnd. apply NoDup_cons in Hnd as [Hnk _].
        apply (not_elem_of_list_to_map (M := gmap string)) in Hnk. congruence.
      + split; [lia|]. rewrite NoDup_cons, IHeq. split; [intros [_ ->]; done|].
        intros Hs. split; [|lia]. by apply (not_elem_of_list_to_map (M := gmap string)). }
  destruct (Hsz (context_go.ctx_pairs c)) as [Hle Heq]. clear Hsz.
  unfold context_go.Fields in *.
  split; [lia|]. split; [rewrite Heq; lia|].
  intros key v1 v2 Hk. rewrite !WithValue_key by done. simpl.
  split; [apply lookup_insert_eq|]. rewrite !NumValues_length. simpl. lia.
Qed.

(** An instance: the key k stored twice. *)
Lemma NumValues_counts_duplicates_witness :
  let Sprint : context_go.interface → string := λ _, "printed" in
  let c := context_go.NewContext "test" in
  let c2 := context_go.WithValue Sprint
              (context_go.WithValue Sprint c "k" (Some (context_go.T_bool true)))
              "k" (Some (context_go.T_bool false)) in
  "k" ≠ "" ∧ context_go.NumValues c2 = 2 ∧
  context_go.context_Fields c2 !! "k" = Some (Some (context_go.T_bool false)).
Proof.
  intros Sprint c c2.
  assert (Hk : "k" ≠ "") by discriminate.
  split; [exact Hk|].
  destruct (proj2 (proj2 (NumValues_counts_duplicates Sprint c)) "k"
              (Some (context_go.T_bool true)) (Some (context_go.T_bool false)) Hk)
    as [Hf Hn].
  split; [exact Hn|exact Hf].
Defined.

Lemma WithValue_name (Sprint : context_go.interface → string)
    (c : context_go.context) (key : string) (value : context_go.interface) :
  context_go.name (context_go.WithValue Sprint c key value) = context_go.name c.
Proof. unfold context_go.WithValue. by destruct (String.eqb key ""). Qed.

Lemma WithFields_over_other (Sprint : context_go.interface → string)
    (order : list (string * context_go.interface)) (c : context_go.context) (k : string) :
  k = "" ∨ k ∉ order.*1 →
  context_go.context_Fields (context_go.WithFields_over Sprint c order) !! k
  = context_go.context_Fields c !! k.
Proof.
  revert c. induction order as [|[k0 v0] order IH]; intros c Hk; [done|].
  change (context_go.WithFields_over Sprint c ((k0, v0) :: order))
    with (context_go.WithFields_over Sprint (context_go.WithValue Sprint c k0 v0) order).
  rewrite IH.
  - destruct (decide (k0 = "")) as [->|Hne]; [done|].
    rewrite WithValue_key by done. unfold context_go.context_Fields; simpl.
    apply lookup_insert_ne. destruct Hk as [->|Hk]; [done|].
    intros ->. apply Hk. simpl. left.
  - destruct Hk as [?|Hk]; [by left|right]. intros Hin. apply Hk. simpl. by right.
Qed.

Lemma WithFields_over_added (Sprint : context_go.interface → string)
    (order : list (string * context_go.interface)) (c : context_go.context)
    (k : string) (v : context_go.interface) :
  NoDup order.*1 → (k, v) ∈ order → k ≠ "" →
  context_go.context_Fields (context_go.WithFields_over Sprint c order) !! k
  = Some (context_go.basicValue Sprint v).
Proof.
  revert c. induction order as [|[k0 v0] order IH]; intros c Hnd Hin Hk.
  - by apply elem_of_nil in Hin.
  - change (context_go.WithFields_over Sprint c ((k0, v0) :: order))
      with (context_go.WithFields_over Sprint (context_go.WithValue Sprint c k0 v0) order).
    simpl in Hnd. apply NoDup_cons in Hnd as [Hnk Hnd].
    apply elem_of_cons in Hin as [Heq|Hin].
    + injection Heq as <- <-. rewrite WithFields_over_other by (by right).
      rewrite WithValue_key by done. unfold context_go.context_Fields; simpl.
      apply lookup_insert_eq.
    + by apply IH.
Qed.

Lemma WithFields_over_length (Sprint : context_go.interface → string)
    (order : list (string * context_go.interface)) (c : context_go.context) :
  length (context_go.ctx_pairs (context_go.WithFields_over Sprint c order))
  = (length (context_go.ctx_pairs c) + length (filter (λ kv, kv.1 ≠ "") order))%nat ∧
  context_go.name (context_go.WithFields_over Sprint c order) = context_go.name c.
Proof.
  revert c. induction order as [|[k0 v0] order IH]; intros c; [simpl; split; [lia|done]|].
  change (context_go.WithFields_over Sprint c ((k0, v0) :: order))
    with (context_go.WithFields_over Sprint (context_go.WithValue Sprint c k0 v0) order).
  destruct (IH (context_go.WithValue Sprint c k0 v0)) as [Hl Hn].
  rewrite Hl, Hn, WithValue_name. split; [|done].
  rewrite filter_cons. simpl. destruct (decide (k0 ≠ "")) as [Hne|He].
  - rewrite WithValue_key by done. simpl. lia.
  - assert (k0 = "") as -> by (by destruct (decide (k0 = ""))).
    rewrite WithValue_empty_key. lia.
Qed.

Lemma filter_all {A} (P : A → Prop) `{∀ x, Decision (P x)} (l : list A) :
  Forall P l → filter P l = l.
Proof.
  induction 1 as [|x l Hx Hl IH]; [done|]. rewrite filter_cons.
  destruct (decide (P x)); [by rewrite IH|done].
Qed.

Lemma nonempty_keys_size (fields : gmap string context_go.interface)
    (order : list (string * context_go.interface)) :
  order ≡ₚ map_to_list fields →
  length (filter (λ kv, kv.1 ≠ "") order) = size (delete "" fields).
Proof.
  intros Hp.
  assert (Hall : Forall (λ kv : string * context_go.interface, kv.1 ≠ "")
                   (map_to_list (delete "" fields))).
  { apply Forall_forall. intros [k v] Hin. apply elem_of_map_to_list in Hin.
    simpl. intros ->. by rewrite lookup_delete_eq in Hin. }
  rewrite Hp. destruct (fields !! "") as [x|] eqn:E.
  - rewrite <- (map_to_list_delete fields "" x E). rewrite filter_cons. simpl.
    destruct (decide ("" ≠ "")) as [Hne|_]; [done|].
    rewrite filter_all by done. apply length_map_to_list.
  - rewrite delete_id in Hall |- * by done.
    rewrite filter_all by done. apply length_map_to_list.
Qed.

(** X25. WithFields does not depend on the order in which the map
    iteration yields the fields: in whatever order the loop runs, the new
    context has the name of the old one, one value more for every field whose
    key is not the empty string, and Fields that hold the basic form of each
    such field and are as before under every other key; so its Fields are
    those of any other run of the loop. *)
Theorem WithFields_any_order (Sprint : context_go.interface → string)
    (c : context_go.context) (fields : context_go.Fields)
    (order : list (string * context_go.interface)) :
  order ≡ₚ map_to_list fields →
  let c' := context_go.WithFields_over Sprint c order in
  context_go.Name c' = context_go.Name c ∧
  context_go.NumValues c' = context_go.NumValues c + Z.of_nat (size (delete "" fields)) ∧
  (∀ k v, k ≠ "" → fields !! k = Some v →
          context_go.context_Fields c' !! k = Some (context_go.basicValue Sprint v)) ∧
  (∀ k, k = "" ∨ fields !! k = None →
        context_go.context_Fields c' !! k = context_go.context_Fields c !! k) ∧
  context_go.context_Fields c'
  = context_go.context_Fields (context_go.WithFields Sprint c fields).
Proof.
  intros Hp c'. subst c'. unfold context_go.Fields in *.
  assert (Hnd : ∀ l, l ≡ₚ map_to_list fields → NoDup l.*1).
  { intros l Hl. rewrite Hl. apply NoDup_fst_map_to_list. }
  assert (Hin : ∀ l, l ≡ₚ map_to_list fields →
                  ∀ k v, (k, v) ∈ l ↔ fields !! k = Some v).
  { intros l Hl k v. rewrite Hl. apply elem_of_map_to_list. }
  assert (Hlook : ∀ l, l ≡ₚ map_to_list fields → ∀ k,
    context_go.context_Fields (context_go.WithFields_over Sprint c l) !! k
    = match (if decide (k = "") then None else fields !! k) with
      | Some v => Some (context_go.basicValue Sprint v)
      | None => context_go.context_Fields c !! k
      end).
  { intros l Hl k. destruct (decide (k = "")) as [->|Hne].
    - apply WithFields_over_other. by left.
    - destruct (fields !! k) as [v|] eqn:E.
      + apply WithFields_over_added; [by apply Hnd|by apply Hin|done].
      + apply WithFields_over_other. right. intros Hk.
        apply list_elem_of_fmap in Hk as ([k' v'] & -> & Hk).
        apply (Hin l Hl) in Hk. simpl in E. congruence. }
  destruct (WithFields_over_length Sprint order c) as [Hl Hn].
  split; [exact Hn|]. split.
  { rewrite !NumValues_length, Hl, (nonempty_keys_size fields order Hp). lia. }
  split; [|split].
  - intros k v Hne Hk. rewrite (Hlook order Hp).
    destruct (decide (k = "")); [done|]. by rewrite Hk.
  - intros k Hk. rewrite (Hlook order Hp).
    destruct (decide (k = "")); [done|]. destruct Hk as [?|Hk]; [done|]. by rewrite Hk.
  - apply map_eq. intros k. unfold context_go.WithFields.
    by rewrite (Hlook order Hp), (Hlook (map_to_list fields)).
Qed.

(** An instance: one field under a key and one under the empty key. *)
Lemma WithFields_any_order_witness :
  let Sprint : context_go.interface → string := λ _, "printed" in
  let two := Some (context_go.T_int context_go.Int 2) in
  let fields : context_go.Fields := {[ "k2" := two; "" := Some (context_go.T_bool true) ]} in
  let c' := context_go.WithFields Sprint (context_go.NewContext "first") fields in
  context_go.context_Fields c' !! "k2" = Some two ∧
  context_go.context_Fields c' !! "" = None.
Proof.
  intros Sprint two fields c'.
  assert (Hp : map_to_list fields ≡ₚ map_to_list fields) by reflexivity.
  destruct (WithFields_any_order Sprint (context_go.NewContext "first") fields
              (map_to_list fields) Hp) as (_ & _ & Ha & Ho & _).
  split.
  - apply (Ha "k2" two); [discriminate|reflexivity].
  - exact (Ho "" (or_introl eq_refl)).
Defined.

Lemma each_WithValue (Sprint : context_go.interface → string) (p : context_go.pairs)
    (joined : context_go.context) :
  Forall (λ kv, fst kv ≠ "" ∧ context_go.is_basic (snd kv) = true) p →
  context_go.each p (λ key value joined, context_go.WithValue Sprint joined key value) joined
  = context_go.mkContext (context_go.name joined)
      (reverse p ++ context_go.ctx_pairs joined).
Proof.
  intros Hp. revert joined. induction Hp as [|[k v] p [Hk Hb] Hp IH]; intros joined.
  - by destruct joined.
  - cbn [context_go.each]. rewrite IH. simpl in Hk, Hb.
    rewrite WithValue_key by done. rewrite basicValue_basic by done. simpl.
    by rewrite reverse_cons, <- app_assoc.
Qed.

Lemma JoinContext_fold (Sprint : context_go.interface → string)
    (contexts : list (option context_go.context)) (joined : context_go.context) :
  Forall (λ oc, ∀ c, oc = Some c → context_go.valid c) contexts →
  fold_left
    (λ joined context,
       match context with
       | None => joined
       | Some c =>
           context_go.Each c
             (λ key value joined, context_go.WithValue Sprint joined key value) joined
       end)
    contexts joined
  = context_go.mkContext (context_go.name joined)
      (reverse (context_go.joined_pairs contexts) ++ context_go.ctx_pairs joined).
Proof.
  intros Hv. revert joined. induction Hv as [|oc cs Hc Hcs IH]; intros joined.
  - by destruct joined.
  - cbn [fold_left]. rewrite IH. destruct oc as [c|].
    + unfold context_go.Each. rewrite each_WithValue by (by apply Hc).
      unfold context_go.joined_pairs. simpl.
      by rewrite reverse_app, <- app_assoc.
    + reflexivity.
Qed.

(** X26. JoinContext of contexts made by the package: the joined context
    has the given name; it holds the pairs of all the contexts, a nil
    context giving none, so its number of values is the sum of theirs; the
    pairs are stored in the reverse of the order in which they are read, so
    what Fields shows under a key is a value that one of the contexts holds
    under it, and when no key occurs twice Fields shows every pair of every
    context. *)
Theorem JoinContext_joins (Sprint : context_go.interface → string) (name : string)
    (contexts : list (option context_go.context)) :
  Forall (λ oc, ∀ c, oc = Some c → context_go.valid c) contexts →
  let joined := context_go.JoinContext Sprint name contexts in
  context_go.Name joined = name ∧
  context_go.ctx_pairs joined = reverse (context_go.joined_pairs contexts) ∧
  context_go.NumValues joined
  = foldr (λ oc n, match oc with Some c => context_go.NumValues c + n | None => n end)
      0 contexts ∧
  (∀ k v, context_go.context_Fields joined !! k = Some v →
          ∃ c, Some c ∈ contexts ∧ (k, v) ∈ context_go.ctx_pairs c) ∧
  (NoDup (context_go.joined_pairs contexts).*1 →
   ∀ c k v, Some c ∈ contexts → context_go.context_Fields c !! k = Some v →
            context_go.context_Fields joined !! k = Some v).
Proof.
  intros Hv joined. subst joined. unfold context_go.JoinContext.
  rewrite JoinContext_fold by done. simpl. rewrite app_nil_r.
  split; [done|]. split; [done|].
  assert (Hmem : ∀ kv, kv ∈ context_go.joined_pairs contexts ↔
                       ∃ c, Some c ∈ contexts ∧ kv ∈ context_go.ctx_pairs c).
  { intros kv. unfold context_go.joined_pairs.
    rewrite list_elem_of_In, in_flat_map. split.
    - intros ([c|] & Hin & Hkv); [|done]. exists c.
      by rewrite !list_elem_of_In.
    - intros (c & Hin & Hkv). exists (Some c). by rewrite <- !list_elem_of_In. }
  split; [|split].
  - rewrite NumValues_length. simpl. rewrite length_reverse. clear.
    induction contexts as [|[c|] cs IH]; simpl; [done| |done].
    unfold context_go.joined_pairs in *. simpl.
    rewrite length_app, NumValues_length, <- IH. lia.
  - intros k v Hk. unfold context_go.context_Fields in Hk. simpl in Hk.
    rewrite toFields_list_to_map in Hk.
    apply (elem_of_list_to_map_2 (M := gmap string)) in Hk.
    rewrite elem_of_reverse in Hk. by apply Hmem.
  - intros Hnd c k v Hc Hk. unfold context_go.context_Fields in *. simpl.
    rewrite toFields_list_to_map in *.
    apply (elem_of_list_to_map_2 (M := gmap string)) in Hk.
    apply (elem_of_list_to_map_1 (M := gmap string)).
    + by rewrite fmap_reverse, reverse_Permutation.
    + rewrite elem_of_reverse. apply Hmem. by exists c.
Qed.

(** An instance: a context that holds the key k twice, joined on its own;
    Fields of the context shows the value stored last, Fields of the join
    the one stored first. *)
Lemma JoinContext_joins_witness :
  let Sprint : context_go.interface → string := λ _, "printed" in
  let c := context_go.WithValue Sprint
             (context_go.WithValue Sprint (context_go.NewContext "first") "k"
                (Some (context_go.T_bool true)))
             "k" (Some (context_go.T_bool false)) in
  let joined := context_go.JoinContext Sprint "joined" [Some c; None] in
  Forall (λ oc, ∀ c', oc = Some c' → context_go.valid c') [Some c; None] ∧
  context_go.NumValues joined = 2 ∧
  context_go.context_Fields c !! "k" = Some (Some (context_go.T_bool false)) ∧
  context_go.context_Fields joined !! "k" = Some (Some (context_go.T_bool true)).
Proof.
  intros Sprint c joined.
  assert (Hv : Forall (λ oc, ∀ c', oc = Some c' → context_go.valid c') [Some c; None]).
  { repeat constructor; try discriminate; intros c' [= <-];
      repeat constructor; discriminate. }
  split; [exact Hv|].
  split; [exact (proj1 (proj2 (proj2 (JoinContext_joins Sprint "joined" [Some c; None] Hv))))|].
  split; reflexivity.
Defined.

Lemma WithValue_valid (Sprint : context_go.interface → string)
    (c : context_go.context) (key : string) (value : context_go.interface) :
  context_go.valid c → context_go.valid (context_go.WithValue Sprint c key value).
Proof.
  intros Hv. destruct (decide (key = "")) as [->|Hne]; [done|].
  rewrite WithValue_key by done. constructor; [|done].
  split; [done|apply basicValue_is_basic].
Qed.

Lemma each_valid (Sprint : context_go.interface → string) (p : context_go.pairs)
    (joined : context_go.context) :
  context_go.valid joined →
  context_go.valid
    (context_go.each p
       (λ key value joined, context_go.WithValue Sprint joined key value) joined).
Proof.
  revert joined. induction p as [|[k v] p IH]; intros joined Hv; [done|].
  cbn [context_go.each]. by apply IH, WithValue_valid.
Qed.

(** X27. Every context the package makes holds only pairs with a key other
    than the empty string and a value of a basic kind: NewContext makes such
    a context, WithValue and WithFields (in any order of the fields) keep it
    so, and JoinContext makes one whatever it is given; hence Fields of such
    a context has no empty key and only basic values. *)
Theorem contexts_hold_basic_values (Sprint : context_go.interface → string) :
  (∀ name, context_go.valid (context_go.NewContext name)) ∧
  (∀ c key value, context_go.valid c →
                  context_go.valid (context_go.WithValue Sprint c key value)) ∧
  (∀ c order, context_go.valid c →
              context_go.valid (context_go.WithFields_over Sprint c order)) ∧
  (∀ name contexts, context_go.valid (context_go.JoinContext Sprint name contexts)) ∧
  (∀ c k v, context_go.valid c → context_go.context_Fields c !! k = Some v →
            k ≠ "" ∧ context_go.is_basic v = true).
Proof.
  split; [intros name; constructor|]. split; [apply WithValue_valid|]. split; [|split].
  - intros c order. revert c. induction order as [|[k v] order IH]; intros c Hv; [done|].
    change (context_go.WithFields_over Sprint c ((k, v) :: order))
      with (context_go.WithFields_over Sprint (context_go.WithValue Sprint c k v) order).
    by apply IH, WithValue_valid.
  - intros name contexts. unfold context_go.JoinContext.
    assert (Hgen : ∀ joined, context_go.valid joined →
      context_go.valid
        (fold_left
           (λ joined context,
              match context with
              | None => joined
              | Some c =>
                  context_go.Each c
                    (λ key value joined, context_go.WithValue Sprint joined key value)
                    joined
              end) contexts joined)).
    { induction contexts as [|[c|] cs IH]; intros joined Hv; [done| |].
      - cbn [fold_left]. apply IH. unfold context_go.Each. by apply each_valid.
      - cbn [fold_left]. by apply IH. }
    apply Hgen. constructor.
  - intros c k v Hv Hk. unfold context_go.context_Fields in Hk.
    rewrite toFields_list_to_map in Hk.
    apply (elem_of_list_to_map_2 (M := gmap string)) in Hk.
    unfold context_go.valid in Hv. rewrite Forall_forall in Hv.
    exact (Hv (k, v) Hk).
Qed.

(** An instance: a slice stored under a key is held as the string printed
    for it. *)
Lemma contexts_hold_basic_values_witness :
  let Sprint : context_go.interface → string := λ _, "[1 2 3]" in
  let c := context_go.WithValue Sprint (context_go.NewContext "test") "k"
             (Some (context_go.T_other 1)) in
  context_go.valid c ∧
  context_go.context_Fields c !! "k" = Some (Some (context_go.T_string "[1 2 3]")).
Proof.
  intros Sprint c.
  destruct (contexts_hold_basic_values Sprint) as (Hn & Hw & _).
  split; [|reflexivity].
  exact (Hw (context_go.NewContext "test") "k" (Some (context_go.T_other 1)) (Hn "test")).
Defined.

(** * Panic isolation *)




(** Disposal does not empty an asynchronous worker: collector 1 panics on
    the event "first" while "second" is still in the queue of its worker;
    the collector is disposed (its entry is removed, Terminate is called with
    flush = false), and when the loop of the worker takes the queue case
    once more before it sees the terminate flag, the disposed collector is
    given "second". *)
Lemma disposed_collector_still_given_queued_event :
  let Sprintf : string → list value → string := λ f _, f in
  let Collect := λ (_ : Collector) (ev : Event) (s : list Event),
                   if String.eqb (ev_Message ev) "first"
                   then (Panics "boom", s) else (Returns None, s ++ [ev]) in
  let e1 := mkEvent INFO (NewContext "test") None "first" in
  let e2 := mkEvent INFO (NewContext "test") None "second" in
  let w := world_of (collect DEBUG 2 (Some 1%positive) (initial [])) in
  let aw := mkAsyncWorker 0 1%positive (Some (mkChan [e2] 2 false)) 0 in
  let r1 := asyncWorker_sendEvent Sprintf Collect 0 1 0 aw e1 w in
  let r2 := asyncWorker_Terminate Sprintf Collect (λ _, None) 0 1 0 1 (result_of r1) false
              (world_of r1) in
  registry (published w) !! 1%positive = Some (mkEntry DEBUG false (asyncWorkerRef 1)) ∧
  worker_Terminate 1%positive (asyncWorkerRef 1) false ∈ calls_of r1 ∧
  registry (published (world_of r1)) !! 1%positive = None ∧
  Collect_calls (calls_of r2) = [delivered 1%positive e2] ∧
  collectors (world_of r2) = [e2].
Proof.
  intros Sprintf Collect e1 e2 w aw r1 r2.
  split; [reflexivity|]. split.
  { vm_compute. repeat first [apply list_elem_of_here | apply list_elem_of_further]. }
  split; [reflexivity|]. split; reflexivity.
Qed.
